(** * HierarchyTransformers: evaluation and loss, embedded and checked

    Shallow embedding of
    - [hierarchy_transformers/evaluation/hit_eval.py]
      ([HierarchyRetrainedEvaluator]: [evaluate], [evaluate_dataloader],
      [__call__]),
    - [hypertrans/eval/reconstruct.py] ([ReconstructionEvaluator]),
    - [holm/loss.py] ([HyperbolicLoss]),
    - [hite/utils.py] ([example_generator]),
    - [trial_triplet.py] (the dictionary of losses).

    Numbers.  The evaluators and the loss are embedded twice.  Where a
    result is about the order of the search, the passes over the data or
    the special values, floating-point numbers are exact rationals [Q], in
    the loss extended with the IEEE special values ([tfloat]): no rounding.
    Where a result is about the values themselves, the operations are those
    of torch.float32: [Binary] has IEEE rounding to nearest, [HitEvalFloat]
    and [LossFloat] the composite scores, the threshold range and the cone
    angle with every operation rounded. *)

From Stdlib Require Import String ZArith QArith Qminmax Qabs Qround Qpower List Bool.
From Stdlib Require Import Lia Lqa.
From Stdlib Require Import Sorting.Sorted Sorting.Permutation.
Import ListNotations.

Local Open Scope Z_scope.
Local Open Scope Q_scope.

(** ** Python run-time errors and the outcome of a call *)

Inductive error : Type :=
| AssertionError      (* a failed [assert] *)
| EmptyReduction      (* torch: [min()]/[max()] of a tensor without elements *)
| EmptyConcat         (* torch: [concat] of an empty list of tensors *)
| ShapeMismatch.      (* torch: operands that cannot be broadcast together *)

Inductive outcome (A : Type) : Type :=
| Returned (a : A)
| Raised (e : error).

Arguments Returned {A} a.
Arguments Raised {A} e.

Definition bind {A B : Type} (x : outcome A) (f : A -> outcome B) : outcome B :=
  match x with
  | Returned a => f a
  | Raised e => Raised e
  end.

Notation "x <- c ;; k" := (bind c (fun x => k))
  (at level 61, c at next level, right associativity).

(** ** hierarchy_transformers/evaluation/hit_eval.py *)

Module HitEval.

(** A one-dimensional tensor of finite floats. *)
Definition tensor := list Q.

(** A row of the result matrix; the program addresses the four columns by
    position ([result_mat[:, 0]] ... [result_mat[:, 3]]). *)
Record row : Type := mk_row { col0 : Q; col1 : Q; col2 : Q; col3 : Q }.

Definition matrix := list row.

(** [torch.stack([labels, dists, rep_anchor_norms, rep_other_norms]).T],
    one row of it (evaluate_dataloader, line 118): the stacking order fixes
    what each column means. *)
Definition stacked_row (label dist anchor_norm other_norm : Q) : row :=
  mk_row label dist anchor_norm other_norm.

Definition stack_T (rows : list (Q * Q * Q * Q)) : matrix :=
  map (fun '(label, dist, anchor_norm, other_norm) =>
         stacked_row label dist anchor_norm other_norm) rows.

(** The dictionary returned by [threshold_evaluate]. *)
Record metrics : Type := mk_metrics {
  threshold : Q;
  precision : Q;
  recall : Q;
  F1 : Q;
  accuracy : Q
}.

(** [{"centri_score_weight": w}] updated with the metrics. *)
Record eval_results : Type := mk_results {
  centri_score_weight : Q;
  scores_at : metrics
}.

(** Python truth value of an [Optional[float]]: [None] and [0.0] are false. *)
Definition truthy (o : option Q) : option Q :=
  match o with
  | Some q => if Qeq_bool q 0 then None else Some q
  | None => None
  end.

(** [result_mat[:, 1] + w * (result_mat[:, 3] - result_mat[:, 2])]
    (lines 53 and 69). *)
Definition composite_scores (result_mat : matrix) (w : Q) : tensor :=
  map (fun r => col1 r + w * (col3 r - col2 r)) result_mat.

Definition labels_of (result_mat : matrix) : tensor := map col0 result_mat.

(** [scores.min()], [scores.max()]: torch raises on a tensor of no elements. *)
Definition tensor_min (t : tensor) : outcome Q :=
  match t with
  | [] => Raised EmptyReduction
  | x :: xs => Returned (fold_left Qmin xs x)
  end.

Definition tensor_max (t : tensor) : outcome Q :=
  match t with
  | [] => Raised EmptyReduction
  | x :: xs => Returned (fold_left Qmax xs x)
  end.

(** Python [int(x)] of a float: truncation toward zero. *)
Definition py_int (q : Q) : Z := Z.quot (Qnum q) (Zpos (Qden q)).

(** Python [range(start, stop)]. *)
Definition py_range (start stop : Z) : list Z :=
  map (fun i => (start + Z.of_nat i)%Z) (seq 0 (Z.to_nat (stop - start))).

(** [threshold / granuality] for the integer loop variable (line 74). *)
Definition threshold_of (granuality k : Z) : Q := inject_Z k / inject_Z granuality.

(** The state of the search: [best_f1], [best_results], [is_updated]. *)
Record search_state : Type := mk_state {
  best_f1 : Q;
  best_results : option eval_results;
  is_updated : bool
}.

Definition initial_state : search_state :=
  mk_state (-1) None true.

Section Evaluator.

(** Modelled from the spec: [threshold_evaluate] of [evaluation/eval_functions.py]
    is imported by hit_eval.py but is not among the sources.  The evaluator
    only needs that it maps scores, labels and a threshold to the metrics, so
    it is a parameter here; [threshold_evaluate_model] below fills it in for
    concrete runs. *)
Variable threshold_evaluate : tensor -> tensor -> Q -> metrics.

(** Body of the inner loop (lines 74-80). *)
Definition threshold_step (scores labels : tensor) (granuality : Z) (w : Q)
    (st : search_state) (k : Z) : search_state :=
  let results := threshold_evaluate scores labels (threshold_of granuality k) in
  if Qlt_le_dec (best_f1 st) (F1 results)
  then mk_state (F1 results) (Some (mk_results w results)) true
  else st.

(** One pass of the outer loop body after the early-stop test
    (lines 66-80); [k] is the value of the loop variable in [range(10)]. *)
Definition scan_weight (result_mat : matrix) (granuality : Z)
    (st : search_state) (k : Z) : outcome search_state :=
  let st := mk_state (best_f1 st) (best_results st) false in
  let w := inject_Z (k + 1) in
  let scores := composite_scores result_mat w in
  lo <- tensor_min scores ;;
  hi <- tensor_max scores ;;
  let start := py_int (lo * inject_Z granuality) in
  let stop := py_int (hi * inject_Z granuality) in
  Returned (fold_left (threshold_step scores (labels_of result_mat) granuality w)
                      (py_range start stop) st).

(** The outer loop (lines 62-80) with its early [break]. *)
Fixpoint weight_loop (result_mat : matrix) (granuality : Z) (ks : list Z)
    (st : search_state) : outcome search_state :=
  match ks with
  | [] => Returned st
  | k :: ks' =>
      if negb (is_updated st) then Returned st
      else
        st' <- scan_weight result_mat granuality st k ;;
        weight_loop result_mat granuality ks' st'
  end.

(** [HierarchyRetrainedEvaluator.evaluate] (lines 42-82). *)
Definition evaluate (result_mat : matrix) (granuality : Z)
    (best_val_centri_score_weight best_val_threshold : option Q)
    : outcome (option eval_results) :=
  match truthy best_val_threshold, truthy best_val_centri_score_weight with
  | Some t, Some w =>
      let scores := composite_scores result_mat w in
      Returned (Some (mk_results w
                  (threshold_evaluate scores (labels_of result_mat) t)))
  | _, _ =>
      st <- weight_loop result_mat granuality (py_range 0 10) initial_state ;;
      Returned (best_results st)
  end.

End Evaluator.

(** Number of (score, label) pairs that satisfy [f], as a float. *)
Definition count_where (f : Q -> Q -> bool) (scores labels : tensor) : Q :=
  inject_Z (Z.of_nat (List.length (filter (fun '(s, l) => f s l) (combine scores labels)))).

(** Modelled from the spec: [threshold_evaluate] (missing from the sources),
    after section 4.4: a row is predicted positive when [score <= threshold];
    precision, recall, F1 and accuracy are computed from the counts.  The
    spec does not say what a zero denominator gives; the quotient of [Q] is
    0 there, and no result below evaluates this model at such an input. *)
Definition threshold_evaluate_model (scores labels : tensor) (t : Q) : metrics :=
  let tp := count_where (fun s l => Qle_bool s t && Qeq_bool l 1) scores labels in
  let fp := count_where (fun s l => Qle_bool s t && negb (Qeq_bool l 1)) scores labels in
  let fn := count_where (fun s l => negb (Qle_bool s t) && Qeq_bool l 1) scores labels in
  let tn := count_where (fun s l => negb (Qle_bool s t) && negb (Qeq_bool l 1)) scores labels in
  let p := Qred (tp / (tp + fp)) in
  let r := Qred (tp / (tp + fn)) in
  mk_metrics t p r (Qred (2 * p * r / (p + r))) (Qred ((tp + tn) / (tp + fp + fn + tn))).

(** *** Triplet reshaping of [evaluate_dataloader] (lines 161-169) *)

(** [t[::n]]: the elements at positions 0, n, 2n, ... *)
Fixpoint every_nth_from (n skip : nat) (l : matrix) : matrix :=
  match l with
  | [] => []
  | x :: l' =>
      match skip with
      | O => x :: every_nth_from n (Nat.pred n) l'
      | S s => every_nth_from n s l'
      end
  end.

Definition every_nth (n : nat) (l : matrix) : matrix := every_nth_from n 0 l.

(** [t[a:b]] for [0 <= a <= b]: shorter, or empty, when [t] runs out. *)
Definition py_slice (a b : nat) (l : matrix) : matrix := firstn (b - a) (skipn a l).

(** [torch.concat(real_mat, dim=0)]: raises on an empty list. *)
Definition torch_concat (ts : list matrix) : outcome matrix :=
  match ts with
  | [] => Raised EmptyConcat
  | _ => Returned (concat ts)
  end.

Definition positive_mat (result_mat : matrix) : matrix :=
  every_nth 10 (filter (fun r => Qeq_bool (col0 r) 1) result_mat).

Definition negative_mat (result_mat : matrix) : matrix :=
  filter (fun r => Qeq_bool (col0 r) 0) result_mat.

(** The list [real_mat] built by the loop of lines 166-168. *)
Definition real_mat (result_mat : matrix) : list matrix :=
  flat_map (fun i => [ firstn 1 (skipn i (positive_mat result_mat));
                       py_slice (10 * i) (10 * (i + 1)) (negative_mat result_mat) ])
           (seq 0 (List.length (positive_mat result_mat))).

Definition reshape_triplet (result_mat : matrix) : outcome matrix :=
  torch_concat (real_mat result_mat).

(** *** The candidates of the search, in the order the loops visit them *)

(** The weight tried for the loop variable [k] of [range(10)] (line 68). *)
Definition weight_of (k : nat) : Q := inject_Z (Z.of_nat k + 1).

(** The thresholds scanned for the weight [w] (lines 71-74), in scan order. *)
Definition scanned_thresholds (result_mat : matrix) (granuality : Z) (w : Q) : list Q :=
  match tensor_min (composite_scores result_mat w),
        tensor_max (composite_scores result_mat w) with
  | Returned lo, Returned hi =>
      map (threshold_of granuality)
          (py_range (py_int (lo * inject_Z granuality)) (py_int (hi * inject_Z granuality)))
  | _, _ => []
  end.

Definition candidates_of (result_mat : matrix) (granuality : Z) (k : nat) : list (Q * Q) :=
  map (pair (weight_of k)) (scanned_thresholds result_mat granuality (weight_of k)).

(** All (weight, threshold) pairs of the first [n] weights. *)
Definition candidates (result_mat : matrix) (granuality : Z) (n : nat) : list (Q * Q) :=
  flat_map (candidates_of result_mat granuality) (seq 0 n).

(** Visit order: lower weight first, then lower threshold. *)
Definition candidate_lt (c d : Q * Q) : Prop :=
  fst c < fst d \/ (fst c == fst d /\ snd c < snd d).

Section Candidates.

Variable threshold_evaluate : tensor -> tensor -> Q -> metrics.
Variable result_mat : matrix.
Variable granuality : Z.

Definition metrics_at (c : Q * Q) : metrics :=
  threshold_evaluate (composite_scores result_mat (fst c)) (labels_of result_mat) (snd c).

Definition results_at (c : Q * Q) : eval_results := mk_results (fst c) (metrics_at c).

Definition F1_at (c : Q * Q) : Q := F1 (metrics_at c).

(** The scan of the weight for loop variable [k] improves on the best F1
    seen so far: one of its candidates beats the initial -1 and every
    candidate of the weights before it. *)
Definition improves (k : nat) : Prop :=
  exists c, In c (candidates_of result_mat granuality k) /\
            -1 < F1_at c /\
            forall c', In c' (candidates result_mat granuality k) -> F1_at c' < F1_at c.

(** [c] is the first candidate of [visited] with the highest F1. *)
Definition first_best (visited : list (Q * Q)) (c : Q * Q) : Prop :=
  exists before after,
    visited = before ++ c :: after /\
    -1 < F1_at c /\
    (forall c', In c' before -> F1_at c' < F1_at c) /\
    (forall c', In c' after -> F1_at c' <= F1_at c).

(** What the state of the search knows after the candidates [visited]:
    nothing beat the initial -1, or it holds their first best candidate. *)
Definition search_invariant (visited : list (Q * Q)) (st : search_state) : Prop :=
  (best_results st = None /\ best_f1 st = -1 /\
   forall c, In c visited -> F1_at c <= -1)
  \/ (exists c, first_best visited c /\
                best_results st = Some (results_at c) /\ best_f1 st = F1_at c).

End Candidates.

(** *** Concrete inputs *)

(** The two rows of the end-to-end example of section 8. *)
Definition example_mat : matrix :=
  stack_T [(1, 1 # 2, 9 # 10, 3 # 10); (0, 3, 9 # 10, 9 # 10)].

(** A held-out split: two positive rows and a negative one. *)
Definition held_out_mat : matrix :=
  stack_T [(1, 1 # 2, 9 # 10, 3 # 10); (1, 1, 1 # 2, 1 # 2); (0, 3, 9 # 10, 9 # 10)].

(** Rows of a single class (label 1 only). *)
Definition one_row_mat : matrix := stack_T [(1, 1 # 2, 9 # 10, 3 # 10)].

Definition single_class_mat : matrix :=
  stack_T [(1, 1 # 2, 9 # 10, 3 # 10); (1, 3, 9 # 10, 9 # 10)].

(** Triplet results of two children with three negatives each: the positive
    row of a child is repeated once per negative.  The distance column tells
    the rows apart: 1 and 2 for the positive rows of the first and second
    child, 11-13 and 21-23 for their negative rows. *)
Definition short_triplet_mat : matrix :=
  stack_T [(1, 1, 5, 4); (1, 1, 5, 4); (1, 1, 5, 4);
           (1, 2, 6, 4); (1, 2, 6, 4); (1, 2, 6, 4);
           (0, 11, 5, 7); (0, 12, 5, 7); (0, 13, 5, 7);
           (0, 21, 6, 7); (0, 22, 6, 7); (0, 23, 6, 7)].

End HitEval.

(** ** hypertrans/eval/reconstruct.py *)

Module Reconstruct.

Definition entity := string.

(** Python sets of entities are duplicate-free lists here; only membership
    and the number of elements are observed by the code below. *)
Definition mem (e : entity) (s : list entity) : bool :=
  existsb (String.eqb e) s.

(** [set(xs) - s] *)
Definition set_minus (xs s : list entity) : list entity :=
  filter (fun e => negb (mem e s)) (nodup string_dec xs).

(** Modelled from the spec: [HypernymGraph] of [hypertrans/graph.py] is
    imported by reconstruct.py but is not among the sources; section 6 gives
    its interface: [entities], an ordered collection, and
    [hypernyms(entity)], a set of entities. *)
Record HypernymGraph : Type := mk_graph {
  entities : list entity;
  get_hypernyms : entity -> list entity
}.

(** The embedding table (gensim's [PoincareKeyedVectors]) is observed through
    distances only: [distance e f] is the Poincare distance between the
    vectors stored for [e] and [f]. *)
Record PoincareKeyedVectors : Type := mk_kv {
  index_to_key : list entity;
  distance : entity -> entity -> Q
}.

(** gensim's [distances(node, other_nodes)]: distances to the given nodes, in
    their order; to all nodes of the table when [other_nodes] is empty. *)
Definition distances (kv : PoincareKeyedVectors) (e : entity)
    (other_nodes : list entity) : list Q :=
  match other_nodes with
  | [] => map (distance kv e) (index_to_key kv)
  | _ => map (distance kv e) other_nodes
  end.

(** [(np.array(ds) < d).sum()] *)
Definition count_less (ds : list Q) (d : Q) : Z :=
  Z.of_nat (List.length (filter (fun x => if Qlt_le_dec x d then true else false) ds)).

(** [get_hypernym_ranks] (lines 67-81); the dictionary is the list of its
    items in insertion order. *)
Definition get_hypernym_ranks (graph : HypernymGraph) (kv : PoincareKeyedVectors)
    (entity_name : entity) : list (entity * Z) :=
  let hypernyms := get_hypernyms graph entity_name in
  match hypernyms with
  | [] => []
  | _ =>
      let distances_to_hypernyms := distances kv entity_name hypernyms in
      let rest := set_minus (entities graph) hypernyms in
      let distances_to_rest := distances kv entity_name rest in
      map (fun '(h, dh) => (h, (count_less distances_to_rest dh + 1)%Z))
          (combine hypernyms distances_to_hypernyms)
  end.

(** [np.sort] on integers. *)
Fixpoint insert_sorted (x : Z) (l : list Z) : list Z :=
  match l with
  | [] => [x]
  | y :: l' => if (x <=? y)%Z then x :: l else y :: insert_sorted x l'
  end.

Definition np_sort (l : list Z) : list Z := fold_right insert_sorted [] l.

(** [np.arange(a, a + n)] *)
Definition np_arange (a : Z) (n : nat) : list Z :=
  map (fun i => (a + Z.of_nat i)%Z) (seq 0 n).

(** [np.mean]; [None] stands for the [nan] numpy gives on no elements. *)
Definition np_mean (l : list Q) : option Q :=
  match l with
  | [] => None
  | _ => Some (Qred (fold_left Qplus l 0 / inject_Z (Z.of_nat (List.length l))))
  end.

(** [get_hypernym_average_precision] with [return_ranks=True] (lines 83-99). *)
Definition get_hypernym_average_precision (graph : HypernymGraph)
    (kv : PoincareKeyedVectors) (entity_name : entity) : option (Q * list Z) :=
  let rank_dict := get_hypernym_ranks graph kv entity_name in
  match rank_dict with
  | [] => None
  | _ =>
      let ranks := map snd rank_dict in
      let map_ranks :=
        map (fun '(r, i) => (r + i)%Z)
            (combine (np_sort ranks) (np_arange 0 (List.length ranks))) in
      let precisions :=
        map (fun '(i, r) => inject_Z i / inject_Z r)
            (combine (np_arange 1 (List.length map_ranks)) (np_sort map_ranks)) in
      match np_mean precisions with
      | Some avg_precision => Some (avg_precision, ranks)
      | None => None
      end
  end.

(** [evaluate_hypernym_mean_rank_and_AP] without sub-sampling
    ([max_eval_nums=None], lines 49-65): the pair (mean_rank, MAP). *)
Definition evaluate_hypernym_mean_rank_and_AP (graph : HypernymGraph)
    (kv : PoincareKeyedVectors) : option Q * option Q :=
  let results := map (get_hypernym_average_precision graph kv) (entities graph) in
  let all_ranks :=
    flat_map (fun r => match r with Some (_, ranks) => ranks | None => [] end) results in
  let all_aps :=
    flat_map (fun r => match r with Some (ap, _) => [ap] | None => [] end) results in
  (np_mean (map inject_Z all_ranks), np_mean all_aps).

(** The chain a -> b -> c of section 8: c is the parent of b, b the parent of
    a, and b is the single known hypernym of a.  The three embeddings lie on
    one ray from the origin, at hyperbolic norms 3 > 2 > 1 for a, b, c, so the
    distance between two of them is the difference of their norms. *)
Definition chain_graph : HypernymGraph :=
  mk_graph ["a"; "b"; "c"]%string
    (fun e => if String.eqb e "a" then ["b"%string]
              else if String.eqb e "b" then ["c"%string] else []).

Definition chain_norm (e : entity) : Q :=
  if String.eqb e "a" then 3 else if String.eqb e "b" then 2 else 1.

Definition chain_embeddings : PoincareKeyedVectors :=
  mk_kv ["a"; "b"; "c"]%string (fun e f => Qabs (chain_norm e - chain_norm f)).

End Reconstruct.

(** ** holm/loss.py *)

Module Loss.

(** Floating-point values of the loss: a finite number, an infinity or
    not-a-number.  Finite arithmetic is exact (rounding and the sign of zero
    are left out); the special values follow IEEE 754. *)
Inductive tfloat : Type :=
| Fin (q : Q)
| PInf
| NInf
| NaN.

Definition is_nan (x : tfloat) : bool :=
  match x with NaN => true | _ => false end.

Definition is_finite (x : tfloat) : bool :=
  match x with Fin _ => true | _ => false end.

Definition is_zero (x : tfloat) : bool :=
  match x with Fin q => Qeq_bool q 0 | _ => false end.

Definition fneg (x : tfloat) : tfloat :=
  match x with
  | Fin q => Fin (- q)
  | PInf => NInf
  | NInf => PInf
  | NaN => NaN
  end.

Definition fadd (x y : tfloat) : tfloat :=
  match x, y with
  | NaN, _ | _, NaN => NaN
  | Fin a, Fin b => Fin (a + b)
  | PInf, NInf | NInf, PInf => NaN
  | PInf, _ | _, PInf => PInf
  | NInf, _ | _, NInf => NInf
  end.

Definition fsub (x y : tfloat) : tfloat := fadd x (fneg y).

(** An infinity with the sign of [q]; not-a-number for [q = 0]. *)
Definition signed_inf (positive : bool) (q : Q) : tfloat :=
  match q ?= 0 with
  | Eq => NaN
  | Gt => if positive then PInf else NInf
  | Lt => if positive then NInf else PInf
  end.

Definition fmul (x y : tfloat) : tfloat :=
  match x, y with
  | NaN, _ | _, NaN => NaN
  | Fin a, Fin b => Fin (a * b)
  | Fin a, PInf | PInf, Fin a => signed_inf true a
  | Fin a, NInf | NInf, Fin a => signed_inf false a
  | PInf, PInf | NInf, NInf => PInf
  | PInf, NInf | NInf, PInf => NInf
  end.

Definition fdiv (x y : tfloat) : tfloat :=
  match x, y with
  | NaN, _ | _, NaN => NaN
  | Fin a, Fin b => if Qeq_bool b 0 then signed_inf true a else Fin (a / b)
  | Fin _, _ => Fin 0
  | PInf, Fin b => if Qlt_le_dec b 0 then NInf else PInf
  | NInf, Fin b => if Qlt_le_dec b 0 then PInf else NInf
  | _, _ => NaN
  end.

(** [x ** 2] *)
Definition fsquare (x : tfloat) : tfloat := fmul x x.

(** [F.relu] *)
Definition relu (x : tfloat) : tfloat :=
  match x with
  | Fin q => Fin (Qmax 0 q)
  | PInf => PInf
  | NInf => Fin 0
  | NaN => NaN
  end.

(** [x.clamp(min=m)] for a finite bound [m] *)
Definition clamp_min (m : Q) (x : tfloat) : tfloat :=
  match x with
  | Fin q => Fin (Qmax m q)
  | PInf => PInf
  | NInf => Fin m
  | NaN => NaN
  end.

(** Is [x] in the closed interval [-1, 1], the domain of arccos and arcsin? *)
Definition in_unit_interval (x : tfloat) : bool :=
  match x with
  | Fin q => Qle_bool (-1) q && Qle_bool q 1
  | _ => false
  end.

Definition tensor := list tfloat.
Definition vec := list tfloat.
Definition batch := list vec.

(** [t.sum()], [t.mean()]; the mean of no elements is 0/0. *)
Definition fsum (t : tensor) : tfloat := fold_left fadd t (Fin 0).

Definition fmean (t : tensor) : tfloat :=
  fdiv (fsum t) (Fin (inject_Z (Z.of_nat (List.length t)))).

(** Elementwise operation on two tensors along the batch dimension, with
    torch's broadcasting: equal sizes, or one operand of size 1. *)
Definition bmap2 {A B C : Type} (f : A -> B -> C) (xs : list A) (ys : list B)
    : outcome (list C) :=
  if Nat.eqb (List.length xs) (List.length ys)
  then Returned (map (fun '(x, y) => f x y) (combine xs ys))
  else match xs, ys with
       | [x], _ => Returned (map (f x) ys)
       | _, [y] => Returned (map (fun x => f x y) xs)
       | _, _ => Raised ShapeMismatch
       end.

(** The elementary functions of torch that the loss calls. *)
Class TorchMath : Type := {
  fsqrt : tfloat -> tfloat;
  farcsin : tfloat -> tfloat;
  farccos : tfloat -> tfloat
}.

(** What the results below use of them: the square root of a finite number
    is never infinite and is zero at zero, and the inverse cosine is
    not-a-number outside [-1, 1] (infinities and not-a-number included). *)
Record TorchMathLaws (M : TorchMath) : Prop := {
  fsqrt_finite : forall q, fsqrt (Fin q) = PInf \/ fsqrt (Fin q) = NInf -> False;
  fsqrt_zero : forall q, q == 0 -> is_zero (fsqrt (Fin q)) = true;
  farccos_domain : forall x, in_unit_interval x = false -> farccos x = NaN
}.

(** The fields of a [HyperbolicLoss] object that [forward] reads;
    [distance_metric] is [manifold.dist] of geoopt. *)
Record HyperbolicLoss : Type := mk_loss {
  distance_metric : vec -> vec -> tfloat;
  weight_cluster : tfloat;
  weight_centri : tfloat;
  weight_cone : tfloat;
  min_norm : Q
}.

(** [__init__] (lines 41-52): [min_norm] is fixed to 0.1. *)
Definition init (dist : vec -> vec -> tfloat) (cluster centri cone : tfloat)
    : HyperbolicLoss :=
  mk_loss dist cluster centri cone (1 # 10).

Section Cone.

Context {M : TorchMath}.
Variable self : HyperbolicLoss.

(** [v.norm(dim=-1)], [(a * b).sum(dim=-1)], [a - b] on one embedding; all
    embeddings have the encoder's output dimension. *)
Definition vnorm (v : vec) : tfloat := fsqrt (fsum (map fsquare v)).

Definition vdot (a b : vec) : tfloat :=
  fsum (map (fun '(x, y) => fmul x y) (combine a b)).

Definition vsub (a b : vec) : vec :=
  map (fun '(x, y) => fsub x y) (combine a b).

(** [half_cone_aperture] (lines 54-60) *)
Definition half_cone_aperture (cone_tip : vec) : tfloat :=
  let norm_tip := clamp_min (min_norm self) (vnorm cone_tip) in
  farcsin (fdiv (fmul (Fin (min_norm self)) (fsub (Fin 1) (fsquare norm_tip)))
                norm_tip).

(** The quotient that [cone_angle_at_u] hands to [torch.arccos]
    (lines 67-73). *)
Definition cone_angle_argument (cone_tip u : vec) : tfloat :=
  let norm_tip := vnorm cone_tip in
  let norm_child := vnorm u in
  let dot_prod := vdot cone_tip u in
  let edist := vnorm (vsub cone_tip u) in
  let numerator :=
    fsub (fmul dot_prod (fadd (Fin 1) (fsquare norm_tip)))
         (fmul (fsquare norm_tip) (fadd (Fin 1) (fsquare norm_child))) in
  let denomenator :=
    fmul (fmul norm_tip edist)
         (fsqrt (fsub (fadd (Fin 1) (fmul (fsquare norm_child) (fsquare norm_tip)))
                      (fmul (Fin 2) dot_prod))) in
  fdiv numerator denomenator.

(** [cone_angle_at_u] (lines 62-73) *)
Definition cone_angle_at_u (cone_tip u : vec) : tfloat :=
  farccos (cone_angle_argument cone_tip u).

(** [energy] (lines 75-77) *)
Definition energy (cone_tip u : vec) : tfloat :=
  relu (fsub (cone_angle_at_u cone_tip u) (half_cone_aperture cone_tip)).

(** [manifold.origin(rep.shape)]: the zero vector for every row. *)
Definition origin (rep : batch) : batch :=
  map (fun v => map (fun _ => Fin 0) v) rep.

Definition hyper_norms (rep : batch) : outcome tensor :=
  bmap2 (distance_metric self) rep (origin rep).

(** [forward] (lines 83-122).  [reps] are the embeddings the encoder gives
    for the sentence features; [labels] is an integer tensor. *)
Definition forward (reps : list batch) (labels : list Z) : outcome tfloat :=
  match reps with
  | [rep_anchor; rep_other] =>
      let labels_float := map (fun l => Fin (inject_Z l)) labels in
      let one_minus_labels := map (fun l => Fin (inject_Z (1 - l))) labels in
      (* clustering loss *)
      distances <- bmap2 (distance_metric self) rep_anchor rep_other ;;
      pos <- bmap2 fmul labels_float (map fsquare distances) ;;
      neg <- bmap2 fmul one_minus_labels
               (map (fun d => fsquare (relu (fsub (Fin 5) d))) distances) ;;
      both <- bmap2 fadd pos neg ;;
      let cluster_loss := fmean (map (fmul (Fin (1 # 2))) both) in
      (* centripetal loss *)
      rep_anchor_hyper_norms <- hyper_norms rep_anchor ;;
      rep_other_hyper_norms <- hyper_norms rep_other ;;
      gaps <- bmap2 fsub (map (fadd (Fin (1 # 2))) rep_other_hyper_norms)
                rep_anchor_hyper_norms ;;
      centri <- bmap2 fmul labels_float (map relu gaps) ;;
      let centri_loss := fdiv (fsum centri) (fsum labels_float) in
      (* entailment cone loss *)
      energies <- bmap2 energy rep_other rep_anchor ;;
      cpos <- bmap2 fmul labels_float (map fsquare energies) ;;
      cneg <- bmap2 fmul one_minus_labels
                (map (fun e => fsquare (relu (fsub (Fin (1 # 10)) e))) energies) ;;
      cboth <- bmap2 fadd cpos cneg ;;
      let cone_loss := fmean cboth in
      Returned (fadd (fadd (fmul (weight_cluster self) cluster_loss)
                           (fmul (weight_centri self) centri_loss))
                     (fmul (weight_cone self) cone_loss))
  | _ => Raised AssertionError
  end.

End Cone.

(** A coarse, computable instance of the elementary functions, for running
    the definitions at concrete inputs: the square root is rounded down to a
    multiple of 1/(den * 2^16) (exact on squares of such numbers); arcsin
    and arccos are the chords through their values at -1, 0 and 1, with pi
    taken as 355/113, and not-a-number outside [-1, 1]. *)
Definition sqrt_down (q : Q) : Q :=
  Qred (Qmake (Z.sqrt (Qnum q * Zpos (Qden q) * 2 ^ 32)) (Qden q * 2 ^ 16)).

Definition coarse_sqrt (x : tfloat) : tfloat :=
  match x with
  | Fin q => if Qlt_le_dec q 0 then NaN else Fin (sqrt_down q)
  | PInf => PInf
  | _ => NaN
  end.

Definition coarse_arcsin (x : tfloat) : tfloat :=
  match x with
  | Fin q => if in_unit_interval x then Fin ((355 # 226) * q) else NaN
  | _ => NaN
  end.

Definition coarse_arccos (x : tfloat) : tfloat :=
  match x with
  | Fin q => if in_unit_interval x then Fin ((355 # 226) * (1 - q)) else NaN
  | _ => NaN
  end.

Definition coarse_math : TorchMath :=
  {| fsqrt := coarse_sqrt; farcsin := coarse_arcsin; farccos := coarse_arccos |}.

(** A flat stand-in for the manifold's distance in concrete runs: the
    Euclidean distance of the two embeddings. *)
Definition flat_dist (x y : vec) : tfloat :=
  @vnorm coarse_math (@vsub x y).

Definition example_loss : HyperbolicLoss :=
  init flat_dist (Fin 1) (Fin 1) (Fin 1).

(** Three points of the unit ball, at Euclidean norms 1/2, 1/2 and 1/5. *)
Definition point_a : vec := [Fin (1 # 2); Fin 0].
Definition point_b : vec := [Fin (3 # 10); Fin (4 # 10)].
Definition point_c : vec := [Fin 0; Fin (1 # 5)].

(** A vector whose coordinates are all finite. *)
Definition finite_vec (v : vec) : Prop := Forall (fun x => is_finite x = true) v.

(** Either an exact zero or not-a-number: what a product with the label 0
    can be. *)
Definition zero_or_nan (x : tfloat) : bool :=
  match x with
  | Fin q => Qeq_bool q 0
  | NaN => true
  | _ => false
  end.

End Loss.

(** ** hierarchy_transformers/evaluation/hit_eval.py: the data loader pass *)

Module HitEvalLoader.
Import HitEval.

(** What [evaluate_dataloader] returns: the result matrix and, of the
    results dictionary, the mean loss and the scores. *)
Record loader_output : Type := mk_output {
  out_mat : matrix;
  out_loss : Loss.tfloat;
  out_scores : option eval_results
}.

(** [__call__] fails with the errors of the passes it runs, or with a
    TypeError where it subscripts scores that are [None]. *)
Inductive call_error : Type :=
| PassError (e : error)
| TypeError.

Section Loader.

(** The embeddings the model gives ([V]) are seen through the manifold only:
    [dist] is [manifold.dist], [dist0] is [manifold.dist0]. *)
Variable V : Type.
Variable dist : V -> V -> Q.
Variable dist0 : V -> Q.

(** A collated batch, by example: two embeddings and a label, or three
    embeddings (anchor, positive, negative). *)
Inductive batch : Type :=
| Pairs (examples : list (V * V * Q))
| Triplets (examples : list (V * V * V)).

(** Modelled from the spec: the loss module of hit_eval.py is
    [hierarchy_transformers/loss.py], which is not among the sources; its
    value on a batch is a parameter, and [apply_triplet_loss] is its flag. *)
Variable loss_module : batch -> Loss.tfloat.
Variable apply_triplet_loss : bool.

(** Modelled from the spec: [threshold_evaluate], as in [HitEval]. *)
Variable threshold_evaluate : tensor -> tensor -> Q -> metrics.

(** The stacked tensors of lines 118, 130-139 and 140-149. *)
Definition pair_rows (examples : list (V * V * Q)) : matrix :=
  map (fun '(anchor, other, label) =>
         stacked_row label (dist anchor other) (dist0 anchor) (dist0 other)) examples.

Definition positive_rows (examples : list (V * V * V)) : matrix :=
  map (fun '(anchor, positive, negative) =>
         stacked_row 1 (dist anchor positive) (dist0 anchor) (dist0 positive)) examples.

Definition negative_rows (examples : list (V * V * V)) : matrix :=
  map (fun '(anchor, positive, negative) =>
         stacked_row 0 (dist anchor negative) (dist0 anchor) (dist0 negative)) examples.

(** The matrices one batch appends to [results] (lines 108-149). *)
Definition batch_results (b : batch) : outcome (list matrix) :=
  match apply_triplet_loss, b with
  | false, Pairs examples => Returned [pair_rows examples]
  | true, Triplets examples => Returned [positive_rows examples; negative_rows examples]
  | _, _ => Raised AssertionError
  end.

(** The loop over the batches (lines 98-157): [results] and [eval_loss]. *)
Fixpoint batch_loop (batches : list batch) (results : list matrix)
    (eval_loss : Loss.tfloat) : outcome (list matrix * Loss.tfloat) :=
  match batches with
  | [] => Returned (results, eval_loss)
  | b :: rest =>
      rows <- batch_results b ;;
      let cur_loss := loss_module b in
      let eval_loss :=
        if Loss.is_nan cur_loss then eval_loss else Loss.fadd eval_loss cur_loss in
      batch_loop rest (results ++ rows) eval_loss
  end.

(** [evaluate_dataloader] (lines 84-179). *)
Definition evaluate_dataloader (batches : list batch)
    (best_val_centri_score_weight best_val_threshold : option Q)
    : outcome loader_output :=
  state <- batch_loop batches [] (Loss.Fin 0) ;;
  let '(results, eval_loss) := state in
  result_mat <- torch_concat results ;;
  result_mat <- (if apply_triplet_loss then reshape_triplet result_mat
                 else Returned result_mat) ;;
  eval_scores <- evaluate threshold_evaluate result_mat 100
                   best_val_centri_score_weight best_val_threshold ;;
  Returned (mk_output result_mat
              (Loss.fdiv eval_loss (Loss.Fin (inject_Z (Z.of_nat (List.length batches)))))
              eval_scores).

(** Truth value of an optional data loader: [None] and a loader of no
    batches are false. *)
Definition loader_given (d : option (list batch)) : option (list batch) :=
  match d with
  | Some (b :: bs) => Some (b :: bs)
  | _ => None
  end.

(** [__call__] (lines 181-214).  The files written are the list of saved
    outputs, each under the name of its split; the value is the F1 of the
    validation scores. *)
Definition call (train_dataloader : option (list batch)) (val_dataloader : list batch)
    (test_dataloader : option (list batch))
    : list (string * loader_output) * (call_error + Q) :=
  let train_pass :=
    match loader_given train_dataloader with
    | Some batches =>
        match evaluate_dataloader batches None None with
        | Returned o => inr [("train"%string, o)]
        | Raised e => inl e
        end
    | None => inr []
    end in
  match train_pass with
  | inl e => ([], inl (PassError e))
  | inr saved =>
      match evaluate_dataloader val_dataloader None None with
      | Raised e => (saved, inl (PassError e))
      | Returned val_out =>
          let saved := saved ++ [("val"%string, val_out)] in
          let test_pass :=
            match loader_given test_dataloader with
            | Some batches =>
                match out_scores val_out with
                | None => inl TypeError
                | Some val_scores =>
                    match evaluate_dataloader batches
                            (Some (centri_score_weight val_scores))
                            (Some (threshold (scores_at val_scores))) with
                    | Returned o => inr [("test"%string, o)]
                    | Raised e => inl (PassError e)
                    end
                end
            | None => inr []
            end in
          match test_pass with
          | inl e => (saved, inl e)
          | inr saved_test =>
              match out_scores val_out with
              | None => (saved ++ saved_test, inl TypeError)
              | Some val_scores => (saved ++ saved_test, inr (F1 (scores_at val_scores)))
              end
          end
      end
  end.

(** Triplets in data order, ten per child: the child's anchor and positive
    with each of its negatives. *)
Definition child_triplets (child : V * V * list V) : list (V * V * V) :=
  let '(anchor, positive, negatives) := child in
  map (fun negative => (anchor, positive, negative)) negatives.

(** The rows of one child in evaluation order: its positive row, then its
    negative rows. *)
Definition child_rows (child : V * V * list V) : matrix :=
  let '(anchor, positive, negatives) := child in
  stacked_row 1 (dist anchor positive) (dist0 anchor) (dist0 positive)
  :: map (fun negative =>
            stacked_row 0 (dist anchor negative) (dist0 anchor) (dist0 negative))
         negatives.

End Loader.

Arguments Pairs {V} examples.
Arguments Triplets {V} examples.

(** *** Concrete inputs *)

(** Embeddings on one line through the origin are given by their signed
    hyperbolic coordinate: the distance of two of them is the difference of
    the coordinates, the norm the absolute value. *)
Definition line_dist (x y : Q) : Q := Qabs (x - y).
Definition line_dist0 (x : Q) : Q := Qabs x.

(** One child at norm 3 with its parent at norm 2 and ten negatives, and its
    ten triplets cut into batches of four and six. *)
Definition example_children : list (Q * Q * list Q) :=
  [(3, 2, [11; 12; 13; 14; 15; 16; 17; 18; 19; 20])].

Definition example_triplet_batches : list (list (Q * Q * Q)) :=
  [ [(3, 2, 11); (3, 2, 12); (3, 2, 13); (3, 2, 14)];
    [(3, 2, 15); (3, 2, 16); (3, 2, 17); (3, 2, 18); (3, 2, 19); (3, 2, 20)] ].

(** Two batches of pairs: a child with its parent and with a negative, and
    a second child with its parent. *)
Definition example_pair_batches : list (batch Q) :=
  [ Pairs [(3, -1, 1); (3, 11, 0)]; Pairs [(6, -2, 1)] ].

(** A validation loader of a single pair. *)
Definition one_pair_batches : list (batch Q) := [ Pairs [(3, -1, 1)] ].

(** A loss module whose value is 1 on batches of two examples or more and
    not-a-number otherwise. *)
Definition example_loss_module (b : batch Q) : Loss.tfloat :=
  match b with
  | Pairs (_ :: _ :: _) | Triplets (_ :: _ :: _) => Loss.Fin 1
  | _ => Loss.NaN
  end.

(** What the pass over [example_pair_batches] returns in search mode. *)
Definition example_pair_scores : eval_results :=
  mk_results 1 (mk_metrics (400 # 100) 1 1 1 1).

Definition example_pair_output : loader_output :=
  mk_output (stack_T [(1, 4, 3, 1); (0, 8, 3, 11); (1, 8, 6, 2)])
            (Loss.Fin (1 # 2)) (Some example_pair_scores).

(** What the pass over [one_pair_batches] returns in search mode. *)
Definition one_pair_output : loader_output :=
  mk_output (stack_T [(1, 4, 3, 1)]) (Loss.Fin 0) None.

End HitEvalLoader.

(** ** holm/loss.py: the loss by example *)

Module LossTerms.
Import Loss.

(** One example of a batch: its label, the embedding of the anchor and the
    embedding of the other entity. *)
Definition example : Type := Z * vec * vec.

Definition label_of (e : example) : Z := fst (fst e).
Definition anchor_of (e : example) : vec := snd (fst e).
Definition other_of (e : example) : vec := snd e.

(** A finite value that is not negative. *)
Definition nonneg_finite (x : tfloat) : Prop := exists q, x = Fin q /\ 0 <= q.

(** Not a negative number and not minus infinity: a finite number that is
    not negative, plus infinity, or not-a-number. *)
Definition not_negative (x : tfloat) : Prop :=
  match x with
  | Fin q => 0 <= q
  | NInf => False
  | _ => True
  end.

Section Terms.

Context {M : TorchMath}.
Variable self : HyperbolicLoss.

(** The quotient that [half_cone_aperture] hands to [torch.arcsin]
    (lines 59-60). *)
Definition aperture_argument (cone_tip : vec) : tfloat :=
  let norm_tip := clamp_min (min_norm self) (vnorm cone_tip) in
  fdiv (fmul (Fin (min_norm self)) (fsub (Fin 1) (fsquare norm_tip))) norm_tip.

(** Distance to the origin, as [forward] computes it (lines 97-102). *)
Definition hyper_norm (v : vec) : tfloat :=
  distance_metric self v (map (fun _ => Fin 0) v).

(** The three terms of the loss for one example (lines 91-93, 104, 109). *)
Definition cluster_term (e : example) : tfloat :=
  let d := distance_metric self (anchor_of e) (other_of e) in
  fmul (Fin (1 # 2))
       (fadd (fmul (Fin (inject_Z (label_of e))) (fsquare d))
             (fmul (Fin (inject_Z (1 - label_of e)))
                   (fsquare (relu (fsub (Fin 5) d))))).

Definition centri_term (e : example) : tfloat :=
  fmul (Fin (inject_Z (label_of e)))
       (relu (fsub (fadd (Fin (1 # 2)) (hyper_norm (other_of e)))
                   (hyper_norm (anchor_of e)))).

Definition cone_term (e : example) : tfloat :=
  let en := energy self (other_of e) (anchor_of e) in
  fadd (fmul (Fin (inject_Z (label_of e))) (fsquare en))
       (fmul (Fin (inject_Z (1 - label_of e)))
             (fsquare (relu (fsub (Fin (1 # 10)) en)))).

(** The loss of a batch given by its examples: the means of the clustering
    and cone terms, and the sum of the centripetal terms over the sum of the
    labels, weighted. *)
Definition forward_by_example (examples : list example) : tfloat :=
  fadd (fadd (fmul (weight_cluster self) (fmean (map cluster_term examples)))
             (fmul (weight_centri self)
                   (fdiv (fsum (map centri_term examples))
                         (fsum (map (fun e => Fin (inject_Z (label_of e))) examples)))))
       (fmul (weight_cone self) (fmean (map cone_term examples))).

End Terms.

(** A batch of one positive and one negative example. *)
Definition example_batch : list example :=
  [(1%Z, point_a, point_b); (0%Z, point_b, point_c)].

(** A batch with a pair of identical embeddings. *)
Definition degenerate_batch : list example :=
  [(1%Z, point_a, point_b); (0%Z, point_c, point_c)].

End LossTerms.

(** ** hypertrans/eval/reconstruct.py: further inputs *)

Module ReconstructData.
Import Reconstruct.

(** The chain a -> b -> c with the transitive hypernyms: a has the hypernyms
    b and c, b has c. *)
Definition closed_chain_graph : HypernymGraph :=
  mk_graph ["a"; "b"; "c"]%string
    (fun e => if String.eqb e "a" then ["b"; "c"]%string
              else if String.eqb e "b" then ["c"%string] else []).

(** The same graph with the hypernyms of a and the entities listed in
    another order. *)
Definition reordered_chain_graph : HypernymGraph :=
  mk_graph ["c"; "a"; "b"]%string
    (fun e => if String.eqb e "a" then ["c"; "b"]%string
              else if String.eqb e "b" then ["c"%string] else []).

End ReconstructData.

(** ** hite/utils.py *)

Module Utils.

(** A sample of the dataset: node identifiers of the taxonomy. *)
Record sample : Type := mk_sample {
  child : string;
  parent : string;
  negative_parents : list string;
  siblings : list string
}.

(** [InputExample(texts=..., label=...)]; the label is 0 when none is
    given. *)
Record InputExample : Type := mk_example {
  texts : list string;
  label : Z
}.

Section Generator.

(** [taxonomy.get_node_attributes(node)["name"]] *)
Variable name : string -> string.

(** The negatives used for a sample (lines 22-26). *)
Definition negatives_of (hard_negative_first : bool) (s : sample) : list string :=
  let negative_parents := map name (negative_parents s) in
  let siblings := map name (siblings s) in
  if hard_negative_first then firstn 10 (siblings ++ negative_parents)
  else negative_parents.

(** What one pass of the loop adds to [examples] (lines 20-32). *)
Definition sample_examples (hard_negative_first in_triplets : bool) (s : sample)
    : list InputExample :=
  let child := name (child s) in
  let parent := name (parent s) in
  let negative_parents := negatives_of hard_negative_first s in
  if negb in_triplets
  then mk_example [child; parent] 1
       :: map (fun neg => mk_example [child; neg] 0) negative_parents
  else map (fun neg => mk_example [child; parent; neg] 0) negative_parents.

(** [example_generator] (lines 7-33) *)
Definition example_generator (dataset : list sample)
    (hard_negative_first in_triplets : bool) : list InputExample :=
  fold_left (fun examples s =>
               examples ++ sample_examples hard_negative_first in_triplets s)
            dataset [].

End Generator.

(** Two samples: the first with twelve siblings and a random negative, the
    second with four siblings and seven random negatives. *)
Definition example_dataset : list sample :=
  [ mk_sample "dog" "canine"
      ["rock"]
      ["s01"; "s02"; "s03"; "s04"; "s05"; "s06"; "s07"; "s08"; "s09"; "s10"; "s11"; "s12"];
    mk_sample "cat" "feline"
      ["n1"; "n2"; "n3"; "n4"; "n5"; "n6"; "n7"]
      ["t1"; "t2"; "t3"; "t4"] ]%string.

Definition example_name (node : string) : string := node.

End Utils.

(** ** trial_triplet.py *)

Module TrialTriplet.

(** The loss objects that [main] puts into [loss_dict]. *)
Inductive loss_term : Type :=
| ClusteringLoss
| CentripetalLoss
| EntailmentConeLoss.

(** A Python dictionary with float keys, as the list of its items in
    insertion order: assigning to a key that is present replaces its value
    in place. *)
Fixpoint dict_set (d : list (Q * loss_term)) (k : Q) (v : loss_term)
    : list (Q * loss_term) :=
  match d with
  | [] => [(k, v)]
  | (k', v') :: d' =>
      if Qeq_bool k' k then (k', v) :: d' else (k', v') :: dict_set d' k v
  end.

(** [loss_dict] of [main] (lines 73-89), from the three configured
    weights. *)
Definition build_loss_dict (cluster_weight centri_weight cone_weight : Q)
    : list (Q * loss_term) :=
  let loss_dict := [] in
  let loss_dict :=
    if Qlt_le_dec 0 cluster_weight
    then dict_set loss_dict cluster_weight ClusteringLoss else loss_dict in
  let loss_dict :=
    if Qlt_le_dec 0 centri_weight
    then dict_set loss_dict centri_weight CentripetalLoss else loss_dict in
  let loss_dict :=
    if Qlt_le_dec 0 cone_weight
    then dict_set loss_dict cone_weight EntailmentConeLoss else loss_dict in
  loss_dict.

End TrialTriplet.

(** ** Binary floating-point numbers *)

Module Binary.
Import Loss.

(** A binary format: [prec] bits of significand, [2 ^ emin] the smallest
    positive number, [2 ^ emax] the first power of two beyond the finite
    numbers. *)
Record format : Type := mk_format { prec : Z; emin : Z; emax : Z }.

(** torch.float32 (the dtype of the score tensors) and the Python float. *)
Definition binary32 : format := mk_format 24 (-149) 128.
Definition binary64 : format := mk_format 53 (-1074) 1024.

Definition well_formed (f : format) : Prop :=
  (0 < prec f)%Z /\ (emin f <= emax f - prec f)%Z.

Definition pow2 (e : Z) : Q := 2 ^ e.

(** The numbers of a format: a significand below [2 ^ prec] in absolute
    value times a power of two within the exponent range. *)
Definition representable (f : format) (z : Q) : Prop :=
  exists m e : Z,
    z == inject_Z m * pow2 e /\
    (Z.abs m < 2 ^ prec f)%Z /\ (emin f <= e <= emax f - prec f)%Z.

(** [y] is a number of the format that no other one is closer to [x]. *)
Definition nearest (f : format) (x y : Q) : Prop :=
  representable f y /\
  forall z, representable f z -> Qabs (x - y) <= Qabs (x - z).

(** [y] is a number of the format nearest to the square root of [0 <= x]:
    for every other number [z] of the format that is not negative, the
    root lies on the side of [y] of the midpoint of [y] and [z]. *)
Definition nearest_root (f : format) (x y : Q) : Prop :=
  representable f y /\ 0 <= y /\
  forall z, representable f z -> 0 <= z ->
    (z < y -> (y + z) * (y + z) <= 4 * x) /\
    (y < z -> 4 * x <= (y + z) * (y + z)).

(** For [0 < x]: the exponent [e] with [2 ^ e <= x < 2 ^ (e + 1)]. *)
Definition ilog2 (x : Q) : Z :=
  let e := (Z.log2 (Qnum x) - Z.log2 (Zpos (Qden x)))%Z in
  if Qle_bool (pow2 e) x then e else (e - 1)%Z.

(** The nearest integer, the even one of two nearest. *)
Definition round_half_even (q : Q) : Z :=
  let n := Qfloor q in
  match Qcompare (q - inject_Z n) (1 # 2) with
  | Lt => n
  | Gt => (n + 1)%Z
  | Eq => if Z.even n then n else (n + 1)%Z
  end.

(** The exponent of the last place of [x]: [prec] bits below its leading
    bit, but not below [emin]. *)
Definition ulp_exponent (f : format) (x : Q) : Z :=
  Z.max (ilog2 (Qabs x) - prec f + 1) (emin f).

(** Rounding to nearest, ties to even, before the overflow test. *)
Definition round_finite (f : format) (x : Q) : Q :=
  let q := ulp_exponent f x in
  inject_Z (round_half_even (x / pow2 q)) * pow2 q.

(** IEEE 754 rounding to nearest, ties to even: what every arithmetic
    operation applies to its exact result.  A result of magnitude
    [2 ^ emax] or more overflows to an infinity. *)
Definition round (f : format) (x : Q) : tfloat :=
  let y := Qred (round_finite f (Qred x)) in
  if Qle_bool (pow2 (emax f)) (Qabs y)
  then (if Qle_bool 0 x then PInf else NInf)
  else Fin y.

(** Rounding of a value that may already be special. *)
Definition round_value (f : format) (x : tfloat) : tfloat :=
  match x with
  | Fin q => round f q
  | _ => x
  end.

(** The integer nearest to the square root of [0 <= t], the even one of two
    nearest: [k = floor (sqrt t)] is the integer square root of the floor
    of [t], and the comparison of [t] with [(k + 1/2)^2] decides between
    [k] and [k + 1]. *)
Definition root_half_even (t : Q) : Z :=
  let k := Z.sqrt (Qfloor t) in
  let half := inject_Z k + (1 # 2) in
  match Qcompare t (half * half) with
  | Lt => k
  | Gt => (k + 1)%Z
  | Eq => if Z.even k then k else (k + 1)%Z
  end.

(** The correctly rounded square root of [0 <= x]: the leading bit of the
    root is at half the exponent of [x], and with [u] the last place of the
    root, the root is [sqrt (x / u^2)] in units of [u]. *)
Definition sqrt_finite (f : format) (x : Q) : Q :=
  let q := Z.max (ilog2 x / 2 - prec f + 1) (emin f) in
  inject_Z (root_half_even (x / pow2 (2 * q))) * pow2 q.

End Binary.

(** ** torch.float32 arithmetic *)

Module Float32.
Import Loss Binary.

(** A Python number that enters an operation with a float32 tensor. *)
Definition scalar (q : Q) : tfloat := round binary32 q.

(** The arithmetic of float32 tensors: the exact result of the operation
    (with the special values as in [Loss]), rounded to nearest. *)
Definition add (x y : tfloat) : tfloat := round_value binary32 (fadd x y).
Definition sub (x y : tfloat) : tfloat := round_value binary32 (fsub x y).
Definition mul (x y : tfloat) : tfloat := round_value binary32 (fmul x y).
Definition div (x y : tfloat) : tfloat := round_value binary32 (fdiv x y).

(** [torch.sqrt] *)
Definition sqrt (x : tfloat) : tfloat :=
  match x with
  | Fin q => if Qle_bool 0 q then Fin (Qred (sqrt_finite binary32 (Qred q))) else NaN
  | PInf => PInf
  | _ => NaN
  end.

(** The float32 numbers nearest to 0.3, 0.9 and 0.29. *)
Definition three_tenths : Q := 5033165 # 16777216.
Definition nine_tenths : Q := 7549747 # 8388608.
Definition twenty_nine_hundredths : Q := 9730785 # 33554432.

End Float32.

(** ** hit_eval.py: the composite scores and the threshold range in float32 *)

Module HitEvalFloat.
Import Loss Binary HitEval.

(** What can go wrong between the scores and the thresholds: an error of
    torch, [int()] of an infinity or of not-a-number, a division by zero. *)
Inductive failure : Type :=
| TorchError (e : error)
| OverflowError
| ValueError
| ZeroDivisionError.

Definition and_then {A B : Type} (x : failure + A) (k : A -> failure + B)
    : failure + B :=
  match x with
  | inl e => inl e
  | inr a => k a
  end.

Definition of_outcome {A : Type} (x : outcome A) : failure + A :=
  match x with
  | Returned a => inr a
  | Raised e => inl (TorchError e)
  end.

(** [result_mat[:, 1] + w * (result_mat[:, 3] - result_mat[:, 2])]
    (lines 53 and 69) on a float32 matrix of finite entries: the weight is a
    Python float, the three operations are float32 operations. *)
Definition composite_scores (result_mat : matrix) (w : Q) : list tfloat :=
  map (fun r => Float32.add (Fin (col1 r))
                  (Float32.mul (Float32.scalar w)
                     (Float32.sub (Fin (col3 r)) (Fin (col2 r)))))
      result_mat.

(** The smaller and the larger of two values; not-a-number wins both. *)
Definition fmin (x y : tfloat) : tfloat :=
  match x, y with
  | NaN, _ => NaN
  | _, NaN => NaN
  | NInf, _ => NInf
  | _, NInf => NInf
  | PInf, _ => y
  | _, PInf => x
  | Fin a, Fin b => Fin (Qmin a b)
  end.

Definition fmax (x y : tfloat) : tfloat :=
  match x, y with
  | NaN, _ => NaN
  | _, NaN => NaN
  | PInf, _ => PInf
  | _, PInf => PInf
  | NInf, _ => y
  | _, NInf => x
  | Fin a, Fin b => Fin (Qmax a b)
  end.

(** [scores.min()], [scores.max()] *)
Definition tensor_min (t : list tfloat) : outcome tfloat :=
  match t with
  | [] => Raised EmptyReduction
  | x :: xs => Returned (fold_left fmin xs x)
  end.

Definition tensor_max (t : list tfloat) : outcome tfloat :=
  match t with
  | [] => Raised EmptyReduction
  | x :: xs => Returned (fold_left fmax xs x)
  end.

(** Python [int(x)] of a float32 scalar. *)
Definition py_int (x : tfloat) : failure + Z :=
  match x with
  | Fin q => inr (HitEval.py_int q)
  | NaN => inl ValueError
  | _ => inl OverflowError
  end.

(** [int(scores.min() * granuality)] (lines 71 and 72): the product of a
    float32 scalar and a Python int is a float32 product. *)
Definition scaled_int (x : tfloat) (granuality : Z) : failure + Z :=
  py_int (Float32.mul x (Float32.scalar (inject_Z granuality))).

(** [threshold / granuality] of two Python ints (line 74): the quotient,
    rounded to a Python float. *)
Definition threshold_of (granuality k : Z) : failure + Q :=
  if Z.eqb granuality 0 then inl ZeroDivisionError
  else match round binary64 (inject_Z k / inject_Z granuality) with
       | Fin t => inr t
       | _ => inl OverflowError
       end.

Fixpoint thresholds_of (granuality : Z) (ks : list Z) : failure + list Q :=
  match ks with
  | [] => inr []
  | k :: ks' =>
      and_then (threshold_of granuality k) (fun t =>
      and_then (thresholds_of granuality ks') (fun ts =>
      inr (t :: ts)))
  end.

(** [start] and [end] of the scan (lines 71-72). *)
Definition threshold_range (scores : list tfloat) (granuality : Z) : failure + Z * Z :=
  and_then (of_outcome (tensor_min scores)) (fun lo =>
  and_then (scaled_int lo granuality) (fun start =>
  and_then (of_outcome (tensor_max scores)) (fun hi =>
  and_then (scaled_int hi granuality) (fun stop =>
  inr (start, stop))))).

(** The thresholds handed to [threshold_evaluate] for the weight [w]
    (lines 69-75), in scan order. *)
Definition scanned_thresholds (result_mat : matrix) (granuality : Z) (w : Q)
    : failure + list Q :=
  and_then (threshold_range (composite_scores result_mat w) granuality)
    (fun '(start, stop) => thresholds_of granuality (py_range start stop)).

(** The two rows of the end-to-end example of section 8 as a float32
    tensor: 0.9 and 0.3 are the float32 numbers nearest to them. *)
Definition example_mat : matrix :=
  stack_T [(1, 1 # 2, Float32.nine_tenths, Float32.three_tenths);
           (0, 3, Float32.nine_tenths, Float32.nine_tenths)].

(** A matrix whose smallest score is the float32 number nearest to 0.29. *)
Definition boundary_mat : matrix :=
  stack_T [(1, Float32.twenty_nine_hundredths, 0, 0); (0, 1, 0, 0)].

End HitEvalFloat.

(** ** holm/loss.py: the cone angle in float32 *)

Module LossFloat.
Import Loss Binary.

Section Cone.

Context {M : TorchMath}.

(** [t.sum(dim=-1)] over the coordinates of one embedding, added in index
    order; torch may add the coordinates of a long embedding in another
    order, for one or two coordinates there is no other result. *)
Definition sum32 (t : tensor) : tfloat := fold_left Float32.add t (Fin 0).

Definition square32 (x : tfloat) : tfloat := Float32.mul x x.

Definition vnorm (v : vec) : tfloat := fsqrt (sum32 (map square32 v)).

Definition vdot (a b : vec) : tfloat :=
  sum32 (map (fun '(x, y) => Float32.mul x y) (combine a b)).

Definition vsub (a b : vec) : vec :=
  map (fun '(x, y) => Float32.sub x y) (combine a b).

(** The quotient that [cone_angle_at_u] hands to [torch.arccos]
    (lines 67-73), every operation a float32 operation. *)
Definition cone_angle_argument (cone_tip u : vec) : tfloat :=
  let norm_tip := vnorm cone_tip in
  let norm_child := vnorm u in
  let dot_prod := vdot cone_tip u in
  let edist := vnorm (vsub cone_tip u) in
  let numerator :=
    Float32.sub
      (Float32.mul dot_prod (Float32.add (Fin 1) (square32 norm_tip)))
      (Float32.mul (square32 norm_tip) (Float32.add (Fin 1) (square32 norm_child))) in
  let denomenator :=
    Float32.mul (Float32.mul norm_tip edist)
      (fsqrt (Float32.sub
                (Float32.add (Fin 1) (Float32.mul (square32 norm_child) (square32 norm_tip)))
                (Float32.mul (Fin 2) dot_prod))) in
  Float32.div numerator denomenator.

(** [cone_angle_at_u] (lines 62-73) *)
Definition cone_angle_at_u (cone_tip u : vec) : tfloat :=
  farccos (cone_angle_argument cone_tip u).

(** [x.clamp(-1, 1)] *)
Definition clamp_unit (x : tfloat) : tfloat :=
  match x with
  | Fin q => Fin (Qmin (Qmax q (-1)) 1)
  | PInf => Fin 1
  | NInf => Fin (-1)
  | NaN => NaN
  end.

(** The angle as the specification has it: the quotient is clamped into
    [-1, 1] before the inverse cosine.  Not in the program; the results
    compare [cone_angle_at_u] with it. *)
Definition cone_angle_clamped (cone_tip u : vec) : tfloat :=
  farccos (clamp_unit (cone_angle_argument cone_tip u)).

End Cone.

(** The elementary functions for float32 runs: the square root is the
    correctly rounded one; arcsin and arccos are the coarse ones of [Loss],
    exact at -1, 0 and 1 and not-a-number outside [-1, 1]. *)
Definition float32_math : TorchMath :=
  {| fsqrt := Float32.sqrt; farcsin := coarse_arcsin; farccos := coarse_arccos |}.

(** Two points of the unit ball on one ray from the origin: the float32
    numbers nearest to (0.3, 0) and (0.9, 0). *)
Definition near_point : vec := [Fin Float32.three_tenths; Fin 0].
Definition far_point : vec := [Fin Float32.nine_tenths; Fin 0].

End LossFloat.

(** ** hit_eval.py: the training flags across the passes of [__call__] *)

Module HitEvalModes.
Import HitEval HitEvalLoader.

(** The training flag of a torch module: [module.eval()] and
    [module.train()] set it, also on the modules it contains. *)
Inductive mode : Type :=
| Evaluating
| Training.

(** The two flags that matter to a pass: that of the model passed to
    [__call__], which encodes the texts for the result matrix (line 108),
    and that of the encoder inside the loss module, which encodes them again
    for the loss (line 152). *)
Record flags : Type := mk_flags { model_flag : mode; loss_flag : mode }.

Section Modes.

(** [S] are the sentence features of one text, [V] the embeddings. *)
Variable S : Type.
Variable V : Type.
Variable dist : V -> V -> Q.
Variable dist0 : V -> Q.

(** The encoder is a SentenceTransformer, of the sentence_transformers
    library.  What it returns for a text may depend on its training flag
    (dropout is active in training mode); [model Training] stands for one
    draw of it. *)
Variable model : mode -> S -> V.

(** Modelled from the spec: the loss module of hit_eval.py is not among the
    sources; it is called on the sentence features and encodes them itself,
    under the flag of its own encoder. *)
Variable loss_module : mode -> batch S -> Loss.tfloat.
Variable apply_triplet_loss : bool.

(** Modelled from the spec: [threshold_evaluate], as in [HitEval]. *)
Variable threshold_evaluate : tensor -> tensor -> Q -> metrics.

(** Is the encoder inside the loss module the very model passed to
    [__call__]?  Then the two flags are one. *)
Variable shared_encoder : bool.

(** [self.loss_module.eval()] and [self.loss_module.train()]. *)
Definition loss_module_set (m : mode) (fl : flags) : flags :=
  mk_flags (if shared_encoder then m else model_flag fl) m.

(** [model.eval()] *)
Definition model_eval (fl : flags) : flags :=
  mk_flags Evaluating (if shared_encoder then Evaluating else loss_flag fl).

(** Line 108: every text of the batch with its embedding. *)
Definition encode (m : mode) (s : S) : S * V := (s, model m s).

Definition encode_batch (m : mode) (b : batch S) : batch (S * V) :=
  match b with
  | Pairs examples =>
      Pairs (map (fun '(anchor, other, label) =>
                    (encode m anchor, encode m other, label)) examples)
  | Triplets examples =>
      Triplets (map (fun '(anchor, positive, negative) =>
                       (encode m anchor, encode m positive, encode m negative)) examples)
  end.

(** The sentence features of an encoded batch, which line 152 hands to the
    loss module. *)
Definition features (b : batch (S * V)) : batch S :=
  match b with
  | Pairs examples =>
      Pairs (map (fun '(anchor, other, label) => (fst anchor, fst other, label)) examples)
  | Triplets examples =>
      Triplets (map (fun '(anchor, positive, negative) =>
                       (fst anchor, fst positive, fst negative)) examples)
  end.

(** The pass of [HitEvalLoader] under given flags. *)
Definition pass (fl : flags) (dataloader : list (batch S))
    (best_val_centri_score_weight best_val_threshold : option Q)
    : outcome loader_output :=
  HitEvalLoader.evaluate_dataloader (S * V)
    (fun x y => dist (snd x) (snd y)) (fun x => dist0 (snd x))
    (fun b => loss_module (loss_flag fl) (features b))
    apply_triplet_loss threshold_evaluate
    (map (encode_batch (model_flag fl)) dataloader)
    best_val_centri_score_weight best_val_threshold.

(** [evaluate_dataloader] (lines 84-179) with the flags: the texts are
    encoded under the flags found, and lines 172-173 leave the loss module
    in training mode. *)
Definition evaluate_dataloader (fl : flags) (dataloader : list (batch S))
    (best_val_centri_score_weight best_val_threshold : option Q)
    : outcome loader_output * flags :=
  (pass fl dataloader best_val_centri_score_weight best_val_threshold,
   loss_module_set Training fl).

(** [__call__] (lines 181-214) with the flags: lines 187-188 set both to
    evaluation mode, once, before the first pass. *)
Definition call (fl : flags) (train_dataloader : option (list (batch S)))
    (val_dataloader : list (batch S)) (test_dataloader : option (list (batch S)))
    : list (string * loader_output) * (call_error + Q) :=
  let fl := loss_module_set Evaluating (model_eval fl) in
  let '(train_pass, fl) :=
    match loader_given S train_dataloader with
    | Some batches =>
        let '(r, fl') := evaluate_dataloader fl batches None None in
        (match r with
         | Returned o => inr [("train"%string, o)]
         | Raised e => inl e
         end, fl')
    | None => (inr [], fl)
    end in
  match train_pass with
  | inl e => ([], inl (PassError e))
  | inr saved =>
      let '(r, fl) := evaluate_dataloader fl val_dataloader None None in
      match r with
      | Raised e => (saved, inl (PassError e))
      | Returned val_out =>
          let saved := saved ++ [("val"%string, val_out)] in
          let test_pass :=
            match loader_given S test_dataloader with
            | Some batches =>
                match out_scores val_out with
                | None => inl TypeError
                | Some val_scores =>
                    match fst (evaluate_dataloader fl batches
                                 (Some (centri_score_weight val_scores))
                                 (Some (threshold (scores_at val_scores)))) with
                    | Returned o => inr [("test"%string, o)]
                    | Raised e => inl (PassError e)
                    end
                end
            | None => inr []
            end in
          match test_pass with
          | inl e => (saved, inl e)
          | inr saved_test =>
              match out_scores val_out with
              | None => (saved ++ saved_test, inl TypeError)
              | Some val_scores => (saved ++ saved_test, inr (F1 (scores_at val_scores)))
              end
          end
      end
  end.

(** The flags of the passes of [__call__]: the first pass runs in
    evaluation mode; every later pass finds the loss module, and with it a
    shared encoder, in training mode. *)
Definition first_flags : flags := mk_flags Evaluating Evaluating.

Definition later_flags : flags :=
  mk_flags (if shared_encoder then Training else Evaluating) Training.

End Modes.

(** An encoder that ignores its flag (no dropout): the embedding of a
    coordinate on the line is the coordinate. *)
Definition line_model (m : mode) (x : Q) : Q := x.

Definition example_flag_loss (m : mode) (b : batch Q) : Loss.tfloat :=
  example_loss_module b.

End HitEvalModes.

(** * Results *)

(** ** The threshold search evaluator *)

Module HitEvalFacts.
Import HitEval.

(** *** Ranges and truncation *)

Lemma py_range_In (a b k : Z) : In k (py_range a b) <-> (a <= k < b)%Z.
Proof.
  unfold py_range. rewrite in_map_iff. split.
  - intros [i [<- Hi]]. apply in_seq in Hi. lia.
  - intros H. exists (Z.to_nat (k - a)). split; [lia|]. apply in_seq. lia.
Qed.

(** An integer below a number is below its truncation toward zero, and an
    integer above it is above its truncation. *)
Lemma py_int_ge (q : Q) (k : Z) : inject_Z k <= q -> (k <= py_int q)%Z.
Proof.
  destruct q as [n d]. unfold py_int, Qle, inject_Z. simpl. intros H.
  rewrite Z.mul_1_r in H.
  destruct (Z_lt_le_dec n 0) as [Hn|Hn].
  - assert (Hq : (Z.quot n (Z.pos d) = - (Z.quot (- n) (Z.pos d)))%Z)
      by (rewrite Z.quot_opp_l by lia; lia).
    rewrite Hq, Z.quot_div_nonneg by lia.
    assert ((- n) / Z.pos d <= - k)%Z; [|lia].
    destruct (Z_le_gt_dec ((- n) / Z.pos d) (- k)) as [|Hgt]; [assumption|exfalso].
    assert (Hm := Z.mul_div_le (- n) (Z.pos d) ltac:(lia)). nia.
  - rewrite Z.quot_div_nonneg by lia. apply Z.div_le_lower_bound; lia.
Qed.

Lemma py_int_le (q : Q) (k : Z) : q <= inject_Z k -> (py_int q <= k)%Z.
Proof.
  destruct q as [n d]. unfold py_int, Qle, inject_Z. simpl. intros H.
  rewrite Z.mul_1_r in H.
  destruct (Z_lt_le_dec n 0) as [Hn|Hn].
  - assert (Hq : (Z.quot n (Z.pos d) = - (Z.quot (- n) (Z.pos d)))%Z)
      by (rewrite Z.quot_opp_l by lia; lia).
    rewrite Hq, Z.quot_div_nonneg by lia.
    assert (- k <= (- n) / Z.pos d)%Z; [|lia].
    apply Z.div_le_lower_bound; lia.
  - rewrite Z.quot_div_nonneg by lia.
    destruct (Z_le_gt_dec (n / Z.pos d) k) as [|Hgt]; [assumption|exfalso].
    assert (Hm := Z.mul_div_le n (Z.pos d) ltac:(lia)). nia.
Qed.

Lemma threshold_of_lt (g k k' : Z) :
  (0 < g)%Z -> (k < k')%Z -> threshold_of g k < threshold_of g k'.
Proof.
  intros Hg Hk. unfold threshold_of.
  apply Qmult_lt_compat_r.
  - apply Qinv_lt_0_compat. change 0 with (inject_Z 0). now rewrite <- Zlt_Qlt.
  - now rewrite <- Zlt_Qlt.
Qed.


Lemma py_int_mono (q q' : Q) : q <= q' -> (py_int q <= py_int q')%Z.
Proof.
  destruct q as [n d], q' as [n' d']. unfold py_int, Qle. simpl. intros H.
  rewrite <- (Z.quot_mul_cancel_r n (Z.pos d) (Z.pos d')) by lia.
  rewrite <- (Z.quot_mul_cancel_r n' (Z.pos d') (Z.pos d)) by lia.
  rewrite (Z.mul_comm (Z.pos d') (Z.pos d)).
  apply Z.quot_le_mono; lia.
Qed.

Lemma fold_min_le_max (xs : tensor) : forall a b,
  a <= b -> fold_left Qmin xs a <= fold_left Qmax xs b.
Proof.
  induction xs as [|x xs IH]; intros a b Hab; simpl; [assumption|].
  apply IH. apply Qle_trans with x; [apply Q.le_min_r | apply Q.le_max_r].
Qed.

Lemma tensor_min_le_max (t : tensor) (lo hi : Q) :
  tensor_min t = Returned lo -> tensor_max t = Returned hi -> lo <= hi.
Proof.
  destruct t as [|x xs]; simpl; [discriminate|].
  intros [= <-] [= <-]. apply fold_min_le_max, Qle_refl.
Qed.

(** With a granularity that is not positive the range of thresholds is
    empty. *)
Lemma scanned_thresholds_nonpositive mat g w :
  (g <= 0)%Z -> scanned_thresholds mat g w = [].
Proof.
  intros Hg. unfold scanned_thresholds.
  destruct (tensor_min _) as [lo|] eqn:Hlo; [|reflexivity].
  destruct (tensor_max _) as [hi|] eqn:Hhi; [|reflexivity].
  pose proof (tensor_min_le_max _ _ _ Hlo Hhi) as Hle.
  assert (Hm : hi * inject_Z g <= lo * inject_Z g).
  { rewrite (Qmult_comm hi), (Qmult_comm lo).
    assert (Hg' : inject_Z g <= 0) by (change 0 with (inject_Z 0); now rewrite <- Zle_Qle).
    assert (H0 : 0 <= (lo - hi) * inject_Z g).
    { setoid_replace ((lo - hi) * inject_Z g) with ((hi - lo) * - inject_Z g) by ring.
      apply Qmult_le_0_compat.
      - apply Qle_minus_iff in Hle. exact Hle.
      - setoid_replace 0 with (- 0) by reflexivity. now apply Qopp_le_compat. }
    apply Qle_minus_iff.
    setoid_replace (inject_Z g * lo + - (inject_Z g * hi)) with ((lo - hi) * inject_Z g) by ring.
    exact H0. }
  apply py_int_mono in Hm. unfold py_range.
  replace (Z.to_nat _) with 0%nat by lia. reflexivity.
Qed.
(** *** Visit order *)

Lemma StronglySorted_app {A : Type} (R : A -> A -> Prop) (l1 l2 : list A) :
  StronglySorted R l1 -> StronglySorted R l2 ->
  (forall a b, In a l1 -> In b l2 -> R a b) ->
  StronglySorted R (l1 ++ l2).
Proof.
  intros H1 H2 H. induction H1 as [|a l1 Hs IH Hall]; simpl; [assumption|].
  constructor.
  - apply IH. intros x y Hx Hy. apply H; [now right | assumption].
  - apply Forall_app. split; [assumption|].
    apply Forall_forall. intros b Hb. apply H; [now left | assumption].
Qed.

Lemma StronglySorted_map_seq {A : Type} (R : A -> A -> Prop) (f : nat -> A) :
  (forall i j, (i < j)%nat -> R (f i) (f j)) ->
  forall n s, StronglySorted R (map f (seq s n)).
Proof.
  intros Hf. induction n as [|n IH]; intros s; simpl; constructor.
  - apply IH.
  - apply Forall_forall. intros x Hx. apply in_map_iff in Hx.
    destruct Hx as [j [<- Hj]]. apply in_seq in Hj. apply Hf. lia.
Qed.

Lemma weight_of_lt (i j : nat) : (i < j)%nat -> weight_of i < weight_of j.
Proof. intros H. unfold weight_of. rewrite <- Zlt_Qlt. lia. Qed.

Lemma candidates_of_fst mat g k c : In c (candidates_of mat g k) -> fst c = weight_of k.
Proof.
  unfold candidates_of. intros H. apply in_map_iff in H. now destruct H as [t [<- _]].
Qed.

Lemma candidates_of_sorted mat g k :
  StronglySorted candidate_lt (candidates_of mat g k).
Proof.
  destruct (Z_lt_le_dec 0 g) as [Hg | Hg].
  - unfold candidates_of, scanned_thresholds.
    destruct (tensor_min _) as [lo|]; [|constructor].
    destruct (tensor_max _) as [hi|]; [|constructor].
    unfold py_range. rewrite !map_map. apply StronglySorted_map_seq.
    intros i j Hij. right. simpl. split; [reflexivity|].
    apply threshold_of_lt; lia.
  - unfold candidates_of. rewrite scanned_thresholds_nonpositive by assumption.
    constructor.
Qed.

Lemma candidates_sorted mat g n :
  StronglySorted candidate_lt (candidates mat g n).
Proof.
  induction n as [|n IH]; [constructor|].
  unfold candidates in *. rewrite seq_S, flat_map_app. simpl. rewrite app_nil_r.
  apply StronglySorted_app; [assumption | apply candidates_of_sorted |].
  intros c d Hc Hd. left. apply in_flat_map in Hc. destruct Hc as [k [Hk Hc]].
  apply in_seq in Hk.
  rewrite (candidates_of_fst _ _ _ _ Hc), (candidates_of_fst _ _ _ _ Hd).
  apply weight_of_lt. lia.
Qed.

(** *** The search loops *)

Section Search.

Variable threshold_evaluate : tensor -> tensor -> Q -> metrics.
Variable result_mat : matrix.
Variable granuality : Z.

Local Abbreviation F1_at := (F1_at threshold_evaluate result_mat).
Local Abbreviation results_at := (results_at threshold_evaluate result_mat).
Local Abbreviation first_best := (first_best threshold_evaluate result_mat).
Local Abbreviation improves := (improves threshold_evaluate result_mat granuality).
Local Abbreviation candidates := (candidates result_mat granuality).
Local Abbreviation candidates_of := (candidates_of result_mat granuality).
Local Abbreviation search_invariant := (search_invariant threshold_evaluate result_mat).

Lemma search_invariant_bounds visited st :
  search_invariant visited st ->
  -1 <= best_f1 st /\ forall c, In c visited -> F1_at c <= best_f1 st.
Proof.
  intros [[_ [-> H]] | [c [[before [after [-> [Hc [Hb Ha]]]]] [_ ->]]]].
  - split; [apply Qle_refl | exact H].
  - split; [now apply Qlt_le_weak|].
    intros c' Hin. apply in_app_or in Hin. destruct Hin as [Hin | [<- | Hin]].
    + now apply Qlt_le_weak, Hb.
    + apply Qle_refl.
    + now apply Ha.
Qed.

Lemma threshold_step_invariant visited st w k :
  search_invariant visited st ->
  search_invariant (visited ++ [(w, threshold_of granuality k)])
    (threshold_step threshold_evaluate (composite_scores result_mat w)
       (labels_of result_mat) granuality w st k).
Proof.
  intros Hinv. destruct (search_invariant_bounds _ _ Hinv) as [Hlow Hall].
  unfold threshold_step.
  change (threshold_evaluate (composite_scores result_mat w) (labels_of result_mat)
            (threshold_of granuality k))
    with (metrics_at threshold_evaluate result_mat (w, threshold_of granuality k)).
  set (c := (w, threshold_of granuality k)).
  change (F1 (metrics_at threshold_evaluate result_mat c)) with (F1_at c).
  destruct (Qlt_le_dec (best_f1 st) (F1_at c)) as [Hlt | Hle].
  - right. exists c. split; [|split; reflexivity].
    exists visited, []. repeat split.
    + now apply Qle_lt_trans with (best_f1 st).
    + intros c' Hin. apply Qle_lt_trans with (best_f1 st); auto.
    + intros c' [].
  - destruct Hinv as [[Hnone [Hb H]] | [c0 [[before [after [Hv [Hc [Hbef Haft]]]]] [Hres Hb]]]].
    + left. repeat split; auto. intros c' Hin.
      apply in_app_or in Hin. destruct Hin as [Hin | [<- | []]]; auto.
      now rewrite <- Hb.
    + right. exists c0. split; [|split; assumption].
      exists before, (after ++ [c]). repeat split; auto.
      * rewrite Hv, <- app_assoc. reflexivity.
      * intros c' Hin. apply in_app_or in Hin. destruct Hin as [Hin | [<- | []]]; auto.
        now rewrite <- Hb.
Qed.

Lemma threshold_scan_invariant w ks : forall visited st,
  search_invariant visited st ->
  search_invariant (visited ++ map (fun k => (w, threshold_of granuality k)) ks)
    (fold_left (threshold_step threshold_evaluate (composite_scores result_mat w)
                  (labels_of result_mat) granuality w) ks st).
Proof.
  induction ks as [|k ks IH]; intros visited st Hinv; simpl.
  - now rewrite app_nil_r.
  - replace (visited ++ (w, threshold_of granuality k) ::
               map (fun k0 => (w, threshold_of granuality k0)) ks)
      with ((visited ++ [(w, threshold_of granuality k)]) ++
               map (fun k0 => (w, threshold_of granuality k0)) ks)
      by (now rewrite <- app_assoc).
    apply IH. now apply threshold_step_invariant.
Qed.

Lemma threshold_scan_updated w ks : forall st,
  is_updated (fold_left (threshold_step threshold_evaluate (composite_scores result_mat w)
                           (labels_of result_mat) granuality w) ks st) = true <->
  (is_updated st = true \/
   exists k, In k ks /\ best_f1 st < F1_at (w, threshold_of granuality k)).
Proof.
  induction ks as [|k ks IH]; intros st; simpl.
  - split; [now left | intros [H | [k [[] _]]]; exact H].
  - rewrite IH. unfold threshold_step.
    change (F1 (threshold_evaluate (composite_scores result_mat w) (labels_of result_mat)
                  (threshold_of granuality k)))
      with (F1_at (w, threshold_of granuality k)).
    destruct (Qlt_le_dec (best_f1 st) (F1_at (w, threshold_of granuality k)))
      as [Hlt | Hle]; simpl.
    + split; intros _; [right; exists k; auto | now left].
    + split.
      * intros [H | [k' [Hin Hk']]]; [now left | right; exists k'; auto].
      * intros [H | [k' [[<- | Hin] Hk']]]; [now left | | right; exists k'; auto].
        exfalso. apply (Qlt_irrefl (best_f1 st)).
        now apply Qlt_le_trans with (F1_at (w, threshold_of granuality k)).
Qed.

Lemma candidates_S k : candidates (S k) = candidates k ++ candidates_of k.
Proof.
  unfold HitEval.candidates. rewrite seq_S, flat_map_app. simpl.
  now rewrite app_nil_r.
Qed.

Lemma In_candidates c n :
  In c (candidates n) <-> exists k, (k < n)%nat /\ In c (candidates_of k).
Proof.
  unfold HitEval.candidates. rewrite in_flat_map. split.
  - intros [k [Hk Hc]]. apply in_seq in Hk. exists k. split; [lia | assumption].
  - intros [k [Hk Hc]]. exists k. split; [apply in_seq; lia | assumption].
Qed.

Hypothesis nonempty : result_mat <> [].

Lemma scores_min_max w :
  exists lo hi, tensor_min (composite_scores result_mat w) = Returned lo /\
                tensor_max (composite_scores result_mat w) = Returned hi.
Proof.
  destruct result_mat as [|r rs]; [congruence|]. simpl. eauto.
Qed.

Lemma scan_weight_spec st k :
  search_invariant (candidates k) st ->
  exists st',
    scan_weight threshold_evaluate result_mat granuality st (Z.of_nat k) = Returned st' /\
    search_invariant (candidates (S k)) st' /\
    (is_updated st' = true <-> improves k).
Proof.
  intros Hinv. unfold scan_weight.
  change (inject_Z (Z.of_nat k + 1)) with (weight_of k).
  destruct (scores_min_max (weight_of k)) as [lo [hi [Hlo Hhi]]].
  rewrite Hlo, Hhi. simpl.
  eexists. split; [reflexivity|].
  assert (Hcands : candidates_of k =
            map (fun z => (weight_of k, threshold_of granuality z))
              (py_range (py_int (lo * inject_Z granuality))
                        (py_int (hi * inject_Z granuality)))).
  { unfold HitEval.candidates_of, scanned_thresholds. rewrite Hlo, Hhi.
    now rewrite map_map. }
  split.
  - rewrite candidates_S, Hcands. apply threshold_scan_invariant.
    destruct Hinv as [H | H]; [left | right]; exact H.
  - rewrite threshold_scan_updated. simpl.
    destruct (search_invariant_bounds _ _ Hinv) as [Hlow Hall].
    split.
    + intros [H | [z [Hz Hlt]]]; [discriminate|].
      exists (weight_of k, threshold_of granuality z). split; [|split].
      * rewrite Hcands. apply in_map_iff. eauto.
      * now apply Qle_lt_trans with (best_f1 st).
      * intros c' Hin. apply Qle_lt_trans with (best_f1 st); auto.
    + intros [c [Hin [Hc Hbeats]]]. right.
      rewrite Hcands in Hin. apply in_map_iff in Hin. destruct Hin as [z [<- Hz]].
      exists z. split; [assumption|].
      destruct Hinv as [[_ [-> _]] | [c0 [[before [after [Hv _]]] [_ ->]]]];
        [assumption|].
      apply Hbeats. rewrite Hv. apply in_or_app. right. now left.
Qed.

Lemma weight_loop_spec len : forall i st,
  search_invariant (candidates i) st ->
  is_updated st = true ->
  (forall k, (k < i)%nat -> improves k) ->
  exists n st',
    (i <= n <= i + len)%nat /\ (0 < len -> i < n)%nat /\
    weight_loop threshold_evaluate result_mat granuality
      (map Z.of_nat (seq i len)) st = Returned st' /\
    search_invariant (candidates n) st' /\
    (forall k, (S k < n)%nat -> improves k) /\
    ((n < i + len)%nat -> ~ improves (n - 1)).
Proof.
  induction len as [|len IH]; intros i st Hinv Hupd Hprev.
  - exists i, st. simpl. repeat split; try lia; auto.
    intros k Hk. apply Hprev. lia.
  - simpl. rewrite Hupd. simpl.
    destruct (scan_weight_spec st i Hinv) as [st1 [Hscan [Hinv1 Hupd1]]].
    rewrite Hscan. simpl.
    destruct (is_updated st1) eqn:Hu.
    + destruct (IH (S i) st1 Hinv1 Hu) as [n [st' [Hn [Hpos [Hloop [Hinv' [Himp Hstop]]]]]]].
      { intros k Hk. destruct (Nat.eq_dec k i) as [-> | Hne].
        - now apply Hupd1.
        - apply Hprev. lia. }
      exists n, st'. repeat split; try lia; auto.
      intros Hlt. apply Hstop. lia.
    + exists (S i), st1. repeat split; try lia; auto.
      * destruct len; simpl; [reflexivity | now rewrite Hu].
      * intros k Hk. apply Hprev. lia.
      * intros _ Himp. replace (S i - 1)%nat with i in Himp by lia.
        apply Hupd1 in Himp. discriminate.
Qed.

(** The search of [evaluate]: the weights for the loop variables
    [0 .. n-1] are scanned, every one of them but the last improved on the
    best F1, the last did not unless all ten were scanned, and the state
    holds the first best candidate among those visited. *)
Lemma search_spec :
  exists n st,
    (1 <= n <= 10)%nat /\
    weight_loop threshold_evaluate result_mat granuality (py_range 0 10) initial_state
      = Returned st /\
    search_invariant (candidates n) st /\
    (forall k, (S k < n)%nat -> improves k) /\
    ((n < 10)%nat -> ~ improves (n - 1)).
Proof.
  destruct (weight_loop_spec 10 0 initial_state) as [n [st [Hn [Hpos [Hloop H]]]]].
  - left. repeat split. intros c [].
  - reflexivity.
  - intros k Hk. lia.
  - exists n, st. split; [lia|]. split; [exact Hloop | exact H].
Qed.

End Search.

(** *** Apply mode and search mode of [evaluate] *)

Lemma truthy_nonzero (q : Q) : ~ q == 0 -> truthy (Some q) = Some q.
Proof.
  intros H. simpl. destruct (Qeq_bool q 0) eqn:E; [|reflexivity].
  apply Qeq_bool_eq in E. contradiction.
Qed.

Lemma truthy_zero (q : Q) : q == 0 -> truthy (Some q) = None.
Proof. intros H. simpl. now rewrite (Qeq_eq_bool _ _ H). Qed.

(** With a weight and a threshold that are both nonzero, [evaluate] does not
    search: it returns the metrics at the given pair. *)
Lemma evaluate_apply te mat g (w t : Q) :
  ~ w == 0 -> ~ t == 0 ->
  evaluate te mat g (Some w) (Some t)
  = Returned (Some (mk_results w (te (composite_scores mat w) (labels_of mat) t))).
Proof.
  intros Hw Ht. unfold evaluate. now rewrite (truthy_nonzero _ Hw), (truthy_nonzero _ Ht).
Qed.

(** A threshold or a weight equal to 0.0 is false for the test of line 49,
    and the call goes on to the search. *)
Lemma evaluate_zero_threshold te mat g (w : option Q) (t : Q) :
  t == 0 -> evaluate te mat g w (Some t) = evaluate te mat g None None.
Proof. intros Ht. unfold evaluate. now rewrite (truthy_zero _ Ht). Qed.

Lemma evaluate_zero_weight te mat g (w : Q) (t : option Q) :
  w == 0 -> evaluate te mat g (Some w) t = evaluate te mat g None None.
Proof.
  intros Hw. unfold evaluate. rewrite (truthy_zero _ Hw). now destruct (truthy t).
Qed.

Lemma evaluate_search te mat g :
  mat <> [] ->
  exists n,
    (1 <= n <= 10)%nat /\
    (forall k, (S k < n)%nat -> improves te mat g k) /\
    ((n < 10)%nat -> ~ improves te mat g (n - 1)) /\
    ((evaluate te mat g None None = Returned None /\
      forall c, In c (candidates mat g n) -> F1_at te mat c <= -1)
     \/ exists c, first_best te mat (candidates mat g n) c /\
                  evaluate te mat g None None = Returned (Some (results_at te mat c))).
Proof.
  intros Hne. destruct (search_spec te mat g Hne) as [n [st [Hn [Hloop [Hinv [Himp Hstop]]]]]].
  exists n. repeat split; try lia; auto.
  unfold evaluate. simpl truthy. cbv iota. rewrite Hloop. simpl.
  destruct Hinv as [[Hnone [_ Hall]] | [c [Hfb [Hres _]]]].
  - left. now rewrite Hnone.
  - right. exists c. now rewrite Hres.
Qed.

(** The scan of one weight runs over [scanned_thresholds], in their order. *)
Lemma scan_weight_thresholds te mat g st k :
  mat <> [] ->
  scan_weight te mat g st (Z.of_nat k)
  = Returned
      (fold_left
         (fun s t =>
            let results := te (composite_scores mat (weight_of k)) (labels_of mat) t in
            if Qlt_le_dec (best_f1 s) (F1 results)
            then mk_state (F1 results) (Some (mk_results (weight_of k) results)) true
            else s)
         (scanned_thresholds mat g (weight_of k))
         (mk_state (best_f1 st) (best_results st) false)).
Proof.
  intros Hne. unfold scan_weight, scanned_thresholds.
  change (inject_Z (Z.of_nat k + 1)) with (weight_of k).
  destruct (scores_min_max mat Hne (weight_of k)) as [lo [hi [-> ->]]]. simpl.
  f_equal. generalize (mk_state (best_f1 st) (best_results st) false).
  induction (py_range _ _) as [|z zs IH]; intros s; simpl; [reflexivity|].
  apply IH.
Qed.

(** *** Triplet reshaping *)

Lemma firstn_add {A : Type} (a b : nat) (l : list A) :
  firstn (a + b) l = firstn a l ++ firstn b (skipn a l).
Proof.
  revert l. induction a as [|a IH]; intros l; simpl; [reflexivity|].
  destruct l as [|x l]; simpl.
  - now rewrite firstn_nil.
  - now rewrite IH.
Qed.

(** Consecutive slices of width [c] put together are a prefix. *)
Lemma chunks_concat {A : Type} (c : nat) (l : list A) (n : nat) :
  flat_map (fun i => firstn c (skipn (c * i) l)) (seq 0 n) = firstn (c * n) l.
Proof.
  induction n as [|n IH].
  - now rewrite Nat.mul_0_r.
  - rewrite seq_S, flat_map_app, IH. simpl. rewrite app_nil_r.
    replace (c * S n)%nat with (c * n + c)%nat by lia.
    now rewrite firstn_add.
Qed.

Lemma interleave_length {A : Type} (f g : nat -> list A) (s : list nat) :
  List.length (concat (flat_map (fun i => [f i; g i]) s))
  = (List.length (flat_map f s) + List.length (flat_map g s))%nat.
Proof.
  induction s as [|i s IH]; simpl; [reflexivity|].
  rewrite !length_app, IH. lia.
Qed.

Lemma real_mat_length (mat : matrix) :
  List.length (concat (real_mat mat))
  = (List.length (positive_mat mat)
     + Nat.min (10 * List.length (positive_mat mat)) (List.length (negative_mat mat)))%nat.
Proof.
  unfold real_mat.
  rewrite (interleave_length
             (fun i => firstn 1 (skipn i (positive_mat mat)))
             (fun i => py_slice (10 * i) (10 * (i + 1)) (negative_mat mat))).
  f_equal.
  - rewrite (flat_map_ext _ (fun i => firstn 1 (skipn (1 * i) (positive_mat mat)))).
    + rewrite chunks_concat, Nat.mul_1_l. now rewrite firstn_all.
    + intros i. now rewrite Nat.mul_1_l.
  - rewrite (flat_map_ext _ (fun i => firstn 10 (skipn (10 * i) (negative_mat mat)))).
    + rewrite chunks_concat. apply length_firstn.
    + intros i. unfold py_slice. f_equal. lia.
Qed.

Lemma real_mat_nil (mat : matrix) : real_mat mat = [] <-> positive_mat mat = [].
Proof.
  unfold real_mat. destruct (positive_mat mat) as [|r rs].
  - split; reflexivity.
  - split; intros H; [|discriminate]. cbn [List.length seq flat_map app] in H. discriminate.
Qed.

(** *** Claims about the evaluator *)

(** C1 (the code departs from the claim).  Apply mode is entered through the
    truth value of the two hyperparameters (line 49), so a supplied
    threshold of 0.0 is taken for a missing one: whatever the matrix and the
    weight, the call is the search.  On the held-out matrix with weight 1 and
    threshold 0, [evaluate] returns the re-tuned threshold 1.0 with F1 = 1,
    where the metrics at the supplied pair have F1 = 2/3. *)
Theorem C1_zero_threshold_is_searched_again :
  (forall te mat g w,
     evaluate te mat g (Some w) (Some 0) = evaluate te mat g None None)
  /\ evaluate threshold_evaluate_model held_out_mat 100 (Some 1) (Some 0)
    = Returned (Some (mk_results 1 (mk_metrics (100 # 100) 1 1 1 1)))
  /\ threshold_evaluate_model (composite_scores held_out_mat 1) (labels_of held_out_mat) 0
    = mk_metrics 0 1 (1 # 2) (2 # 3) (2 # 3).
Proof.
  split; [|split; vm_compute; reflexivity].
  intros te mat g w. apply evaluate_zero_threshold. reflexivity.
Qed.

(** C4.  In search mode the weights 1, 2, ... are scanned in increasing
    order: [n] of them, where every weight before the last improved on the
    best F1 seen so far and the last one did not, unless all ten were
    scanned.  The candidates are visited by increasing weight and then
    increasing threshold, and the result is the first visited candidate with
    the highest F1 (or nothing, when no F1 exceeds the initial -1). *)
Theorem C4_search_order_early_stop_first_best
    (te : tensor -> tensor -> Q -> metrics) (mat : matrix) (g : Z) :
  mat <> [] ->
  exists n,
    (1 <= n <= 10)%nat /\
    (forall k, (S k < n)%nat -> improves te mat g k) /\
    ((n < 10)%nat -> ~ improves te mat g (n - 1)) /\
    StronglySorted candidate_lt (candidates mat g n) /\
    ((evaluate te mat g None None = Returned None /\
      forall c, In c (candidates mat g n) -> F1_at te mat c <= -1)
     \/ exists c, first_best te mat (candidates mat g n) c /\
                  evaluate te mat g None None = Returned (Some (results_at te mat c))).
Proof.
  intros Hne. destruct (evaluate_search te mat g Hne) as [n [Hn [Himp [Hstop Hres]]]].
  exists n. repeat split; try lia; auto. apply candidates_sorted.
Qed.

Lemma C4_search_witness :
  example_mat <> [] /\
  exists n,
    (1 <= n <= 10)%nat /\
    (forall k, (S k < n)%nat -> improves threshold_evaluate_model example_mat 100 k) /\
    ((n < 10)%nat -> ~ improves threshold_evaluate_model example_mat 100 (n - 1)) /\
    StronglySorted candidate_lt (candidates example_mat 100 n) /\
    ((evaluate threshold_evaluate_model example_mat 100 None None = Returned None /\
      forall c, In c (candidates example_mat 100 n) ->
                F1_at threshold_evaluate_model example_mat c <= -1)
     \/ exists c, first_best threshold_evaluate_model example_mat
                    (candidates example_mat 100 n) c /\
                  evaluate threshold_evaluate_model example_mat 100 None None
                  = Returned (Some (results_at threshold_evaluate_model example_mat c))).
Proof.
  split; [discriminate|].
  apply (C4_search_order_early_stop_first_best threshold_evaluate_model example_mat 100).
  discriminate.
Defined.

(** C5, as stated, fails: a score matrix with the single label 1 is
    evaluated like any other.  With one row the threshold range is empty and
    the search returns nothing; with two rows it returns ordinary metrics
    (F1 = 2/3 at weight 1, threshold -0.1).  No condition is reported. *)
Lemma C5_single_class_not_reported :
  labels_of one_row_mat = [1] /\
  evaluate threshold_evaluate_model one_row_mat 100 None None = Returned None /\
  labels_of single_class_mat = [1; 1] /\
  evaluate threshold_evaluate_model single_class_mat 100 None None
  = Returned (Some (mk_results 1 (mk_metrics (-10 # 100) 1 (1 # 2) (2 # 3) (1 # 2)))).
Proof. repeat split; vm_compute; reflexivity. Qed.

(** C5, amended.  [evaluate] has no test for degenerate inputs.  On the
    empty matrix the search fails where the minimum of no scores is taken.
    On a non-empty matrix, of one class or of two, the search returns
    normally: nothing, or the metrics [threshold_evaluate] gave at one of the
    visited candidates.  With a nonzero weight and threshold given, whatever
    the matrix, the metrics of [threshold_evaluate] are returned as they
    are. *)
Theorem C5_degenerate_inputs_are_not_detected
    (te : tensor -> tensor -> Q -> metrics) (g : Z) (mat : matrix) (w t : Q) :
  mat <> [] -> ~ w == 0 -> ~ t == 0 ->
  evaluate te [] g None None = Raised EmptyReduction
  /\ (evaluate te mat g None None = Returned None
      \/ exists c, In c (candidates mat g 10) /\
                   evaluate te mat g None None = Returned (Some (results_at te mat c)))
  /\ (forall m, evaluate te m g (Some w) (Some t)
                = Returned (Some (mk_results w
                            (te (composite_scores m w) (labels_of m) t)))).
Proof.
  intros Hne Hw Ht. split; [reflexivity|]. split.
  - destruct (evaluate_search te mat g Hne)
      as [n [Hn [_ [_ [[Hnone _] | [c [[before [after [Hv _]]] Hres]]]]]]].
    + now left.
    + right. exists c. split; [|assumption].
      apply In_candidates.
      assert (Hin : In c (candidates mat g n))
        by (rewrite Hv; apply in_or_app; right; now left).
      apply In_candidates in Hin. destruct Hin as [k [Hk Hc]].
      exists k. split; [lia | assumption].
  - intros m. now apply evaluate_apply.
Qed.

Lemma C5_degenerate_witness :
  single_class_mat <> [] /\ ~ 1 == 0 /\ ~ 1 == 0 /\
  evaluate threshold_evaluate_model [] 100 None None = Raised EmptyReduction
  /\ (evaluate threshold_evaluate_model single_class_mat 100 None None = Returned None
      \/ exists c, In c (candidates single_class_mat 100 10) /\
                   evaluate threshold_evaluate_model single_class_mat 100 None None
                   = Returned (Some (results_at threshold_evaluate_model single_class_mat c)))
  /\ (forall m, evaluate threshold_evaluate_model m 100 (Some 1) (Some 1)
                = Returned (Some (mk_results 1
                            (threshold_evaluate_model (composite_scores m 1) (labels_of m) 1)))).
Proof.
  split; [discriminate|]. split; [discriminate|]. split; [discriminate|].
  apply (C5_degenerate_inputs_are_not_detected threshold_evaluate_model 100
           single_class_mat 1 1); discriminate.
Defined.

(** C7, as stated, fails: triplet results of two children with three
    negatives each (not ten) are not rejected.  The reshaping keeps the first
    positive row only and puts all six negative rows under it: the second
    child's positive row is gone and its negatives follow the first child's
    positive row. *)
Lemma C7_short_triplets_are_regrouped :
  List.length (negative_mat short_triplet_mat)
    <> (10 * List.length (positive_mat short_triplet_mat))%nat /\
  reshape_triplet short_triplet_mat
  = Returned (stack_T [(1, 1, 5, 4);
                       (0, 11, 5, 7); (0, 12, 5, 7); (0, 13, 5, 7);
                       (0, 21, 6, 7); (0, 22, 6, 7); (0, 23, 6, 7)]).
Proof. split; [vm_compute; discriminate | vm_compute; reflexivity]. Qed.

(** C7, amended.  The reshaping counts nothing: it keeps every tenth
    positive row and puts after each the next ten negative rows, or as many
    as are left.  The result has one row per kept positive row plus the
    negative rows up to ten times that number.  The only failure is the
    concatenation of nothing, when the matrix has no positive row. *)
Theorem C7_reshape_without_count_check (mat : matrix) :
  reshape_triplet mat
  = match positive_mat mat with
    | [] => Raised EmptyConcat
    | _ :: _ => Returned (concat (real_mat mat))
    end
  /\ List.length (concat (real_mat mat))
     = (List.length (positive_mat mat)
        + Nat.min (10 * List.length (positive_mat mat))
                  (List.length (negative_mat mat)))%nat.
Proof.
  split; [|apply real_mat_length].
  unfold reshape_triplet, torch_concat.
  destruct (positive_mat mat) as [|r rs] eqn:Hpos.
  - apply real_mat_nil in Hpos. now rewrite Hpos.
  - destruct (real_mat mat) eqn:Hreal; [|reflexivity].
    apply real_mat_nil in Hreal. congruence.
Qed.

End HitEvalFacts.

(** ** The reconstruction evaluator *)

Module ReconstructFacts.
Import Reconstruct.

Lemma mem_In (e : entity) (s : list entity) : mem e s = true <-> In e s.
Proof.
  unfold mem. rewrite existsb_exists. split.
  - intros [x [Hx He]]. apply String.eqb_eq in He. now subst.
  - intros H. exists e. split; [assumption | apply String.eqb_refl].
Qed.

Lemma In_set_minus (e : entity) (xs s : list entity) :
  In e (set_minus xs s) <-> In e xs /\ ~ In e s.
Proof.
  unfold set_minus. rewrite filter_In, nodup_In, negb_true_iff.
  rewrite <- (mem_In e s). destruct (mem e s); split; intros [H1 H2]; split;
    try assumption; try discriminate; try reflexivity.
  exfalso. now apply H2.
Qed.

Lemma count_less_In (ds : list Q) (d x : Q) :
  In x ds -> x < d -> (1 <= count_less ds d)%Z.
Proof.
  intros Hin Hlt. unfold count_less.
  assert (H : In x (filter (fun y => if Qlt_le_dec y d then true else false) ds)).
  { apply filter_In. split; [assumption|].
    destruct (Qlt_le_dec x d) as [|Hle]; [reflexivity|].
    exfalso. apply (Qlt_irrefl x). now apply Qlt_le_trans with d. }
  destruct (filter _ ds); [destruct H | simpl; lia].
Qed.

Lemma In_combine_map {A B : Type} (f : A -> B) (l : list A) (x : A) (y : B) :
  In (x, y) (combine l (map f l)) -> y = f x /\ In x l.
Proof.
  induction l as [|a l IH]; simpl; [intros []|].
  intros [H | H].
  - injection H as -> <-. split; [reflexivity | now left].
  - destruct (IH H) as [? ?]. split; [assumption | now right].
Qed.

(** The entity is its own nearest neighbour and is counted with the rest:
    an entity of the graph that is not its own hypernym, at distance 0 from
    itself, gives every hypernym at a positive distance a rank of 2 or
    more. *)
Lemma rank_counts_the_entity_itself (graph : HypernymGraph)
    (kv : PoincareKeyedVectors) (e h : entity) (r : Z) :
  In e (entities graph) ->
  ~ In e (get_hypernyms graph e) ->
  (forall f, In f (get_hypernyms graph e) -> distance kv e e < distance kv e f) ->
  In (h, r) (get_hypernym_ranks graph kv e) ->
  (2 <= r)%Z.
Proof.
  intros He Hself Hpos Hin. unfold get_hypernym_ranks in Hin.
  destruct (get_hypernyms graph e) as [|h0 hs] eqn:Hh; [destruct Hin|].
  apply in_map_iff in Hin. destruct Hin as [[h' dh] [Heq Hin]].
  injection Heq as -> <-.
  assert (Hrest : In e (set_minus (entities graph) (h0 :: hs)))
    by (apply In_set_minus; auto).
  assert (Hd : dh = distance kv e h /\ In h (h0 :: hs)).
  { change (distances kv e (h0 :: hs)) with (map (distance kv e) (h0 :: hs)) in Hin.
    now apply In_combine_map in Hin. }
  destruct Hd as [-> Hhin].
  assert (1 <= count_less (distances kv e (set_minus (entities graph) (h0 :: hs)))
                          (distance kv e h))%Z; [|lia].
  apply count_less_In with (x := distance kv e e); [|now apply Hpos].
  unfold distances. destruct (set_minus _ _) as [|y ys] eqn:Es; [destruct Hrest|].
  now apply in_map.
Qed.

(** C2 (the code departs from the claim).  On the chain a -> b -> c with
    b the single hypernym of a, the entities left after removing the
    hypernyms are a and c: a itself, at distance 0, is counted as closer to
    a than b is.  [get_hypernym_ranks] gives b the rank 2, the average
    precision of a is 1/2, and over the graph the mean rank is 2 and the
    MAP 1/2, where the claim has rank 1 and MAP 1. *)
Theorem C2_chain_rank_is_two :
  get_hypernym_ranks chain_graph chain_embeddings "a"%string = [("b"%string, 2%Z)]
  /\ get_hypernym_average_precision chain_graph chain_embeddings "a"%string
     = Some (1 # 2, [2%Z])
  /\ evaluate_hypernym_mean_rank_and_AP chain_graph chain_embeddings
     = (Some 2, Some (1 # 2)).
Proof. repeat split; vm_compute; reflexivity. Qed.

End ReconstructFacts.

(** ** The hyperbolic loss *)

Module LossFacts.
Import Loss.

(** *** Special values *)

Lemma fmul_nan_r (x : tfloat) : fmul x NaN = NaN.
Proof. now destruct x. Qed.

Lemma fadd_nan_r (x : tfloat) : fadd x NaN = NaN.
Proof. now destruct x. Qed.

Lemma Qeq_bool_zero_compare (q : Q) : Qeq_bool q 0 = true -> (q ?= 0) = Eq.
Proof. intros H. apply Qeq_bool_eq in H. now apply Qeq_alt. Qed.

Lemma signed_inf_zero (b : bool) (q : Q) : Qeq_bool q 0 = true -> signed_inf b q = NaN.
Proof. intros H. unfold signed_inf. now rewrite (Qeq_bool_zero_compare _ H). Qed.

Lemma signed_inf_not_unit (b : bool) (q : Q) : in_unit_interval (signed_inf b q) = false.
Proof. unfold signed_inf. destruct (q ?= 0), b; reflexivity. Qed.

Lemma fmul_zero_l (x y : tfloat) : is_zero x = true -> zero_or_nan (fmul x y) = true.
Proof.
  destruct x as [a| | |]; try discriminate. simpl. intros Ha.
  destruct y as [b| | |]; simpl; try reflexivity.
  - apply Qeq_bool_eq in Ha. apply Qeq_eq_bool. rewrite Ha. apply Qmult_0_l.
  - now rewrite signed_inf_zero.
  - now rewrite signed_inf_zero.
Qed.

Lemma fadd_zero_or_nan (x y : tfloat) :
  zero_or_nan x = true -> zero_or_nan y = true -> zero_or_nan (fadd x y) = true.
Proof.
  destruct x as [a| | |], y as [b| | |]; simpl; try discriminate; try reflexivity.
  intros Ha Hb. apply Qeq_bool_eq in Ha, Hb. apply Qeq_eq_bool. rewrite Ha, Hb. reflexivity.
Qed.

Lemma fsum_zero_or_nan (t : tensor) :
  Forall (fun x => zero_or_nan x = true) t -> zero_or_nan (fsum t) = true.
Proof.
  unfold fsum. assert (H0 : zero_or_nan (Fin 0) = true) by reflexivity.
  revert H0. generalize (Fin 0). induction t as [|x t IH]; intros acc Hacc Hall; simpl.
  - assumption.
  - inversion Hall; subst. apply IH; [now apply fadd_zero_or_nan | assumption].
Qed.

Lemma fdiv_zero_or_nan (x y : tfloat) :
  zero_or_nan x = true -> zero_or_nan y = true -> fdiv x y = NaN.
Proof.
  destruct x as [a| | |], y as [b| | |]; simpl; try discriminate; try reflexivity.
  intros Ha Hb. rewrite Hb. now apply signed_inf_zero.
Qed.

(** *** Broadcasting *)

Lemma bmap2_same {A B C : Type} (f : A -> B -> C) (xs : list A) (ys : list B) :
  List.length xs = List.length ys ->
  bmap2 f xs ys = Returned (map (fun '(x, y) => f x y) (combine xs ys)).
Proof. intros H. unfold bmap2. now rewrite H, Nat.eqb_refl. Qed.

Lemma bmap2_mismatch {A B C : Type} (f : A -> B -> C) (xs : list A) (ys : list B) :
  List.length xs <> List.length ys -> List.length xs <> 1%nat -> List.length ys <> 1%nat ->
  bmap2 f xs ys = Raised ShapeMismatch.
Proof.
  intros H Hx Hy. unfold bmap2. apply Nat.eqb_neq in H. rewrite H.
  destruct xs as [|x [|x' xs]]; simpl in *; try congruence;
    destruct ys as [|y [|y' ys]]; simpl in *; congruence.
Qed.

Lemma origin_length (rep : batch) : List.length (origin rep) = List.length rep.
Proof. unfold origin. apply length_map. Qed.

Ltac batch_lengths :=
  repeat (rewrite length_map || rewrite length_combine || rewrite origin_length);
  lia.

Ltac run_bmap2 :=
  rewrite bmap2_same by batch_lengths; cbn [bind].

Section Forward.

Context {M : TorchMath}.
Variable self : HyperbolicLoss.

(** On a batch of equal sizes every tensor operation of [forward] goes
    through, and the loss is the weighted sum of the three terms, the
    centripetal one being a sum over the products with the labels divided by
    the sum of the labels. *)
Lemma forward_equal_sizes (rep_anchor rep_other : batch) (labels : list Z) :
  List.length rep_anchor = List.length labels ->
  List.length rep_other = List.length labels ->
  exists cluster_loss centri cone_loss,
    forward self [rep_anchor; rep_other] labels
    = Returned (fadd (fadd (fmul (weight_cluster self) cluster_loss)
                           (fmul (weight_centri self)
                              (fdiv (fsum centri)
                                    (fsum (map (fun l => Fin (inject_Z l)) labels)))))
                     (fmul (weight_cone self) cone_loss))
    /\ Forall (fun x => exists l y, In l labels /\ x = fmul (Fin (inject_Z l)) y) centri.
Proof.
  intros Ha Ho. unfold forward, hyper_norms.
  do 12 run_bmap2.
  do 3 eexists. split; [reflexivity|].
  apply Forall_forall. intros x Hx. apply in_map_iff in Hx.
  destruct Hx as [[lf y] [<- Hin]]. apply in_combine_l in Hin.
  apply in_map_iff in Hin. destruct Hin as [l [<- Hl]]. eauto.
Qed.

End Forward.

(** *** Finite vectors *)

Lemma fadd_finite (x y : tfloat) :
  is_finite x = true -> is_finite y = true -> is_finite (fadd x y) = true.
Proof. destruct x, y; simpl; congruence. Qed.

Lemma fmul_finite (x y : tfloat) :
  is_finite x = true -> is_finite y = true -> is_finite (fmul x y) = true.
Proof. destruct x, y; simpl; congruence. Qed.

Lemma fsum_finite (t : tensor) :
  Forall (fun x => is_finite x = true) t -> is_finite (fsum t) = true.
Proof.
  unfold fsum. assert (H0 : is_finite (Fin 0) = true) by reflexivity.
  revert H0. generalize (Fin 0). induction t as [|x t IH]; intros acc Hacc Hall; simpl.
  - assumption.
  - inversion Hall; subst. apply IH; [now apply fadd_finite | assumption].
Qed.

Lemma squares_finite (v : vec) :
  finite_vec v -> Forall (fun x => is_finite x = true) (map fsquare v).
Proof.
  intros H. apply Forall_map. eapply Forall_impl; [|exact H].
  intros x Hx. now apply fmul_finite.
Qed.

Lemma vdot_finite (v : vec) : finite_vec v -> is_finite (vdot v v) = true.
Proof.
  intros H. unfold vdot. apply fsum_finite. apply Forall_forall.
  intros x Hx. apply in_map_iff in Hx. destruct Hx as [[a b] [<- Hin]].
  unfold finite_vec in H. rewrite Forall_forall in H.
  apply fmul_finite; [apply H; eapply in_combine_l | apply H; eapply in_combine_r];
    exact Hin.
Qed.

Lemma is_zero_fsum (t : tensor) :
  Forall (fun x => is_zero x = true) t -> is_zero (fsum t) = true.
Proof.
  unfold fsum. assert (H0 : is_zero (Fin 0) = true) by reflexivity.
  revert H0. generalize (Fin 0). induction t as [|x t IH]; intros acc Hacc Hall; simpl.
  - assumption.
  - inversion Hall as [|? ? Hx Ht]; subst. apply IH; [|assumption].
    destruct acc as [a| | |], x as [b| | |]; try discriminate. simpl in *.
    apply Qeq_bool_eq in Hacc, Hx. apply Qeq_eq_bool. rewrite Hacc, Hx. reflexivity.
Qed.

(** The difference of a finite vector with itself is zero in every
    coordinate, and so is the sum of the squares of that difference. *)
Lemma self_difference_squares (v : vec) :
  finite_vec v -> is_zero (fsum (map fsquare (vsub v v))) = true.
Proof.
  intros H. apply is_zero_fsum. apply Forall_map. unfold vsub. apply Forall_map.
  apply Forall_forall. intros [a b] Hin.
  assert (Hab : a = b).
  { clear H. induction v as [|x v IH]; simpl in Hin; [destruct Hin|].
    destruct Hin as [E | Hin]; [now injection E as <- <- | now apply IH]. }
  subst b. unfold finite_vec in H. rewrite Forall_forall in H.
  specialize (H a (in_combine_l _ _ _ _ Hin)).
  destruct a as [q| | |]; try discriminate. simpl.
  apply Qeq_eq_bool. rewrite Qplus_opp_r. reflexivity.
Qed.

Section ConeAngle.

Context {M : TorchMath}.
Hypothesis laws : TorchMathLaws M.

Lemma fsqrt_cases (q : Q) : is_finite (fsqrt (Fin q)) = true \/ fsqrt (Fin q) = NaN.
Proof.
  destruct (fsqrt (Fin q)) eqn:E; auto; exfalso;
    apply (fsqrt_finite M laws q); rewrite E; auto.
Qed.

(** With the tip and the point at the same place the quotient is a division
    by zero, whatever the rounding of the square roots. *)
Lemma cone_angle_argument_same_point (tip : vec) :
  finite_vec tip -> in_unit_interval (cone_angle_argument tip tip) = false.
Proof.
  intros Hfin. unfold cone_angle_argument.
  assert (Hedist : is_zero (vnorm (vsub tip tip)) = true).
  { unfold vnorm. pose proof (self_difference_squares tip Hfin) as Hz.
    destruct (fsum (map fsquare (vsub tip tip))) as [q| | |]; try discriminate.
    apply (fsqrt_zero M laws). now apply Qeq_bool_eq. }
  pose proof (vdot_finite tip Hfin) as Hdot.
  assert (Hnorm : is_finite (vnorm tip) = true \/ vnorm tip = NaN).
  { unfold vnorm. pose proof (fsum_finite _ (squares_finite tip Hfin)) as Hs.
    destruct (fsum (map fsquare tip)) as [q| | |]; try discriminate. apply fsqrt_cases. }
  destruct (vnorm (vsub tip tip)) as [e| | |]; try discriminate. simpl in Hedist.
  destruct (vdot tip tip) as [d| | |]; try discriminate.
  destruct Hnorm as [Hn | Hn].
  - destruct (vnorm tip) as [n| | |]; try discriminate. simpl.
    match goal with |- context [fsqrt (Fin ?q)] => destruct (fsqrt_cases q) as [Hs | Hs] end.
    + match goal with |- context [fsqrt (Fin ?q)] =>
        destruct (fsqrt (Fin q)) as [s| | |]; try discriminate end.
      simpl.
      assert (Hden : Qeq_bool (n * e * s) 0 = true).
      { apply Qeq_bool_eq in Hedist. apply Qeq_eq_bool. rewrite Hedist. ring. }
      rewrite Hden. apply signed_inf_not_unit.
    + rewrite Hs. reflexivity.
  - rewrite Hn. reflexivity.
Qed.

End ConeAngle.

(** The coarse instance satisfies the laws. *)
Lemma coarse_math_laws : TorchMathLaws coarse_math.
Proof.
  constructor.
  - intros q. simpl. destruct (Qlt_le_dec q 0); intros [H | H]; discriminate.
  - intros q Hq. simpl. destruct (Qlt_le_dec q 0) as [Hlt | _].
    + rewrite Hq in Hlt. discriminate.
    + simpl. unfold sqrt_down.
      assert (Hnum : Qnum q = 0%Z).
      { destruct q as [n d]. unfold Qeq in Hq. simpl in *. lia. }
      rewrite Hnum. simpl. reflexivity.
  - intros x Hx. simpl. unfold coarse_arccos. destruct x; try reflexivity. now rewrite Hx.
Qed.

(** *** Claims about the loss *)

(** C6, as stated, fails: [forward] computes a loss for the label 2, and for
    two anchors against a single other embedding (which torch broadcasts).
    Neither batch is rejected. *)
Lemma C6_invalid_batches_are_accepted :
  (exists loss, @forward coarse_math example_loss [[point_a]; [point_b]] [2%Z]
                = Returned (Fin loss))
  /\ (exists loss, @forward coarse_math example_loss
                     [[point_a; point_b]; [point_c]] [1%Z; 0%Z]
                   = Returned (Fin loss)).
Proof. split; vm_compute; eexists; reflexivity. Qed.

(** C6, amended.  [forward] asserts that exactly two batches of embeddings
    are given, and checks nothing else.  For an anchor batch, an other batch
    and labels of one size the loss is computed, whatever the values of the
    labels.  Batches whose sizes differ and are not 1 fail in the first
    tensor operation, with torch's shape error. *)
Theorem C6_forward_validates_only_the_number_of_batches
    (M : TorchMath) (self : HyperbolicLoss)
    (rep_anchor rep_other a b : batch) (labels labels' : list Z) :
  List.length rep_anchor = List.length labels ->
  List.length rep_other = List.length labels ->
  List.length a <> List.length b ->
  List.length a <> 1%nat -> List.length b <> 1%nat ->
  (exists loss, forward self [rep_anchor; rep_other] labels = Returned loss)
  /\ forward self [a; b] labels' = Raised ShapeMismatch
  /\ forward self [] labels' = Raised AssertionError
  /\ (forall r, forward self [r] labels' = Raised AssertionError)
  /\ (forall r1 r2 r3 rest,
        forward self (r1 :: r2 :: r3 :: rest) labels' = Raised AssertionError).
Proof.
  intros Ha Ho Hab Ha1 Hb1. split; [|split; [|repeat split]].
  - destruct (forward_equal_sizes self rep_anchor rep_other labels Ha Ho)
      as [x [y [z [H _]]]].
    eexists. exact H.
  - unfold forward. now rewrite bmap2_mismatch.
Qed.

Lemma C6_forward_witness :
  List.length [point_a] = List.length [2%Z] /\
  List.length [point_b] = List.length [2%Z] /\
  List.length [point_a; point_b; point_a] <> List.length [point_b; point_a] /\
  List.length [point_a; point_b; point_a] <> 1%nat /\
  List.length [point_b; point_a] <> 1%nat /\
  (exists loss, @forward coarse_math example_loss [[point_a]; [point_b]] [2%Z]
                = Returned loss)
  /\ @forward coarse_math example_loss
       [[point_a; point_b; point_a]; [point_b; point_a]] [1%Z; 0%Z]
     = Raised ShapeMismatch
  /\ @forward coarse_math example_loss [] [1%Z; 0%Z] = Raised AssertionError
  /\ (forall r, @forward coarse_math example_loss [r] [1%Z; 0%Z] = Raised AssertionError)
  /\ (forall r1 r2 r3 rest,
        @forward coarse_math example_loss (r1 :: r2 :: r3 :: rest) [1%Z; 0%Z]
        = Raised AssertionError).
Proof.
  split; [reflexivity|]. split; [reflexivity|]. split; [discriminate|].
  split; [discriminate|]. split; [discriminate|].
  apply (C6_forward_validates_only_the_number_of_batches coarse_math example_loss
           [point_a] [point_b] [point_a; point_b; point_a] [point_b; point_a]
           [2%Z] [1%Z; 0%Z]);
    solve [reflexivity | discriminate].
Defined.

(** C10.  On a non-empty batch whose labels are all 0, with a nonzero
    centripetal weight, [forward] returns not-a-number: the centripetal term
    is a sum of products with 0 divided by the sum of the labels, which is
    0. *)
Theorem C10_all_negative_batch_gives_nan
    (M : TorchMath) (self : HyperbolicLoss)
    (rep_anchor rep_other : batch) (labels : list Z) :
  labels <> [] ->
  List.length rep_anchor = List.length labels ->
  List.length rep_other = List.length labels ->
  Forall (fun l => l = 0%Z) labels ->
  is_zero (weight_centri self) = false ->
  forward self [rep_anchor; rep_other] labels = Returned NaN.
Proof.
  intros _ Ha Ho Hzero _.
  destruct (forward_equal_sizes self rep_anchor rep_other labels Ha Ho)
    as [cluster_loss [centri [cone_loss [-> Hcentri]]]].
  assert (Hnum : zero_or_nan (fsum centri) = true).
  { apply fsum_zero_or_nan. eapply Forall_impl; [|exact Hcentri].
    intros x [l [y [Hl ->]]]. rewrite Forall_forall in Hzero.
    rewrite (Hzero l Hl). now apply fmul_zero_l. }
  assert (Hden : zero_or_nan (fsum (map (fun l => Fin (inject_Z l)) labels)) = true).
  { apply fsum_zero_or_nan. apply Forall_map. eapply Forall_impl; [|exact Hzero].
    intros l ->. reflexivity. }
  rewrite (fdiv_zero_or_nan _ _ Hnum Hden), fmul_nan_r, fadd_nan_r.
  reflexivity.
Qed.

Lemma C10_all_negative_batch_witness :
  [0%Z; 0%Z] <> [] /\
  List.length [point_a; point_b] = List.length [0%Z; 0%Z] /\
  List.length [point_b; point_a] = List.length [0%Z; 0%Z] /\
  Forall (fun l => l = 0%Z) [0%Z; 0%Z] /\
  is_zero (weight_centri example_loss) = false /\
  @forward coarse_math example_loss [[point_a; point_b]; [point_b; point_a]] [0%Z; 0%Z]
  = Returned NaN.
Proof.
  split; [discriminate|]. split; [reflexivity|]. split; [reflexivity|].
  split; [repeat constructor|]. split; [reflexivity|].
  apply (C10_all_negative_batch_gives_nan coarse_math example_loss);
    solve [discriminate | reflexivity | repeat constructor].
Defined.

End LossFacts.

(** ** More on the threshold search *)

Module HitEvalMore.
Import HitEval HitEvalFacts.

Lemma weight_of_positive (k : nat) : 0 < weight_of k.
Proof.
  unfold weight_of. change 0 with (inject_Z 0). rewrite <- Zlt_Qlt. lia.
Qed.

Lemma candidates_weight mat g n c :
  In c (candidates mat g n) -> exists k, (k < n)%nat /\ fst c = weight_of k.
Proof.
  intros H. apply In_candidates in H. destruct H as [k [Hk Hc]].
  exists k. split; [assumption | now apply candidates_of_fst in Hc].
Qed.

Lemma evaluate_search_nonempty te mat g r :
  evaluate te mat g None None = Returned r -> mat <> [].
Proof. intros H ->. discriminate. Qed.

Lemma apply_after_search
    (te : tensor -> tensor -> Q -> metrics) (mat : matrix) (g : Z) (r : eval_results) :
  (forall s l t, threshold (te s l t) = t) ->
  evaluate te mat g None None = Returned (Some r) ->
  ~ threshold (scores_at r) == 0 ->
  evaluate te mat g (Some (centri_score_weight r)) (Some (threshold (scores_at r)))
  = Returned (Some r).
Proof.
  intros Hte Hsearch Hnz.
  pose proof (evaluate_search_nonempty _ _ _ _ Hsearch) as Hne.
  destruct (evaluate_search te mat g Hne)
    as [n [_ [_ [_ [[Hnone _] | [c [[before [after [Hv _]]] Hres]]]]]]].
  - rewrite Hnone in Hsearch. discriminate.
  - rewrite Hres in Hsearch. injection Hsearch as <-.
    assert (Hin : In c (candidates mat g n))
      by (rewrite Hv; apply in_or_app; right; now left).
    destruct (candidates_weight _ _ _ _ Hin) as [k [_ Hw]].
    unfold results_at, metrics_at in *. simpl in *. rewrite Hte in *.
    apply evaluate_apply; [|assumption].
    rewrite Hw. intros E. pose proof (weight_of_positive k) as Hp.
    rewrite E in Hp. discriminate.
Qed.

(** X1.  Handing the result of a search back to [evaluate] on the same matrix
    (what [__call__] does with the validation result on the test split)
    gives the same result again: when [threshold_evaluate] records the
    threshold it was given, and the threshold found is not 0.0. *)
Theorem search_then_apply_reproduces
    (te : tensor -> tensor -> Q -> metrics) (mat : matrix) (g : Z) (r : eval_results) :
  (forall s l t, threshold (te s l t) = t) ->
  evaluate te mat g None None = Returned (Some r) ->
  ~ threshold (scores_at r) == 0 ->
  evaluate te mat g (Some (centri_score_weight r)) (Some (threshold (scores_at r)))
  = Returned (Some r).
Proof. apply apply_after_search. Qed.

Lemma search_then_apply_witness :
  (forall s l t, threshold (threshold_evaluate_model s l t) = t) /\
  evaluate threshold_evaluate_model example_mat 100 None None
  = Returned (Some (mk_results 1 (mk_metrics (-10 # 100) 1 1 1 1))) /\
  ~ threshold (scores_at (mk_results 1 (mk_metrics (-10 # 100) 1 1 1 1))) == 0 /\
  evaluate threshold_evaluate_model example_mat 100
    (Some (centri_score_weight (mk_results 1 (mk_metrics (-10 # 100) 1 1 1 1))))
    (Some (threshold (scores_at (mk_results 1 (mk_metrics (-10 # 100) 1 1 1 1)))))
  = Returned (Some (mk_results 1 (mk_metrics (-10 # 100) 1 1 1 1))).
Proof.
  split; [reflexivity|]. split; [vm_compute; reflexivity|]. split; [discriminate|].
  apply (search_then_apply_reproduces threshold_evaluate_model example_mat 100);
    [reflexivity | vm_compute; reflexivity | discriminate].
Defined.

(** A matrix of one row has no threshold to scan, whatever the weight. *)
Lemma one_row_thresholds (r : row) (g : Z) (w : Q) : scanned_thresholds [r] g w = [].
Proof.
  unfold scanned_thresholds. simpl. unfold py_range.
  now rewrite Z.sub_diag.
Qed.

(** X2.  The search finds nothing exactly when no threshold scanned for the
    first weight has an F1 above the initial -1: there is no threshold to
    scan, or the test [F1 > best_f1] fails at every one of them.  The later
    weights are not tried then. *)
Theorem search_finds_nothing_iff_first_weight_fails
    (te : tensor -> tensor -> Q -> metrics) (mat : matrix) (g : Z) :
  mat <> [] ->
  (evaluate te mat g None None = Returned None <->
   forall t, In t (scanned_thresholds mat g (weight_of 0)) ->
             ~ -1 < F1_at te mat (weight_of 0, t)).
Proof.
  intros Hne.
  assert (Hfirst : forall t, In t (scanned_thresholds mat g (weight_of 0)) ->
                     In (weight_of 0, t) (candidates_of mat g 0)).
  { intros t Ht. unfold candidates_of. now apply in_map. }
  destruct (evaluate_search te mat g Hne)
    as [n [Hn [Himp [_ [[Hnone Hall] | [c [[before [after [Hv [Hc _]]]] Hres]]]]]]].
  - split; [intros _ | intros _; assumption].
    intros t Ht Hlt. apply (Qlt_not_le _ _ Hlt).
    apply Hall. apply In_candidates. exists 0%nat. split; [lia | now apply Hfirst].
  - split; [intros H; rewrite Hres in H; discriminate|].
    intros Hall. exfalso.
    assert (Hin0 : forall c', In c' (candidates_of mat g 0) -> ~ -1 < F1_at te mat c').
    { intros c' Hc'. unfold candidates_of in Hc'. apply in_map_iff in Hc'.
      destruct Hc' as [t [<- Ht]]. now apply Hall. }
    destruct (Nat.eq_dec n 1) as [-> | Hn1].
    + apply (Hin0 c); [|exact Hc].
      unfold candidates in Hv. simpl in Hv. rewrite app_nil_r in Hv.
      rewrite Hv. apply in_or_app. right. now left.
    + destruct (Himp 0%nat ltac:(lia)) as [c' [Hin [Hlt _]]].
      now apply (Hin0 c').
Qed.

Lemma search_finds_nothing_witness :
  example_mat <> [] /\
  (evaluate threshold_evaluate_model example_mat 100 None None = Returned None <->
   forall t, In t (scanned_thresholds example_mat 100 (weight_of 0)) ->
             ~ -1 < F1_at threshold_evaluate_model example_mat (weight_of 0, t)).
Proof.
  split; [discriminate|].
  apply (search_finds_nothing_iff_first_weight_fails threshold_evaluate_model
           example_mat 100).
  discriminate.
Defined.

Lemma Qdiv_nonneg (a b : Q) : 0 <= a -> 0 <= b -> 0 <= a / b.
Proof.
  intros Ha Hb. unfold Qdiv. apply Qmult_le_0_compat; [assumption|].
  now apply Qinv_le_0_compat.
Qed.

Lemma count_where_nonneg f scores labels : 0 <= count_where f scores labels.
Proof.
  unfold count_where. change 0 with (inject_Z 0). rewrite <- Zle_Qle. lia.
Qed.

Lemma Qplus_nonneg (a b : Q) : 0 <= a -> 0 <= b -> 0 <= a + b.
Proof.
  intros Ha Hb. setoid_replace 0 with (0 + 0) by reflexivity.
  now apply Qplus_le_compat.
Qed.

(** X3.  On a matrix of a single row the search returns nothing, for every
    [threshold_evaluate], granularity and row. *)
Theorem search_on_one_row_returns_nothing
    (te : tensor -> tensor -> Q -> metrics) (r : row) (g : Z) :
  evaluate te [r] g None None = Returned None.
Proof.
  unfold evaluate. simpl truthy. cbv iota.
  change (py_range 0 10) with (map Z.of_nat (seq 0 10)).
  cbn [map seq weight_loop initial_state is_updated negb].
  rewrite (scan_weight_thresholds te [r] g initial_state 0) by discriminate.
  rewrite one_row_thresholds. reflexivity.
Qed.

(** X4.  When a threshold of the first weight already reaches an F1 of 1, and no
    F1 exceeds 1, the search returns the first weight with an F1 of 1: no
    later weight can improve on it. *)
Theorem perfect_first_weight_is_kept
    (te : tensor -> tensor -> Q -> metrics) (mat : matrix) (g : Z) (t0 : Q) :
  mat <> [] ->
  (forall s l t, F1 (te s l t) <= 1) ->
  In t0 (scanned_thresholds mat g (weight_of 0)) ->
  F1_at te mat (weight_of 0, t0) == 1 ->
  exists r,
    evaluate te mat g None None = Returned (Some r) /\
    centri_score_weight r = weight_of 0 /\
    F1 (scores_at r) == 1.
Proof.
  intros Hne Hmax Ht0 Hone.
  assert (Hc0 : In (weight_of 0, t0) (candidates_of mat g 0))
    by (unfold candidates_of; now apply in_map).
  destruct (evaluate_search te mat g Hne)
    as [n [Hn [_ [_ [[_ Hall] | [c [[before [after [Hv [_ [Hbef Haft]]]]] Hres]]]]]]].
  - exfalso. assert (H : F1_at te mat (weight_of 0, t0) <= -1).
    { apply Hall. apply In_candidates. exists 0%nat. split; [lia | assumption]. }
    rewrite Hone in H. apply (Qlt_not_le (-1) 1); [reflexivity | exact H].
  - assert (Hc1 : F1_at te mat c <= 1) by apply Hmax.
    assert (Hnot : ~ In (weight_of 0, t0) before).
    { intros Hin. apply Hbef in Hin. rewrite Hone in Hin.
      apply (Qlt_irrefl 1). now apply Qlt_le_trans with (F1_at te mat c). }
    assert (Hsplit : candidates mat g n
                     = candidates_of mat g 0 ++ flat_map (candidates_of mat g) (seq 1 (n - 1))).
    { destruct n as [|m]; [lia|]. unfold candidates. simpl. now rewrite Nat.sub_0_r. }
    rewrite Hsplit in Hv. symmetry in Hv. apply app_eq_app in Hv.
    assert (Hcin : In c (candidates_of mat g 0)).
    { destruct Hv as [l [[Hb _] | [Ha Hl]]].
      - exfalso. apply Hnot. rewrite Hb. apply in_or_app. now left.
      - destruct l as [|c' l'].
        + exfalso. apply Hnot. rewrite app_nil_r in Ha. now rewrite <- Ha.
        + simpl in Hl. injection Hl as <- _. rewrite Ha. apply in_or_app. right. now left. }
    exists (results_at te mat c). split; [assumption|]. split.
    + simpl. now apply candidates_of_fst in Hcin.
    + apply Qle_antisym; [exact Hc1|].
      change (F1 (scores_at (results_at te mat c))) with (F1_at te mat c).
      rewrite <- Hone.
      assert (Hin : In (weight_of 0, t0) (before ++ c :: after)).
      { destruct Hv as [l [[Hb _] | [Ha Hl]]].
        - exfalso. apply Hnot. rewrite Hb. apply in_or_app. now left.
        - rewrite Ha in Hc0. apply in_app_or in Hc0. destruct Hc0 as [H | H].
          + now apply in_or_app; left.
          + apply in_or_app. right. rewrite Hl. apply in_or_app. now left. }
      apply in_app_or in Hin. destruct Hin as [H | [<- | H]].
      * contradiction.
      * apply Qle_refl.
      * now apply Haft.
Qed.

Lemma Qdiv_le_one (a b : Q) : 0 <= a -> a <= b -> a / b <= 1.
Proof.
  intros Ha Hab. destruct (Qeq_dec b 0) as [Hb | Hb].
  - unfold Qdiv. rewrite Hb. setoid_replace (a * / 0) with 0; [discriminate|].
    unfold Qinv. simpl. ring.
  - apply Qle_shift_div_r.
    + destruct (Qlt_le_dec 0 b) as [|Hle]; [assumption|].
      exfalso. apply Hb. apply Qle_antisym; [assumption|].
      now apply Qle_trans with a.
    + now rewrite Qmult_1_l.
Qed.

(** The F1 of the model of [threshold_evaluate] is at most 1. *)
Lemma model_F1_le_one (scores labels : tensor) (t : Q) :
  F1 (threshold_evaluate_model scores labels t) <= 1.
Proof.
  lazy beta zeta iota delta [threshold_evaluate_model F1]. rewrite Qred_correct.
  assert (Hq : forall a b, 0 <= a -> 0 <= b ->
                           0 <= Qred (a / (a + b)) /\ Qred (a / (a + b)) <= 1).
  { intros a b Ha Hb. rewrite Qred_correct. split.
    - apply Qdiv_nonneg; [assumption | now apply Qplus_nonneg].
    - apply Qdiv_le_one; [assumption|].
      setoid_replace a with (a + 0) at 1 by ring. now apply Qplus_le_compat; [apply Qle_refl|]. }
  match goal with |- 2 * ?p * ?r / _ <= 1 =>
    assert (Hp : 0 <= p /\ p <= 1) by (apply Hq; apply count_where_nonneg);
    assert (Hr : 0 <= r /\ r <= 1) by (apply Hq; apply count_where_nonneg);
    generalize dependent p; generalize dependent r
  end.
  intros r [Hr0 Hr1] p [Hp0 Hp1].
  apply Qdiv_le_one.
  - apply Qmult_le_0_compat; [apply Qmult_le_0_compat; [discriminate|]|]; assumption.
  - setoid_replace (2 * p * r) with (p * r + p * r) by ring.
    apply Qplus_le_compat.
    + setoid_replace p with (p * 1) at 2 by ring.
      rewrite (Qmult_comm p r), (Qmult_comm p 1).
      apply Qmult_le_compat_r; assumption.
    + setoid_replace r with (1 * r) at 2 by ring.
      apply Qmult_le_compat_r; assumption.
Qed.

Lemma perfect_first_weight_witness :
  example_mat <> [] /\
  (forall s l t, F1 (threshold_evaluate_model s l t) <= 1) /\
  In (-10 # 100) (scanned_thresholds example_mat 100 (weight_of 0)) /\
  F1_at threshold_evaluate_model example_mat (weight_of 0, -10 # 100) == 1 /\
  exists r,
    evaluate threshold_evaluate_model example_mat 100 None None = Returned (Some r) /\
    centri_score_weight r = weight_of 0 /\
    F1 (scores_at r) == 1.
Proof.
  assert (Hin : In (-10 # 100) (scanned_thresholds example_mat 100 (weight_of 0)))
    by (vm_compute; now left).
  split; [discriminate|]. split; [exact model_F1_le_one|]. split; [exact Hin|].
  split; [reflexivity|].
  apply (perfect_first_weight_is_kept threshold_evaluate_model example_mat 100 (-10 # 100));
    [discriminate | exact model_F1_le_one | exact Hin | reflexivity].
Defined.

End HitEvalMore.

(** ** The data loader pass *)

Module HitEvalLoaderFacts.
Import HitEval HitEvalFacts HitEvalLoader.

Section Pass.

Variable V : Type.
Variable dist : V -> V -> Q.
Variable dist0 : V -> Q.
Variable loss_module : batch V -> Loss.tfloat.
Variable threshold_evaluate : tensor -> tensor -> Q -> metrics.

Local Abbreviation pair_rows := (pair_rows V dist dist0).
Local Abbreviation positive_rows := (positive_rows V dist dist0).
Local Abbreviation negative_rows := (negative_rows V dist dist0).
Local Abbreviation child_rows := (child_rows V dist dist0).
Local Abbreviation child_triplets := (child_triplets V).
Local Abbreviation batch_loop := (batch_loop V dist dist0 loss_module).
Local Abbreviation evaluate_dataloader :=
  (evaluate_dataloader V dist dist0 loss_module).

(** The sum of the batch losses that are not not-a-number. *)
Local Abbreviation counted_losses batches :=
  (filter (fun x => negb (Loss.is_nan x)) (map loss_module batches)).

Lemma batch_loop_loss (triplet : bool) (batches : list (batch V)) :
  forall results acc results' acc',
    batch_loop triplet batches results acc = Returned (results', acc') ->
    acc' = fold_left Loss.fadd (counted_losses batches) acc.
Proof.
  induction batches as [|b bs IH]; intros results acc results' acc' H; simpl in H.
  - now injection H as _ <-.
  - destruct (batch_results V dist dist0 triplet b) as [rows|e]; [|discriminate].
    simpl in H. apply IH in H. subst acc'. simpl.
    destruct (Loss.is_nan (loss_module b)); reflexivity.
Qed.

Lemma batch_loop_pairs (bs : list (list (V * V * Q))) :
  forall results acc,
    batch_loop false (map Pairs bs) results acc
    = Returned (results ++ map pair_rows bs,
                fold_left Loss.fadd (counted_losses (map Pairs bs)) acc).
Proof.
  induction bs as [|b bs IH]; intros results acc; simpl.
  - now rewrite app_nil_r.
  - rewrite IH, <- app_assoc. simpl.
    destruct (Loss.is_nan (loss_module (Pairs b))); reflexivity.
Qed.

Lemma batch_loop_triplets (bs : list (list (V * V * V))) :
  forall results acc,
    batch_loop true (map Triplets bs) results acc
    = Returned (results ++ flat_map (fun b => [positive_rows b; negative_rows b]) bs,
                fold_left Loss.fadd (counted_losses (map Triplets bs)) acc).
Proof.
  induction bs as [|b bs IH]; intros results acc; simpl.
  - now rewrite app_nil_r.
  - rewrite IH, <- app_assoc. simpl.
    destruct (Loss.is_nan (loss_module (Triplets b))); reflexivity.
Qed.

Lemma pair_rows_concat (bs : list (list (V * V * Q))) :
  pair_rows (concat bs) = concat (map pair_rows bs).
Proof. unfold HitEvalLoader.pair_rows. apply concat_map. Qed.

(** X5.  The mean loss a pass reports: batches whose loss is not-a-number add
    nothing to the sum and still count in the divisor. *)
Theorem reported_loss_counts_skipped_batches
    (triplet : bool) (batches : list (batch V)) (w t : option Q) (o : loader_output) :
  evaluate_dataloader triplet threshold_evaluate batches w t = Returned o ->
  out_loss o
  = Loss.fdiv (Loss.fsum (counted_losses batches))
              (Loss.Fin (inject_Z (Z.of_nat (List.length batches)))).
Proof.
  unfold HitEvalLoader.evaluate_dataloader. intros H.
  destruct (batch_loop triplet batches [] (Loss.Fin 0)) as [[results acc]|e] eqn:Hloop;
    [|discriminate].
  apply batch_loop_loss in Hloop. simpl in H.
  destruct (torch_concat results) as [m|e]; [|discriminate]. simpl in H.
  destruct (if triplet then reshape_triplet m else Returned m) as [m'|e]; [|discriminate].
  simpl in H.
  destruct (evaluate threshold_evaluate m' 100 w t) as [s|e]; [|discriminate].
  simpl in H. injection H as <-. simpl. now rewrite Hloop.
Qed.

(** X6.  In pair mode the result matrix and the scores are those of the examples
    of all batches put end to end: how the examples are cut into batches
    shows in the loss only.  A loader of no batches fails. *)
Theorem pair_pass (bs : list (list (V * V * Q))) (w t : option Q) :
  evaluate_dataloader false threshold_evaluate (map Pairs bs) w t
  = match bs with
    | [] => Raised EmptyConcat
    | _ :: _ =>
        scores <- evaluate threshold_evaluate (pair_rows (concat bs)) 100 w t ;;
        Returned (mk_output (pair_rows (concat bs))
                    (Loss.fdiv (Loss.fsum (counted_losses (map Pairs bs)))
                       (Loss.Fin (inject_Z (Z.of_nat (List.length bs)))))
                    scores)
    end.
Proof.
  unfold HitEvalLoader.evaluate_dataloader. rewrite batch_loop_pairs. simpl.
  destruct bs as [|b bs]; [reflexivity|].
  rewrite pair_rows_concat, length_map. reflexivity.
Qed.

(** *** Triplet mode *)

Lemma filter_positive_rows (f : row -> bool) (ex : list (V * V * V)) :
  (forall r, col0 r = 1 -> f r = true) -> filter f (positive_rows ex) = positive_rows ex.
Proof.
  intros Hf. unfold HitEvalLoader.positive_rows.
  induction ex as [|[[a p] n] ex IH]; simpl; [reflexivity|].
  rewrite Hf by reflexivity. now rewrite IH.
Qed.

Lemma filter_positive_rows_none (f : row -> bool) (ex : list (V * V * V)) :
  (forall r, col0 r = 1 -> f r = false) -> filter f (positive_rows ex) = [].
Proof.
  intros Hf. unfold HitEvalLoader.positive_rows.
  induction ex as [|[[a p] n] ex IH]; simpl; [reflexivity|].
  now rewrite Hf by reflexivity.
Qed.

Lemma filter_negative_rows (f : row -> bool) (ex : list (V * V * V)) :
  (forall r, col0 r = 0 -> f r = true) -> filter f (negative_rows ex) = negative_rows ex.
Proof.
  intros Hf. unfold HitEvalLoader.negative_rows.
  induction ex as [|[[a p] n] ex IH]; simpl; [reflexivity|].
  rewrite Hf by reflexivity. now rewrite IH.
Qed.

Lemma filter_negative_rows_none (f : row -> bool) (ex : list (V * V * V)) :
  (forall r, col0 r = 0 -> f r = false) -> filter f (negative_rows ex) = [].
Proof.
  intros Hf. unfold HitEvalLoader.negative_rows.
  induction ex as [|[[a p] n] ex IH]; simpl; [reflexivity|].
  now rewrite Hf by reflexivity.
Qed.

(** Whatever the batches, the rows with label 1 of the concatenated results
    are the positive rows of all triplets in data order, and the rows with
    label 0 their negative rows. *)
Lemma triplet_results_filtered (bs : list (list (V * V * V))) :
  filter (fun r => Qeq_bool (col0 r) 1)
    (concat (flat_map (fun b => [positive_rows b; negative_rows b]) bs))
  = positive_rows (concat bs)
  /\ filter (fun r => Qeq_bool (col0 r) 0)
       (concat (flat_map (fun b => [positive_rows b; negative_rows b]) bs))
     = negative_rows (concat bs).
Proof.
  induction bs as [|b bs [IHp IHn]]; [split; reflexivity|].
  simpl. rewrite !filter_app, IHp, IHn.
  unfold HitEvalLoader.positive_rows at 3, HitEvalLoader.negative_rows at 4.
  rewrite !map_app.
  split.
  - rewrite filter_positive_rows by (intros r ->; reflexivity).
    rewrite filter_negative_rows_none by (intros r ->; reflexivity). reflexivity.
  - rewrite filter_positive_rows_none by (intros r ->; reflexivity).
    rewrite filter_negative_rows by (intros r ->; reflexivity). reflexivity.
Qed.

Lemma reshape_triplet_ext (m m' : matrix) :
  filter (fun r => Qeq_bool (col0 r) 1) m = filter (fun r => Qeq_bool (col0 r) 1) m' ->
  filter (fun r => Qeq_bool (col0 r) 0) m = filter (fun r => Qeq_bool (col0 r) 0) m' ->
  reshape_triplet m = reshape_triplet m'.
Proof.
  intros Hp Hn. unfold reshape_triplet, real_mat, positive_mat, negative_mat.
  now rewrite Hp, Hn.
Qed.

Lemma triplet_pass_eq (bs : list (list (V * V * V))) (w t : option Q) :
  evaluate_dataloader true threshold_evaluate (map Triplets bs) w t
  = match bs with
    | [] => Raised EmptyConcat
    | _ :: _ =>
        result_mat <- reshape_triplet
                        (positive_rows (concat bs) ++ negative_rows (concat bs)) ;;
        scores <- evaluate threshold_evaluate result_mat 100 w t ;;
        Returned (mk_output result_mat
                    (Loss.fdiv (Loss.fsum (counted_losses (map Triplets bs)))
                       (Loss.Fin (inject_Z (Z.of_nat (List.length bs)))))
                    scores)
    end.
Proof.
  unfold HitEvalLoader.evaluate_dataloader. rewrite batch_loop_triplets. simpl.
  destruct bs as [|b bs]; [reflexivity|].
  destruct (triplet_results_filtered (b :: bs)) as [Hp Hn].
  change (torch_concat (flat_map (fun b0 => [positive_rows b0; negative_rows b0]) (b :: bs)))
    with (Returned (concat (flat_map (fun b0 => [positive_rows b0; negative_rows b0])
                              (b :: bs)))).
  cbn [bind].
  rewrite (reshape_triplet_ext _
             (positive_rows (concat (b :: bs)) ++ negative_rows (concat (b :: bs)))).
  - rewrite length_map. reflexivity.
  - rewrite Hp, filter_app.
    rewrite filter_positive_rows by (intros r ->; reflexivity).
    rewrite filter_negative_rows_none by (intros r ->; reflexivity).
    now rewrite app_nil_r.
  - rewrite Hn, filter_app.
    rewrite filter_positive_rows_none by (intros r ->; reflexivity).
    rewrite filter_negative_rows by (intros r ->; reflexivity). reflexivity.
Qed.

(** X7.  In triplet mode the result matrix and the scores depend on the triplets
    of all batches put end to end, not on how they are cut into batches: the
    reshaping sees their positive rows followed by their negative rows. *)
Theorem triplet_pass (bs : list (list (V * V * V))) (w t : option Q) :
  evaluate_dataloader true threshold_evaluate (map Triplets bs) w t
  = match bs with
    | [] => Raised EmptyConcat
    | _ :: _ =>
        result_mat <- reshape_triplet
                        (positive_rows (concat bs) ++ negative_rows (concat bs)) ;;
        scores <- evaluate threshold_evaluate result_mat 100 w t ;;
        Returned (mk_output result_mat
                    (Loss.fdiv (Loss.fsum (counted_losses (map Triplets bs)))
                       (Loss.Fin (inject_Z (Z.of_nat (List.length bs)))))
                    scores)
    end.
Proof. apply triplet_pass_eq. Qed.

(** *** Triplets in groups of ten *)

Lemma every_nth_from_skip (n : nat) (l rest : matrix) :
  every_nth_from n (List.length l) (l ++ rest) = every_nth_from n 0 rest.
Proof. induction l as [|x l IH]; simpl; [reflexivity | exact IH]. Qed.

Lemma every_nth_from_skip_len (n k : nat) (l rest : matrix) :
  List.length l = k -> every_nth_from n k (l ++ rest) = every_nth_from n 0 rest.
Proof. intros <-. apply every_nth_from_skip. Qed.

Lemma flat_map_map {A B C : Type} (f : B -> list C) (g : A -> B) (l : list A) :
  flat_map f (map g l) = flat_map (fun x => f (g x)) l.
Proof. induction l as [|x l IH]; simpl; [reflexivity | now rewrite IH]. Qed.

(** Slices of ten over chunks of ten rows are the chunks, and the rows kept
    from the positives go in front of them. *)
Lemma regroup_chunks (cs : list (row * matrix)) :
  (forall c, In c cs -> List.length (snd c) = 10%nat) ->
  concat (flat_map (fun i => [ firstn 1 (skipn i (map fst cs));
                               py_slice (10 * i) (10 * (i + 1)) (concat (map snd cs)) ])
                   (seq 0 (List.length cs)))
  = flat_map (fun c => fst c :: snd c) cs.
Proof.
  induction cs as [|c cs IH]; intros Hlen; [reflexivity|].
  assert (Hc : List.length (snd c) = 10%nat) by (apply Hlen; now left).
  change (seq 0 (List.length (c :: cs))) with (0%nat :: seq 1 (List.length cs)).
  rewrite <- seq_shift.
  change (flat_map ?f (0%nat :: ?l)) with (f 0%nat ++ flat_map f l).
  rewrite concat_app, flat_map_map.
  rewrite (flat_map_ext _
             (fun i => [ firstn 1 (skipn i (map fst cs));
                         py_slice (10 * i) (10 * (i + 1)) (concat (map snd cs)) ])).
  - rewrite IH by (intros c' Hc'; apply Hlen; now right).
    unfold py_slice. cbn [map concat skipn Nat.mul Nat.add Nat.sub app].
    change (10 * 1 - 0)%nat with 10%nat.
    change (skipn 0 (snd c ++ concat (map snd cs))) with (snd c ++ concat (map snd cs)).
    rewrite firstn_app, Hc, Nat.sub_diag, firstn_O, app_nil_r.
    rewrite <- Hc at 1. rewrite firstn_all, app_nil_r. reflexivity.
  - intros i. f_equal. f_equal. unfold py_slice.
    replace (10 * (S i + 1) - 10 * S i)%nat with 10%nat by lia.
    replace (10 * (i + 1) - 10 * i)%nat with 10%nat by lia.
    f_equal. change (concat (map snd (c :: cs))) with (snd c ++ concat (map snd cs)).
    rewrite skipn_app, Hc.
    rewrite skipn_all2 by lia.
    simpl app. f_equal. lia.
Qed.

Section Children.

Variable children : list (V * V * list V).
Hypothesis ten_negatives :
  forall a p negatives, In (a, p, negatives) children -> List.length negatives = 10%nat.

(** The positive row and the negative rows of a child. *)
Local Abbreviation grouped :=
  (map (fun c => (hd (mk_row 0 0 0 0) (child_rows c), tl (child_rows c))) children).

Lemma kept_positive_rows :
  every_nth 10 (positive_rows (flat_map child_triplets children)) = map fst grouped.
Proof.
  unfold every_nth. induction children as [|[[a p] negs] cs IH]; [reflexivity|].
  assert (Hn : List.length negs = 10%nat) by (apply (ten_negatives a p); now left).
  cbn [flat_map map fst]. unfold HitEvalLoader.positive_rows in *.
  rewrite map_app. destruct negs as [|n negs]; [discriminate|].
  cbn [HitEvalLoader.child_triplets map app every_nth_from Nat.pred].
  unfold HitEvalLoader.child_triplets in IH.
  rewrite every_nth_from_skip_len by (rewrite !length_map; simpl in Hn; lia).
  f_equal. apply IH. intros a' p' negs' Hin. apply (ten_negatives a' p'). now right.
Qed.

Lemma all_negative_rows :
  negative_rows (flat_map child_triplets children) = concat (map snd grouped).
Proof.
  induction children as [|[[a p] negs] cs IH]; [reflexivity|].
  cbn [flat_map map snd concat]. unfold HitEvalLoader.negative_rows in *.
  rewrite map_app. f_equal.
  - unfold HitEvalLoader.child_triplets. cbn [HitEvalLoader.child_rows tl].
    rewrite map_map. reflexivity.
  - apply IH. intros a' p' negs' Hin. apply (ten_negatives a' p'). now right.
Qed.

Lemma grouped_rows : flat_map (fun c => fst c :: snd c) grouped = flat_map child_rows children.
Proof.
  rewrite flat_map_concat_map, map_map, <- flat_map_concat_map.
  apply flat_map_ext. intros [[a p] negs]. reflexivity.
Qed.

Lemma reshape_of_ten :
  children <> [] ->
  reshape_triplet (positive_rows (flat_map child_triplets children)
                   ++ negative_rows (flat_map child_triplets children))
  = Returned (flat_map child_rows children).
Proof.
  intros Hne. unfold reshape_triplet.
  assert (Hpos : positive_mat (positive_rows (flat_map child_triplets children)
                               ++ negative_rows (flat_map child_triplets children))
                 = map fst grouped).
  { unfold positive_mat. rewrite filter_app.
    rewrite filter_positive_rows by (intros r ->; reflexivity).
    rewrite filter_negative_rows_none by (intros r ->; reflexivity).
    rewrite app_nil_r. apply kept_positive_rows. }
  assert (Hneg : negative_mat (positive_rows (flat_map child_triplets children)
                               ++ negative_rows (flat_map child_triplets children))
                 = concat (map snd grouped)).
  { unfold negative_mat. rewrite filter_app.
    rewrite filter_positive_rows_none by (intros r ->; reflexivity).
    rewrite filter_negative_rows by (intros r ->; reflexivity).
    apply all_negative_rows. }
  assert (Hreal : concat (real_mat (positive_rows (flat_map child_triplets children)
                                    ++ negative_rows (flat_map child_triplets children)))
                  = flat_map child_rows children).
  { unfold real_mat. rewrite Hpos, Hneg, length_map, <- grouped_rows.
    apply regroup_chunks. intros c Hc. apply in_map_iff in Hc.
    destruct Hc as [[[a p] negs] [<- Hin]]. simpl. rewrite length_map.
    now apply (ten_negatives a p). }
  unfold torch_concat.
  destruct (real_mat _) as [|m ms] eqn:Hr.
  - exfalso. apply real_mat_nil in Hr. rewrite Hpos in Hr.
    destruct children; [congruence | discriminate].
  - now rewrite <- Hreal.
Qed.

(** X8.  For triplets that come ten per child in data order, cut into batches in
    any way, the pass evaluates the rows in evaluation order: for each child
    its positive row once, then its ten negative rows. *)
Theorem triplets_of_ten_are_regrouped (bs : list (list (V * V * V))) (w t : option Q) :
  children <> [] ->
  concat bs = flat_map child_triplets children ->
  evaluate_dataloader true threshold_evaluate (map Triplets bs) w t
  = (scores <- evaluate threshold_evaluate (flat_map child_rows children) 100 w t ;;
     Returned (mk_output (flat_map child_rows children)
                 (Loss.fdiv (Loss.fsum (counted_losses (map Triplets bs)))
                    (Loss.Fin (inject_Z (Z.of_nat (List.length bs)))))
                 scores)).
Proof.
  intros Hne Hbs. rewrite triplet_pass_eq.
  destruct bs as [|b bs].
  - exfalso. simpl in Hbs. destruct children as [|[[a p] negs] cs]; [congruence|].
    assert (Hn : List.length negs = 10%nat) by (apply (ten_negatives a p); now left).
    destruct negs; discriminate.
  - rewrite Hbs, (reshape_of_ten Hne). reflexivity.
Qed.

End Children.

End Pass.

(** *** [__call__] *)

Section Call.

Variable V : Type.
Variable dist : V -> V -> Q.
Variable dist0 : V -> Q.
Variable loss_module : batch V -> Loss.tfloat.
Variable triplet : bool.
Variable threshold_evaluate : tensor -> tensor -> Q -> metrics.

Local Abbreviation evaluate_dataloader :=
  (evaluate_dataloader V dist dist0 loss_module triplet threshold_evaluate).
Local Abbreviation call := (call V dist dist0 loss_module triplet threshold_evaluate).

(** The hyperparameters reach a pass only in its last step, the call of
    [evaluate] on the result matrix. *)
Lemma pass_then_evaluate (batches : list (batch V)) (w t : option Q) (o : loader_output) :
  evaluate_dataloader batches w t = Returned o ->
  evaluate threshold_evaluate (out_mat o) 100 w t = Returned (out_scores o) /\
  forall w' t' s,
    evaluate threshold_evaluate (out_mat o) 100 w' t' = Returned s ->
    evaluate_dataloader batches w' t' = Returned (mk_output (out_mat o) (out_loss o) s).
Proof.
  unfold HitEvalLoader.evaluate_dataloader. intros H.
  destruct (batch_loop V dist dist0 loss_module triplet batches [] (Loss.Fin 0))
    as [[results acc]|e]; [|discriminate].
  simpl in *. destruct (torch_concat results) as [m|e]; [|discriminate]. simpl in *.
  destruct (if triplet then reshape_triplet m else Returned m) as [m'|e]; [|discriminate].
  simpl in *.
  destruct (evaluate threshold_evaluate m' 100 w t) as [s|e] eqn:Hs; [|discriminate].
  simpl in H. injection H as <-. simpl. split; [assumption|].
  intros w' t' s' ->. reflexivity.
Qed.

(** X9.  When [__call__] returns a value, it is the F1 of the scores found on the
    validation loader, and the validation output is among the saved ones:
    the test pass never changes the value. *)
Theorem call_returns_validation_F1
    (train test : option (list (batch V))) (val : list (batch V))
    (saved : list (string * loader_output)) (f : Q) :
  call train val test = (saved, inr f) ->
  exists o r,
    evaluate_dataloader val None None = Returned o /\
    out_scores o = Some r /\
    f = F1 (scores_at r) /\
    In ("val"%string, o) saved.
Proof.
  unfold HitEvalLoader.call. intros H.
  destruct (match loader_given V train with
            | Some batches =>
                match evaluate_dataloader batches None None with
                | Returned o => inr [("train"%string, o)]
                | Raised e => inl e
                end
            | None => inr []
            end) as [e|saved0]; [discriminate|].
  destruct (evaluate_dataloader val None None) as [o|e]; [|discriminate].
  destruct (match loader_given V test with
            | Some batches => _
            | None => inr []
            end) as [e|saved_test]; [discriminate|].
  destruct (out_scores o) as [r|] eqn:Hr; [|discriminate].
  injection H as <- <-. exists o, r.
  split; [reflexivity|]. split; [exact Hr|]. split; [reflexivity|].
  apply in_or_app. left. apply in_or_app. right. now left.
Qed.

(** X10.  When the search on the validation loader finds nothing, [__call__] saves
    the validation output and fails with a TypeError, with or without a test
    loader. *)
Theorem call_without_validation_scores
    (test : option (list (batch V))) (val : list (batch V)) (o : loader_output) :
  evaluate_dataloader val None None = Returned o ->
  out_scores o = None ->
  call None val test = ([("val"%string, o)], inl TypeError).
Proof.
  intros Hval Hnone. unfold HitEvalLoader.call. simpl. rewrite Hval, Hnone.
  destruct (loader_given V test); reflexivity.
Qed.

End Call.

(** *** Concrete runs *)

Local Abbreviation example_pass :=
  (evaluate_dataloader Q line_dist line_dist0 example_loss_module).
Local Abbreviation example_call :=
  (call Q line_dist line_dist0 example_loss_module false threshold_evaluate_model).

Lemma example_pair_pass :
  example_pass false threshold_evaluate_model example_pair_batches None None
  = Returned example_pair_output.
Proof. vm_compute. reflexivity. Qed.

Lemma one_pair_pass :
  example_pass false threshold_evaluate_model one_pair_batches None None
  = Returned one_pair_output.
Proof. vm_compute. reflexivity. Qed.

Lemma reported_loss_witness :
  example_pass false threshold_evaluate_model example_pair_batches None None
  = Returned example_pair_output /\
  out_loss example_pair_output
  = Loss.fdiv
      (Loss.fsum (filter (fun x => negb (Loss.is_nan x))
                    (map example_loss_module example_pair_batches)))
      (Loss.Fin (inject_Z (Z.of_nat (List.length example_pair_batches)))).
Proof.
  split; [exact example_pair_pass|].
  apply (reported_loss_counts_skipped_batches Q line_dist line_dist0 example_loss_module
           threshold_evaluate_model false example_pair_batches None None).
  exact example_pair_pass.
Defined.

Lemma triplets_of_ten_witness :
  (forall a p negatives,
     In (a, p, negatives) example_children -> List.length negatives = 10%nat) /\
  example_children <> [] /\
  concat example_triplet_batches = flat_map (child_triplets Q) example_children /\
  example_pass true threshold_evaluate_model (map Triplets example_triplet_batches)
    None None
  = (scores <- evaluate threshold_evaluate_model
                 (flat_map (child_rows Q line_dist line_dist0) example_children)
                 100 None None ;;
     Returned (mk_output (flat_map (child_rows Q line_dist line_dist0) example_children)
                 (Loss.fdiv
                    (Loss.fsum (filter (fun x => negb (Loss.is_nan x))
                                  (map example_loss_module
                                     (map Triplets example_triplet_batches))))
                    (Loss.Fin (inject_Z (Z.of_nat (List.length example_triplet_batches)))))
                 scores)).
Proof.
  assert (Hten : forall a p negatives,
             In (a, p, negatives) example_children -> List.length negatives = 10%nat).
  { intros a p negatives [E | []]. injection E as <- <- <-. reflexivity. }
  split; [exact Hten|]. split; [discriminate|]. split; [reflexivity|].
  apply (triplets_of_ten_are_regrouped Q line_dist line_dist0 example_loss_module
           threshold_evaluate_model example_children Hten example_triplet_batches
           None None); [discriminate | reflexivity].
Defined.

Lemma call_returns_validation_F1_witness :
  example_call None example_pair_batches None = ([("val"%string, example_pair_output)], inr 1)
  /\ exists o r,
       example_pass false threshold_evaluate_model example_pair_batches None None
       = Returned o /\
       out_scores o = Some r /\
       1 = F1 (scores_at r) /\
       In ("val"%string, o) [("val"%string, example_pair_output)].
Proof.
  assert (H : example_call None example_pair_batches None
              = ([("val"%string, example_pair_output)], inr 1))
    by (vm_compute; reflexivity).
  split; [exact H|].
  apply (call_returns_validation_F1 Q line_dist line_dist0 example_loss_module false
           threshold_evaluate_model None None example_pair_batches
           [("val"%string, example_pair_output)] 1).
  exact H.
Defined.

Lemma call_without_validation_scores_witness :
  example_pass false threshold_evaluate_model one_pair_batches None None
  = Returned one_pair_output /\
  out_scores one_pair_output = None /\
  example_call None one_pair_batches (Some example_pair_batches)
  = ([("val"%string, one_pair_output)], inl TypeError).
Proof.
  split; [exact one_pair_pass|]. split; [reflexivity|].
  apply (call_without_validation_scores Q line_dist line_dist0 example_loss_module false
           threshold_evaluate_model (Some example_pair_batches) one_pair_batches
           one_pair_output); [exact one_pair_pass | reflexivity].
Defined.

End HitEvalLoaderFacts.

(** ** More on the hyperbolic loss *)

Module LossMore.
Import Loss LossFacts LossTerms.

Lemma combine_map_same {A B C : Type} (f : A -> B) (g : A -> C) (l : list A) :
  combine (map f l) (map g l) = map (fun x => (f x, g x)) l.
Proof. induction l as [|x l IH]; simpl; [reflexivity | now rewrite IH]. Qed.

Lemma combine_map_self {A B : Type} (g : A -> B) (l : list A) :
  combine l (map g l) = map (fun x => (x, g x)) l.
Proof. induction l as [|x l IH]; simpl; [reflexivity | now rewrite IH]. Qed.

Section ByExample.

Context {M : TorchMath}.
Variable self : HyperbolicLoss.

Lemma forward_by_example_eq (examples : list example) :
  forward self [map anchor_of examples; map other_of examples] (map label_of examples)
  = Returned (forward_by_example self examples).
Proof.
  unfold forward, hyper_norms.
  do 12 run_bmap2.
  unfold origin.
  repeat (rewrite combine_map_same || rewrite combine_map_self || rewrite map_map).
  reflexivity.
Qed.

(** X12.  On the tensors of a batch of examples, [forward] raises nothing and
    returns the loss by example. *)
Theorem forward_is_by_example (examples : list example) :
  forward self [map anchor_of examples; map other_of examples] (map label_of examples)
  = Returned (forward_by_example self examples).
Proof. apply forward_by_example_eq. Qed.

End ByExample.

(** *** A pair of identical embeddings *)

Lemma fold_fadd_nan (t : tensor) : fold_left fadd t NaN = NaN.
Proof. induction t as [|x t IH]; simpl; [reflexivity | exact IH]. Qed.

Lemma fsum_nan (t : tensor) : In NaN t -> fsum t = NaN.
Proof.
  unfold fsum. generalize (Fin 0). induction t as [|x t IH]; intros acc Hin; [destruct Hin|].
  simpl. destruct Hin as [-> | Hin].
  - rewrite fadd_nan_r. apply fold_fadd_nan.
  - now apply IH.
Qed.

Section Degenerate.

Context {M : TorchMath}.
Hypothesis laws : TorchMathLaws M.
Variable self : HyperbolicLoss.

Lemma cone_term_same_point (l : Z) (v : vec) :
  finite_vec v -> cone_term self (l, v, v) = NaN.
Proof.
  intros Hv. unfold cone_term, energy. cbn [anchor_of other_of label_of fst snd].
  assert (Hangle : cone_angle_at_u v v = NaN).
  { unfold cone_angle_at_u. apply (farccos_domain M laws).
    now apply cone_angle_argument_same_point. }
  rewrite Hangle. reflexivity.
Qed.

(** X13.  One example whose anchor and other embedding are the same finite vector
    makes the loss of the whole batch not-a-number, whatever the labels, the
    weights and the other examples. *)
Theorem identical_pair_gives_nan (examples : list example) (l : Z) (v : vec) :
  In (l, v, v) examples ->
  finite_vec v ->
  forward self [map anchor_of examples; map other_of examples] (map label_of examples)
  = Returned NaN.
Proof.
  intros Hin Hv. rewrite forward_by_example_eq. unfold forward_by_example.
  assert (Hcone : fmean (map (cone_term self) examples) = NaN).
  { unfold fmean. rewrite fsum_nan; [reflexivity|].
    apply in_map_iff. exists (l, v, v). split; [now apply cone_term_same_point | assumption]. }
  now rewrite Hcone, fmul_nan_r, fadd_nan_r.
Qed.

End Degenerate.

Lemma identical_pair_witness :
  In (0%Z, point_c, point_c) degenerate_batch /\
  finite_vec point_c /\
  @forward coarse_math example_loss
    [map anchor_of degenerate_batch; map other_of degenerate_batch]
    (map label_of degenerate_batch)
  = Returned NaN.
Proof.
  split; [right; now left|]. split; [repeat constructor|].
  apply (identical_pair_gives_nan coarse_math_laws example_loss degenerate_batch 0%Z point_c);
    [right; now left | repeat constructor].
Defined.

(** *** The half aperture is defined *)

Section Aperture.

Context {M : TorchMath}.
Variable self : HyperbolicLoss.

(** [half_cone_aperture] is arcsin of [aperture_argument]. *)
Lemma half_cone_aperture_argument (tip : vec) :
  half_cone_aperture self tip = farcsin (aperture_argument self tip).
Proof. reflexivity. Qed.


End Aperture.



(** *** The loss is never negative *)

Lemma nn_of_finite (x : tfloat) : nonneg_finite x -> not_negative x.
Proof. intros [q [-> Hq]]. exact Hq. Qed.

Lemma nn_signed_inf (a : Q) : 0 <= a -> not_negative (signed_inf true a).
Proof.
  intros Ha. unfold signed_inf. destruct (a ?= 0) eqn:E; simpl; try exact I.
  apply Qlt_alt in E. now apply (Qlt_not_le _ _ E).
Qed.

Lemma nn_add (x y : tfloat) : not_negative x -> not_negative y -> not_negative (fadd x y).
Proof.
  destruct x as [a| | |], y as [b| | |]; simpl; try tauto.
  intros Ha Hb. setoid_replace 0 with (0 + 0) by reflexivity. now apply Qplus_le_compat.
Qed.

Lemma nn_mul (x y : tfloat) : not_negative x -> not_negative y -> not_negative (fmul x y).
Proof.
  destruct x as [a| | |], y as [b| | |]; simpl; try tauto;
    try (intros Ha _; now apply nn_signed_inf);
    try (intros _ Hb; now apply nn_signed_inf).
  intros Ha Hb. now apply Qmult_le_0_compat.
Qed.

Lemma nn_square (x : tfloat) : not_negative (fsquare x).
Proof.
  destruct x as [q| | |]; simpl; try exact I.
  destruct (Qlt_le_dec q 0) as [Hneg | Hpos].
  - setoid_replace (q * q) with ((- q) * (- q)) by ring.
    assert (0 <= - q).
    { apply Qlt_le_weak in Hneg. apply Qopp_le_compat in Hneg. exact Hneg. }
    now apply Qmult_le_0_compat.
  - now apply Qmult_le_0_compat.
Qed.

Lemma nn_relu (x : tfloat) : not_negative (relu x).
Proof.
  destruct x as [q| | |]; simpl; try exact I; [apply Q.le_max_l | apply Qle_refl].
Qed.

Lemma nn_div (x y : tfloat) : not_negative x -> not_negative y -> not_negative (fdiv x y).
Proof.
  destruct x as [a| | |], y as [b| | |]; simpl; try tauto; try (intros; apply Qle_refl).
  - intros Ha Hb. destruct (Qeq_bool b 0) eqn:E; [now apply nn_signed_inf|].
    simpl. apply Qle_shift_div_l; [|now rewrite Qmult_0_l].
    destruct (Qlt_le_dec 0 b) as [H | H]; [exact H|].
    assert (Eb : b == 0) by now apply Qle_antisym.
    apply Qeq_eq_bool in Eb. congruence.
  - intros _ Hb. destruct (Qlt_le_dec b 0) as [H | H]; [|exact I].
    now apply (Qlt_not_le _ _ H).
Qed.

Lemma nn_fsum (t : tensor) : Forall not_negative t -> not_negative (fsum t).
Proof.
  unfold fsum. assert (H0 : not_negative (Fin 0)) by apply Qle_refl.
  revert H0. generalize (Fin 0).
  induction t as [|x t IH]; intros acc Hacc Hall; simpl; [exact Hacc|].
  inversion Hall; subst. apply IH; [now apply nn_add | assumption].
Qed.

Lemma nn_fmean (t : tensor) : Forall not_negative t -> not_negative (fmean t).
Proof.
  intros Hall. unfold fmean. apply nn_div; [now apply nn_fsum|].
  simpl. change 0 with (inject_Z 0). rewrite <- Zle_Qle. lia.
Qed.

Lemma nn_label (l : Z) : l = 0%Z \/ l = 1%Z -> not_negative (Fin (inject_Z l)).
Proof. intros [-> | ->]; simpl; discriminate. Qed.

Lemma nn_one_minus_label (l : Z) :
  l = 0%Z \/ l = 1%Z -> not_negative (Fin (inject_Z (1 - l))).
Proof. intros [-> | ->]; simpl; discriminate. Qed.

Section NeverNegative.

Context {M : TorchMath}.
Variable self : HyperbolicLoss.

(** X15.  For labels 0 and 1 and weights that are finite and not negative, the
    loss is never a negative number and never minus infinity, whatever the
    distances, the norms and the energies are (not-a-number and infinities
    included): it is a finite number that is not negative, plus infinity, or
    not-a-number. *)
Theorem loss_is_never_negative (examples : list example) :
  (forall e, In e examples -> label_of e = 0%Z \/ label_of e = 1%Z) ->
  nonneg_finite (weight_cluster self) ->
  nonneg_finite (weight_centri self) ->
  nonneg_finite (weight_cone self) ->
  exists loss,
    forward self [map anchor_of examples; map other_of examples] (map label_of examples)
    = Returned loss /\ not_negative loss.
Proof.
  intros Hlab Hwc Hwce Hwco.
  rewrite forward_by_example_eq. eexists. split; [reflexivity|].
  unfold forward_by_example.
  assert (Hcluster : not_negative (fmean (map (cluster_term self) examples))).
  { apply nn_fmean, Forall_map, Forall_forall. intros e He. unfold cluster_term.
    apply nn_mul; [simpl; discriminate|].
    apply nn_add; apply nn_mul;
      solve [now apply nn_label, Hlab | now apply nn_one_minus_label, Hlab
            | apply nn_square]. }
  assert (Hcone : not_negative (fmean (map (cone_term self) examples))).
  { apply nn_fmean, Forall_map, Forall_forall. intros e He. unfold cone_term.
    apply nn_add; apply nn_mul;
      solve [now apply nn_label, Hlab | now apply nn_one_minus_label, Hlab
            | apply nn_square]. }
  assert (Hcentri : not_negative
            (fdiv (fsum (map (centri_term self) examples))
                  (fsum (map (fun e => Fin (inject_Z (label_of e))) examples)))).
  { apply nn_div; apply nn_fsum, Forall_map, Forall_forall; intros e He.
    - unfold centri_term. apply nn_mul; [now apply nn_label, Hlab | apply nn_relu].
    - now apply nn_label, Hlab. }
  apply nn_add; [apply nn_add|]; apply nn_mul;
    solve [now apply nn_of_finite | assumption].
Qed.

End NeverNegative.

Lemma loss_is_never_negative_witness :
  (forall e, In e example_batch -> label_of e = 0%Z \/ label_of e = 1%Z) /\
  nonneg_finite (weight_cluster example_loss) /\
  nonneg_finite (weight_centri example_loss) /\
  nonneg_finite (weight_cone example_loss) /\
  exists loss,
    @forward coarse_math example_loss
      [map anchor_of example_batch; map other_of example_batch]
      (map label_of example_batch)
    = Returned loss /\ not_negative loss.
Proof.
  assert (H2 : forall e, In e example_batch -> label_of e = 0%Z \/ label_of e = 1%Z)
    by (intros e [<- | [<- | []]]; [now right | now left]).
  assert (Hw : nonneg_finite (Fin 1)) by (exists 1; split; [reflexivity | discriminate]).
  split; [exact H2|]. split; [exact Hw|]. split; [exact Hw|]. split; [exact Hw|].
  apply (@loss_is_never_negative coarse_math example_loss example_batch H2 Hw Hw Hw).
Defined.

End LossMore.

(** ** More on the reconstruction evaluator *)

Module ReconstructMore.
Import Reconstruct ReconstructData ReconstructFacts.

(** *** The rank dictionary *)

Lemma combine_map_diag {A B : Type} (f : A -> B) (l : list A) :
  combine l (map f l) = map (fun x => (x, f x)) l.
Proof. induction l as [|x l IH]; simpl; [reflexivity | now rewrite IH]. Qed.

(** The rank of a hypernym, as a function of the hypernym. *)
Lemma get_hypernym_ranks_map (graph : HypernymGraph) (kv : PoincareKeyedVectors)
    (e : entity) :
  get_hypernym_ranks graph kv e
  = map (fun h => (h, (count_less
                         (distances kv e (set_minus (entities graph) (get_hypernyms graph e)))
                         (distance kv e h) + 1)%Z))
        (get_hypernyms graph e).
Proof.
  unfold get_hypernym_ranks. destruct (get_hypernyms graph e) as [|h hs] eqn:Hh;
    [reflexivity|].
  change (distances kv e (h :: hs)) with (map (distance kv e) (h :: hs)).
  rewrite combine_map_diag, map_map. reflexivity.
Qed.

Lemma count_less_bounds (ds : list Q) (d : Q) :
  (0 <= count_less ds d <= Z.of_nat (List.length ds))%Z.
Proof.
  unfold count_less. split; [lia|]. apply inj_le. apply filter_length_le.
Qed.

Lemma ranks_bounds (graph : HypernymGraph) (kv : PoincareKeyedVectors)
    (e : entity) :
  map fst (get_hypernym_ranks graph kv e) = get_hypernyms graph e
  /\ forall h r, In (h, r) (get_hypernym_ranks graph kv e) ->
       (1 <= r)%Z /\
       (set_minus (entities graph) (get_hypernyms graph e) <> [] ->
        (r <= 1 + Z.of_nat (List.length
                              (set_minus (entities graph) (get_hypernyms graph e))))%Z).
Proof.
  rewrite get_hypernym_ranks_map. split.
  - rewrite map_map. simpl. apply map_id.
  - intros h r Hin. apply in_map_iff in Hin. destruct Hin as [h' [E _]].
    injection E as -> <-.
    pose proof (count_less_bounds
                  (distances kv e (set_minus (entities graph) (get_hypernyms graph e)))
                  (distance kv e h)) as [Hlo Hhi].
    split; [lia|]. intros Hrest.
    assert (Hlen : List.length
                     (distances kv e (set_minus (entities graph) (get_hypernyms graph e)))
                   = List.length (set_minus (entities graph) (get_hypernyms graph e))).
    { unfold distances. destruct (set_minus _ _); [congruence | apply length_map]. }
    rewrite Hlen in Hhi. lia.
Qed.

(** X16.  The keys of the rank dictionary are the hypernyms, in their order; every
    rank is at least 1, and at most one more than the number of entities
    that are not hypernyms (when there is such an entity). *)
Theorem ranks_keys_and_bounds (graph : HypernymGraph) (kv : PoincareKeyedVectors)
    (e : entity) :
  map fst (get_hypernym_ranks graph kv e) = get_hypernyms graph e
  /\ forall h r, In (h, r) (get_hypernym_ranks graph kv e) ->
       (1 <= r)%Z /\
       (set_minus (entities graph) (get_hypernyms graph e) <> [] ->
        (r <= 1 + Z.of_nat (List.length
                              (set_minus (entities graph) (get_hypernyms graph e))))%Z).
Proof. apply ranks_bounds. Qed.

Lemma filter_length_mono {A : Type} (f g : A -> bool) (l : list A) :
  (forall x, f x = true -> g x = true) ->
  (List.length (filter f l) <= List.length (filter g l))%nat.
Proof.
  intros H. induction l as [|x l IH]; simpl; [lia|].
  destruct (f x) eqn:Hf.
  - rewrite (H x Hf). simpl. lia.
  - destruct (g x); simpl; lia.
Qed.

(** X17.  A hypernym that is not farther from the entity than another one has a
    rank that is not worse. *)
Theorem closer_hypernym_ranks_no_worse (graph : HypernymGraph)
    (kv : PoincareKeyedVectors) (e h1 h2 : entity) (r1 r2 : Z) :
  In (h1, r1) (get_hypernym_ranks graph kv e) ->
  In (h2, r2) (get_hypernym_ranks graph kv e) ->
  distance kv e h1 <= distance kv e h2 ->
  (r1 <= r2)%Z.
Proof.
  rewrite get_hypernym_ranks_map. intros H1 H2 Hd.
  apply in_map_iff in H1, H2.
  destruct H1 as [h1' [E1 _]], H2 as [h2' [E2 _]].
  injection E1 as -> <-. injection E2 as -> <-.
  unfold count_less. apply Zplus_le_compat_r, inj_le, filter_length_mono.
  intros x Hx. destruct (Qlt_le_dec x (distance kv e h1)) as [Hlt|]; [|discriminate].
  destruct (Qlt_le_dec x (distance kv e h2)) as [|Hle]; [reflexivity|].
  exfalso. apply (Qlt_irrefl x).
  apply Qlt_le_trans with (distance kv e h1); [assumption|].
  now apply Qle_trans with (distance kv e h2).
Qed.

Lemma closer_hypernym_witness :
  In ("b"%string, 2%Z) (get_hypernym_ranks closed_chain_graph chain_embeddings "a"%string) /\
  In ("c"%string, 2%Z) (get_hypernym_ranks closed_chain_graph chain_embeddings "a"%string) /\
  distance chain_embeddings "a"%string "b"%string
    <= distance chain_embeddings "a"%string "c"%string /\
  (2 <= 2)%Z.
Proof.
  assert (Hb : In ("b"%string, 2%Z)
                 (get_hypernym_ranks closed_chain_graph chain_embeddings "a"%string))
    by (vm_compute; now left).
  assert (Hc : In ("c"%string, 2%Z)
                 (get_hypernym_ranks closed_chain_graph chain_embeddings "a"%string))
    by (vm_compute; right; now left).
  assert (Hd : distance chain_embeddings "a"%string "b"%string
               <= distance chain_embeddings "a"%string "c"%string)
    by (vm_compute; discriminate).
  split; [exact Hb|]. split; [exact Hc|]. split; [exact Hd|].
  exact (closer_hypernym_ranks_no_worse closed_chain_graph chain_embeddings
           "a"%string "b"%string "c"%string 2 2 Hb Hc Hd).
Defined.

(** *** Sorting *)

Lemma insert_sorted_In (x y : Z) (l : list Z) :
  In y (insert_sorted x l) <-> y = x \/ In y l.
Proof.
  induction l as [|z l IH]; simpl.
  - split; intros [H | H]; auto.
  - destruct (x <=? z)%Z; simpl.
    + split; intros [H | H]; auto.
    + rewrite IH. split; intros H; intuition.
Qed.

Lemma np_sort_In (y : Z) (l : list Z) : In y (np_sort l) <-> In y l.
Proof.
  induction l as [|x l IH]; simpl; [reflexivity|].
  rewrite insert_sorted_In, IH. split; intros [H | H]; auto.
Qed.

Lemma insert_sorted_length (x : Z) (l : list Z) :
  List.length (insert_sorted x l) = S (List.length l).
Proof.
  induction l as [|z l IH]; simpl; [reflexivity|].
  destruct (x <=? z)%Z; simpl; [reflexivity | now rewrite IH].
Qed.

Lemma np_sort_length (l : list Z) : List.length (np_sort l) = List.length l.
Proof.
  induction l as [|x l IH]; simpl; [reflexivity|].
  now rewrite insert_sorted_length, IH.
Qed.

Lemma insert_sorted_sorted (x : Z) (l : list Z) :
  StronglySorted Z.le l -> StronglySorted Z.le (insert_sorted x l).
Proof.
  induction 1 as [|z l Hs IH Hall]; simpl.
  - constructor; constructor.
  - destruct (x <=? z)%Z eqn:E.
    + apply Z.leb_le in E. constructor; [now constructor|].
      constructor; [assumption|].
      eapply Forall_impl; [|exact Hall]. intros; lia.
    + apply Z.leb_gt in E. constructor; [assumption|].
      apply Forall_forall. intros y Hy. apply insert_sorted_In in Hy.
      destruct Hy as [-> | Hy]; [lia|]. rewrite Forall_forall in Hall. now apply Hall.
Qed.

Lemma np_sort_sorted (l : list Z) : StronglySorted Z.le (np_sort l).
Proof.
  induction l as [|x l IH]; simpl; [constructor | now apply insert_sorted_sorted].
Qed.

Lemma insert_sorted_least (x : Z) (l : list Z) :
  Forall (Z.le x) l -> insert_sorted x l = x :: l.
Proof.
  destruct l as [|z l]; simpl; [reflexivity|].
  intros H. inversion H; subst.
  destruct (x <=? z)%Z eqn:E; [reflexivity|]. apply Z.leb_gt in E. lia.
Qed.

(** Sorting a sorted list changes nothing. *)
Lemma np_sort_id (l : list Z) : StronglySorted Z.le l -> np_sort l = l.
Proof.
  induction 1 as [|x l Hs IH Hall]; simpl; [reflexivity|].
  rewrite IH. now apply insert_sorted_least.
Qed.

Lemma insert_sorted_comm (x y : Z) (l : list Z) :
  insert_sorted x (insert_sorted y l) = insert_sorted y (insert_sorted x l).
Proof.
  induction l as [|z l IH]; simpl.
  - destruct (x <=? y)%Z eqn:E1, (y <=? x)%Z eqn:E2; try reflexivity.
    + apply Z.leb_le in E1, E2. now replace y with x by lia.
    + apply Z.leb_gt in E1, E2. lia.
  - destruct (y <=? z)%Z eqn:Ey, (x <=? z)%Z eqn:Ex; simpl;
      rewrite ?Ex, ?Ey; try reflexivity.
    + destruct (x <=? y)%Z eqn:E1, (y <=? x)%Z eqn:E2; try reflexivity.
      * apply Z.leb_le in E1, E2. now replace y with x by lia.
      * apply Z.leb_gt in E1, E2. lia.
    + destruct (x <=? y)%Z eqn:E1; [|reflexivity].
      apply Z.leb_le in E1, Ey. apply Z.leb_gt in Ex. lia.
    + destruct (y <=? x)%Z eqn:E1; [|reflexivity].
      apply Z.leb_le in E1, Ex. apply Z.leb_gt in Ey. lia.
    + now rewrite IH.
Qed.

Lemma np_sort_perm (l l' : list Z) : Permutation l l' -> np_sort l = np_sort l'.
Proof.
  induction 1 as [| x l l' _ IH | x y l | l l' l'' _ IH1 _ IH2]; simpl.
  - reflexivity.
  - now rewrite IH.
  - apply insert_sorted_comm.
  - now rewrite IH1.
Qed.

(** *** Average precision *)

Lemma np_arange_S (a : Z) (n : nat) : np_arange a (S n) = a :: np_arange (a + 1) n.
Proof.
  unfold np_arange. cbn [seq map]. rewrite <- seq_shift, map_map. f_equal; [lia|].
  apply map_ext. intros i. lia.
Qed.

Lemma Qnat_S (n : nat) :
  inject_Z (Z.of_nat (S n)) == inject_Z (Z.of_nat n) + 1.
Proof. rewrite Nat2Z.inj_succ, <- Z.add_1_r, inject_Z_plus. reflexivity. Qed.

Lemma sum_le_length (l : list Q) : forall a,
  Forall (fun p => p <= 1) l ->
  fold_left Qplus l a <= a + inject_Z (Z.of_nat (List.length l)).
Proof.
  induction l as [|p l IH]; intros a Hall.
  - simpl. rewrite Qplus_0_r. apply Qle_refl.
  - inversion Hall; subst. cbn [fold_left List.length].
    eapply Qle_trans; [apply IH; assumption|].
    rewrite Qnat_S, <- Qplus_assoc. apply Qplus_le_r.
    rewrite (Qplus_comm _ 1). now apply Qplus_le_l.
Qed.

Lemma sum_ge_start (l : list Q) : forall a,
  Forall (fun p => 0 < p) l -> a <= fold_left Qplus l a.
Proof.
  induction l as [|p l IH]; intros a Hall; [apply Qle_refl|].
  inversion Hall; subst. cbn [fold_left].
  eapply Qle_trans; [|apply IH; assumption].
  setoid_replace a with (a + 0) at 1 by ring. apply Qplus_le_r. now apply Qlt_le_weak.
Qed.

Lemma sum_positive (l : list Q) :
  l <> [] -> Forall (fun p => 0 < p) l -> 0 < fold_left Qplus l 0.
Proof.
  destruct l as [|p l]; [congruence|]. intros _ Hall. inversion Hall; subst.
  cbn [fold_left]. apply Qlt_le_trans with (0 + p).
  - now rewrite Qplus_0_l.
  - now apply sum_ge_start.
Qed.

Lemma sum_full_all_one (l : list Q) : forall a,
  Forall (fun p => p <= 1) l ->
  a + inject_Z (Z.of_nat (List.length l)) <= fold_left Qplus l a ->
  Forall (fun p => p == 1) l.
Proof.
  induction l as [|p l IH]; intros a Hall Hsum; [constructor|].
  inversion Hall as [|? ? Hp Hl]; subst. cbn [fold_left List.length] in Hsum.
  pose proof (sum_le_length l (a + p) Hl) as Hup.
  rewrite Qnat_S in Hsum.
  assert (Hp1 : 1 <= p).
  { assert (H : a + (inject_Z (Z.of_nat (List.length l)) + 1)
                <= a + p + inject_Z (Z.of_nat (List.length l)))
      by (eapply Qle_trans; eassumption).
    apply Qle_minus_iff in H. apply Qle_minus_iff.
    setoid_replace (a + p + inject_Z (Z.of_nat (List.length l))
                    + - (a + (inject_Z (Z.of_nat (List.length l)) + 1)))
      with (p + - (1)) in H by ring.
    exact H. }
  assert (Hpe : p == 1) by (now apply Qle_antisym).
  constructor; [assumption|].
  apply (IH (a + p)); [assumption|].
  eapply Qle_trans; [|exact Hsum]. rewrite Hpe, <- Qplus_assoc.
  apply Qplus_le_r. rewrite Qplus_comm. apply Qle_refl.
Qed.

Lemma sum_all_one (l : list Q) : forall a,
  Forall (fun p => p == 1) l ->
  fold_left Qplus l a == a + inject_Z (Z.of_nat (List.length l)).
Proof.
  induction l as [|p l IH]; intros a Hall.
  - simpl. now rewrite Qplus_0_r.
  - inversion Hall as [|? ? Hp Hl]; subst. cbn [fold_left List.length].
    rewrite IH by assumption. rewrite Hp, Qnat_S. ring.
Qed.

(** The mean of numbers in (0, 1] is in (0, 1], and it is 1 only when all
    of them are. *)
Lemma np_mean_unit (l : list Q) :
  l <> [] ->
  Forall (fun p => 0 < p /\ p <= 1) l ->
  exists m, np_mean l = Some m /\ 0 < m /\ m <= 1 /\
            (m == 1 <-> Forall (fun p => p == 1) l).
Proof.
  intros Hne Hall.
  assert (Hpos : Forall (fun p => 0 < p) l)
    by (eapply Forall_impl; [|exact Hall]; now intros p [? ?]).
  assert (Hle : Forall (fun p => p <= 1) l)
    by (eapply Forall_impl; [|exact Hall]; now intros p [? ?]).
  assert (Hn : 0 < inject_Z (Z.of_nat (List.length l))).
  { change 0 with (inject_Z 0). rewrite <- Zlt_Qlt. destruct l; [congruence | simpl; lia]. }
  unfold np_mean. destruct l as [|p l']; [congruence|].
  set (l := p :: l') in *. eexists. split; [reflexivity|].
  rewrite Qred_correct.
  pose proof (sum_le_length l 0 Hle) as Hup. rewrite Qplus_0_l in Hup.
  split; [|split; [|split]].
  - apply Qlt_shift_div_l; [assumption|]. rewrite Qmult_0_l. now apply sum_positive.
  - apply Qle_shift_div_r; [assumption|]. now rewrite Qmult_1_l.
  - intros Hone. apply (sum_full_all_one l 0 Hle). rewrite Qplus_0_l.
    assert (H : fold_left Qplus l 0 == 1 * inject_Z (Z.of_nat (List.length l))).
    { rewrite <- Hone. field. intros E. rewrite E in Hn. discriminate. }
    rewrite H, Qmult_1_l. apply Qle_refl.
  - intros Hones. rewrite (sum_all_one l 0 Hones), Qplus_0_l. field.
    intros E. rewrite E in Hn. discriminate.
Qed.

(** The adjusted ranks of sorted ranks, from the position [a] on, and the
    precisions at the positions [b], [b + 1], ... *)
Local Abbreviation adjusted s a :=
  (map (fun '(r, i) => (r + i)%Z) (combine s (np_arange a (List.length s)))).
Local Abbreviation precisions_from m b :=
  (map (fun '(i, r) => inject_Z i / inject_Z r) (combine (np_arange b (List.length m)) m)).

Lemma adjusted_length (s : list Z) (a : Z) : List.length (adjusted s a) = List.length s.
Proof.
  rewrite length_map, length_combine. unfold np_arange. rewrite length_map, length_seq. lia.
Qed.

Lemma adjusted_cons (x : Z) (s : list Z) (a : Z) :
  adjusted (x :: s) a = (x + a)%Z :: adjusted s (a + 1).
Proof. cbn [List.length]. rewrite np_arange_S. reflexivity. Qed.

Lemma adjusted_In (s : list Z) : forall a y,
  In y (adjusted s a) -> exists r, In r s /\ (r + a <= y)%Z.
Proof.
  induction s as [|x s IH]; intros a y Hin; [destruct Hin|].
  rewrite adjusted_cons in Hin. destruct Hin as [<- | Hin].
  - exists x. split; [now left | lia].
  - destruct (IH _ _ Hin) as [r [Hr Hle]]. exists r. split; [now right | lia].
Qed.

Lemma adjusted_sorted (s : list Z) : forall a,
  StronglySorted Z.le s -> StronglySorted Z.le (adjusted s a).
Proof.
  induction s as [|x s IH]; intros a Hs; [constructor|].
  rewrite adjusted_cons. inversion Hs as [|? ? Hs' Hall]; subst.
  constructor; [now apply IH|].
  apply Forall_forall. intros y Hy. apply adjusted_In in Hy.
  destruct Hy as [r [Hr Hle]]. rewrite Forall_forall in Hall.
  specialize (Hall r Hr). lia.
Qed.

Lemma precisions_unit (s : list Z) : forall a,
  (0 <= a)%Z ->
  Forall (fun r => (1 <= r)%Z) s ->
  Forall (fun p => 0 < p /\ p <= 1) (precisions_from (adjusted s a) (a + 1)%Z)
  /\ (Forall (fun p => p == 1) (precisions_from (adjusted s a) (a + 1)%Z)
      <-> Forall (fun r => r = 1%Z) s).
Proof.
  induction s as [|x s IH]; intros a Ha Hall.
  - split; [constructor|]. split; constructor.
  - inversion Hall as [|? ? Hx Hs]; subst.
    rewrite adjusted_cons. cbn [List.length]. rewrite np_arange_S.
    cbn [combine map].
    destruct (IH (a + 1)%Z ltac:(lia) Hs) as [IHu IHe].
    assert (Hden : 0 < inject_Z (x + a))
      by (change 0 with (inject_Z 0); rewrite <- Zlt_Qlt; lia).
    assert (Hhead : 0 < inject_Z (a + 1) / inject_Z (x + a)
                    /\ inject_Z (a + 1) / inject_Z (x + a) <= 1).
    { split.
      - apply Qlt_shift_div_l; [assumption|]. rewrite Qmult_0_l.
        change 0 with (inject_Z 0). rewrite <- Zlt_Qlt. lia.
      - apply Qle_shift_div_r; [assumption|]. rewrite Qmult_1_l.
        rewrite <- Zle_Qle. lia. }
    assert (Hone : inject_Z (a + 1) / inject_Z (x + a) == 1 <-> x = 1%Z).
    { split.
      - intros E.
        assert (E' : inject_Z (a + 1) == inject_Z (x + a)).
        { rewrite <- (Qmult_1_l (inject_Z (x + a))), <- E. field.
          intros Z0. rewrite Z0 in Hden. discriminate. }
        apply (proj1 (inject_Z_injective (a + 1) (x + a))) in E'. lia.
      - intros ->. replace (1 + a)%Z with (a + 1)%Z by lia. field.
        intros Z0. replace (1 + a)%Z with (a + 1)%Z in Hden by lia.
        rewrite Z0 in Hden. discriminate. }
    split.
    + constructor; assumption.
    + split.
      * intros H. inversion H as [|? ? Hp Hrest]; subst.
        constructor; [now apply Hone | now apply IHe].
      * intros H. inversion H as [|? ? Hp Hrest]; subst.
        constructor; [now apply Hone | now apply IHe].
Qed.

(** The average precision, in terms of the ranks. *)
Lemma average_precision_of_ranks (graph : HypernymGraph) (kv : PoincareKeyedVectors)
    (e : entity) :
  get_hypernym_average_precision graph kv e
  = match get_hypernym_ranks graph kv e with
    | [] => None
    | _ :: _ =>
        let ranks := map snd (get_hypernym_ranks graph kv e) in
        match np_mean (precisions_from (adjusted (np_sort ranks) 0) 1%Z) with
        | Some ap => Some (ap, ranks)
        | None => None
        end
    end.
Proof.
  unfold get_hypernym_average_precision.
  destruct (get_hypernym_ranks graph kv e) as [|hr rest]; [reflexivity|].
  cbv zeta. set (ranks := map snd (hr :: rest)).
  rewrite <- (np_sort_length ranks).
  rewrite (np_sort_id (adjusted (np_sort ranks) 0))
    by (apply adjusted_sorted, np_sort_sorted).
  reflexivity.
Qed.

Lemma average_precision_cases (graph : HypernymGraph) (kv : PoincareKeyedVectors)
    (e : entity) :
  match get_hypernym_average_precision graph kv e with
  | None => get_hypernyms graph e = []
  | Some (ap, ranks) =>
      get_hypernyms graph e <> [] /\
      ranks = map snd (get_hypernym_ranks graph kv e) /\
      0 < ap /\ ap <= 1 /\
      (ap == 1 <-> Forall (fun r => r = 1%Z) ranks)
  end.
Proof.
  rewrite average_precision_of_ranks.
  pose proof (ranks_bounds graph kv e) as [Hkeys Hbounds].
  destruct (get_hypernym_ranks graph kv e) as [|hr rest] eqn:Hranks.
  - now rewrite <- Hkeys.
  - cbv zeta. set (ranks := map snd (hr :: rest)).
    assert (Hge : Forall (fun r => (1 <= r)%Z) (np_sort ranks)).
    { apply Forall_forall. intros r Hr. apply (proj1 (np_sort_In _ _)) in Hr.
      unfold ranks in Hr. apply in_map_iff in Hr. destruct Hr as [[h r'] [<- Hin]].
      now apply (Hbounds h r'). }
    destruct (precisions_unit (np_sort ranks) 0 ltac:(lia) Hge) as [Hunit Hones].
    destruct (np_mean_unit (precisions_from (adjusted (np_sort ranks) 0) 1%Z))
      as [m [-> [H0 [H1 Hiff]]]].
    + assert (Hlen : List.length (precisions_from (adjusted (np_sort ranks) 0) 1%Z)
                     = S (List.length rest)).
      { rewrite length_map, length_combine. unfold np_arange at 1.
        rewrite length_map, length_seq, Nat.min_id, adjusted_length, np_sort_length.
        unfold ranks. now rewrite length_map. }
      intros E. rewrite E in Hlen. discriminate.
    + exact Hunit.
    + split; [rewrite <- Hkeys; discriminate|]. split; [reflexivity|].
      split; [assumption|]. split; [assumption|].
      rewrite Hiff. change (0 + 1)%Z with 1%Z in Hones. rewrite Hones.
      split; intros H; apply Forall_forall; intros r Hr; rewrite Forall_forall in H;
        apply H; now apply np_sort_In.
Qed.

(** X18.  An entity without hypernyms has no average precision; otherwise the
    average precision lies in (0, 1], and it is 1 exactly when every
    hypernym has rank 1. *)
Theorem average_precision_range (graph : HypernymGraph) (kv : PoincareKeyedVectors)
    (e : entity) :
  match get_hypernym_average_precision graph kv e with
  | None => get_hypernyms graph e = []
  | Some (ap, ranks) =>
      get_hypernyms graph e <> [] /\
      ranks = map snd (get_hypernym_ranks graph kv e) /\
      0 < ap /\ ap <= 1 /\
      (ap == 1 <-> Forall (fun r => r = 1%Z) ranks)
  end.
Proof. apply average_precision_cases. Qed.

(** X19.  Where the entity itself is counted among the entities that are not
    hypernyms (it belongs to the graph, is not its own hypernym, and every
    hypernym is at a positive distance), the average precision stays below
    1. *)
Theorem average_precision_below_one (graph : HypernymGraph) (kv : PoincareKeyedVectors)
    (e : entity) (ap : Q) (ranks : list Z) :
  In e (entities graph) ->
  ~ In e (get_hypernyms graph e) ->
  (forall f, In f (get_hypernyms graph e) -> distance kv e e < distance kv e f) ->
  get_hypernym_average_precision graph kv e = Some (ap, ranks) ->
  ap < 1.
Proof.
  intros He Hself Hpos Hap.
  pose proof (average_precision_cases graph kv e) as H. rewrite Hap in H.
  destruct H as [Hne [Hranks [_ [Hle Hiff]]]].
  destruct (Qle_lt_or_eq _ _ Hle) as [Hlt | Heq]; [assumption|exfalso].
  apply Hiff in Heq. subst ranks.
  pose proof (ranks_bounds graph kv e) as [Hkeys _].
  destruct (get_hypernym_ranks graph kv e) as [|[h r] rest] eqn:Hr;
    [now rewrite <- Hkeys in Hne|].
  simpl in Heq. inversion Heq as [|? ? Hone _]; subst.
  assert (H2 : (2 <= 1)%Z); [|lia].
  apply (rank_counts_the_entity_itself graph kv e h 1 He Hself Hpos).
  rewrite Hr. now left.
Qed.

Lemma average_precision_below_one_witness :
  In "a"%string (entities chain_graph) /\
  ~ In "a"%string (get_hypernyms chain_graph "a"%string) /\
  (forall f, In f (get_hypernyms chain_graph "a"%string) ->
             distance chain_embeddings "a"%string "a"%string
             < distance chain_embeddings "a"%string f) /\
  get_hypernym_average_precision chain_graph chain_embeddings "a"%string
  = Some (1 # 2, [2%Z]) /\
  1 # 2 < 1.
Proof.
  assert (H1 : In "a"%string (entities chain_graph)) by (now left).
  assert (H2 : ~ In "a"%string (get_hypernyms chain_graph "a"%string))
    by (intros [E | []]; discriminate).
  assert (H3 : forall f, In f (get_hypernyms chain_graph "a"%string) ->
                 distance chain_embeddings "a"%string "a"%string
                 < distance chain_embeddings "a"%string f)
    by (intros f [<- | []]; reflexivity).
  assert (H4 : get_hypernym_average_precision chain_graph chain_embeddings "a"%string
               = Some (1 # 2, [2%Z])) by (vm_compute; reflexivity).
  split; [exact H1|]. split; [exact H2|]. split; [exact H3|]. split; [exact H4|].
  exact (average_precision_below_one chain_graph chain_embeddings "a"%string
           (1 # 2) [2%Z] H1 H2 H3 H4).
Defined.

(** *** The order of sets does not matter *)

Lemma mem_perm (x : entity) (s1 s2 : list entity) :
  Permutation s1 s2 -> mem x s1 = mem x s2.
Proof.
  intros Hp. destruct (mem x s1) eqn:E1, (mem x s2) eqn:E2; try reflexivity.
  - apply mem_In in E1. apply (Permutation_in _ Hp) in E1.
    apply mem_In in E1. congruence.
  - apply mem_In in E2. apply (Permutation_in _ (Permutation_sym Hp)) in E2.
    apply mem_In in E2. congruence.
Qed.

Lemma set_minus_perm (xs1 xs2 s1 s2 : list entity) :
  (forall x, In x xs1 <-> In x xs2) -> Permutation s1 s2 ->
  Permutation (set_minus xs1 s1) (set_minus xs2 s2).
Proof.
  intros Hxs Hs. apply NoDup_Permutation.
  - apply NoDup_filter, NoDup_nodup.
  - apply NoDup_filter, NoDup_nodup.
  - intros x. rewrite !In_set_minus, Hxs. split; intros [H1 H2]; split; try assumption;
      intros H; apply H2.
    + now apply (Permutation_in _ (Permutation_sym Hs)).
    + now apply (Permutation_in _ Hs).
Qed.

Lemma distances_perm (kv : PoincareKeyedVectors) (e : entity) (l1 l2 : list entity) :
  Permutation l1 l2 -> Permutation (distances kv e l1) (distances kv e l2).
Proof.
  intros Hp. unfold distances. destruct l1 as [|x1 l1].
  - apply Permutation_nil in Hp. subst. apply Permutation_refl.
  - destruct l2 as [|x2 l2].
    + apply Permutation_sym, Permutation_nil in Hp. discriminate.
    + now apply Permutation_map.
Qed.

Lemma count_less_perm (ds1 ds2 : list Q) (d : Q) :
  Permutation ds1 ds2 -> count_less ds1 d = count_less ds2 d.
Proof.
  intros Hp. unfold count_less. f_equal.
  induction Hp as [| x l l' _ IH | x y l | l l' l'' _ IH1 _ IH2]; simpl.
  - reflexivity.
  - destruct (Qlt_le_dec x d); simpl; now rewrite IH.
  - destruct (Qlt_le_dec x d), (Qlt_le_dec y d); reflexivity.
  - now rewrite IH1.
Qed.

(** X20.  The ranks and the average precision do not depend on the order in which
    the hypernyms of the entity and the entities of the graph are listed. *)
Theorem ranks_do_not_depend_on_order (g1 g2 : HypernymGraph)
    (kv : PoincareKeyedVectors) (e : entity) :
  (forall x, In x (entities g1) <-> In x (entities g2)) ->
  Permutation (get_hypernyms g1 e) (get_hypernyms g2 e) ->
  Permutation (get_hypernym_ranks g1 kv e) (get_hypernym_ranks g2 kv e)
  /\ option_map fst (get_hypernym_average_precision g1 kv e)
     = option_map fst (get_hypernym_average_precision g2 kv e).
Proof.
  intros Hent Hhyp.
  assert (Hperm : Permutation (get_hypernym_ranks g1 kv e) (get_hypernym_ranks g2 kv e)).
  { rewrite !get_hypernym_ranks_map.
    rewrite (map_ext
               (fun h => (h, (count_less
                                (distances kv e
                                   (set_minus (entities g2) (get_hypernyms g2 e)))
                                (distance kv e h) + 1)%Z))
               (fun h => (h, (count_less
                                (distances kv e
                                   (set_minus (entities g1) (get_hypernyms g1 e)))
                                (distance kv e h) + 1)%Z))).
    - now apply Permutation_map.
    - intros h. f_equal. f_equal. apply count_less_perm, distances_perm.
      apply set_minus_perm; [intros x; symmetry; apply Hent | now apply Permutation_sym]. }
  split; [exact Hperm|].
  rewrite !average_precision_of_ranks. cbv zeta.
  pose proof (np_sort_perm _ _ (Permutation_map snd Hperm)) as Hsort.
  destruct (get_hypernym_ranks g1 kv e) as [|hr1 r1] eqn:E1.
  - apply Permutation_nil in Hperm. now rewrite Hperm.
  - destruct (get_hypernym_ranks g2 kv e) as [|hr2 r2] eqn:E2.
    + apply Permutation_sym, Permutation_nil in Hperm. discriminate.
    + rewrite Hsort.
      destruct (np_mean _); reflexivity.
Qed.

Lemma ranks_order_witness :
  (forall x, In x (entities closed_chain_graph) <-> In x (entities reordered_chain_graph)) /\
  Permutation (get_hypernyms closed_chain_graph "a"%string)
              (get_hypernyms reordered_chain_graph "a"%string) /\
  Permutation (get_hypernym_ranks closed_chain_graph chain_embeddings "a"%string)
              (get_hypernym_ranks reordered_chain_graph chain_embeddings "a"%string)
  /\ option_map fst (get_hypernym_average_precision closed_chain_graph chain_embeddings
                       "a"%string)
     = option_map fst (get_hypernym_average_precision reordered_chain_graph
                         chain_embeddings "a"%string).
Proof.
  assert (H1 : forall x, In x (entities closed_chain_graph)
                         <-> In x (entities reordered_chain_graph)).
  { intros x. simpl. split; intros H; repeat destruct H as [H | H]; auto. }
  assert (H2 : Permutation (get_hypernyms closed_chain_graph "a"%string)
                           (get_hypernyms reordered_chain_graph "a"%string))
    by apply perm_swap.
  split; [exact H1|]. split; [exact H2|].
  exact (ranks_do_not_depend_on_order closed_chain_graph reordered_chain_graph
           chain_embeddings "a"%string H1 H2).
Defined.

(** *** The statistics over the graph *)

Lemma sum_ge_length (l : list Q) : forall a,
  Forall (fun p => 1 <= p) l ->
  a + inject_Z (Z.of_nat (List.length l)) <= fold_left Qplus l a.
Proof.
  induction l as [|p l IH]; intros a Hall.
  - simpl. rewrite Qplus_0_r. apply Qle_refl.
  - inversion Hall; subst. cbn [fold_left List.length].
    eapply Qle_trans; [|apply IH; assumption].
    rewrite Qnat_S, <- Qplus_assoc. apply Qplus_le_r.
    rewrite (Qplus_comm _ 1). now apply Qplus_le_l.
Qed.

Lemma np_mean_nil (l : list Q) : np_mean l = None <-> l = [].
Proof. destruct l; simpl; split; congruence. Qed.

Lemma np_mean_ge_one (l : list Q) (m : Q) :
  Forall (fun p => 1 <= p) l -> np_mean l = Some m -> 1 <= m.
Proof.
  intros Hall Hm. destruct l as [|p l']; [discriminate|].
  set (l := p :: l') in *.
  change (np_mean l)
    with (Some (Qred (fold_left Qplus l 0 / inject_Z (Z.of_nat (List.length l))))) in Hm.
  assert (E : Qred (fold_left Qplus l 0 / inject_Z (Z.of_nat (List.length l))) = m)
    by congruence.
  rewrite <- E, Qred_correct.
  assert (Hn : 0 < inject_Z (Z.of_nat (List.length l)))
    by (change 0 with (inject_Z 0); rewrite <- Zlt_Qlt; simpl; lia).
  apply Qle_shift_div_l; [assumption|]. rewrite Qmult_1_l.
  pose proof (sum_ge_length l 0 Hall) as H. now rewrite Qplus_0_l in H.
Qed.

(** X21.  Over the graph, the entities without hypernyms are left out: if no
    entity has a hypernym both statistics are undefined; otherwise the mean
    rank is at least 1 and the MAP lies in (0, 1]. *)
Theorem graph_statistics_range (graph : HypernymGraph) (kv : PoincareKeyedVectors) :
  match evaluate_hypernym_mean_rank_and_AP graph kv with
  | (Some mean_rank, Some MAP) =>
      (exists e, In e (entities graph) /\ get_hypernyms graph e <> []) /\
      1 <= mean_rank /\ 0 < MAP /\ MAP <= 1
  | (None, None) => forall e, In e (entities graph) -> get_hypernyms graph e = []
  | _ => False
  end.
Proof.
  unfold evaluate_hypernym_mean_rank_and_AP. cbv zeta.
  set (results := map (get_hypernym_average_precision graph kv) (entities graph)).
  set (all_ranks := flat_map (fun r => match r with
                                       | Some (_, ranks) => ranks
                                       | None => []
                                       end) results).
  set (all_aps := flat_map (fun r => match r with
                                     | Some (ap, _) => [ap]
                                     | None => []
                                     end) results).
  assert (Hres : forall r, In r results ->
            exists e, In e (entities graph) /\
                      r = get_hypernym_average_precision graph kv e).
  { intros r Hr. unfold results in Hr. apply in_map_iff in Hr.
    destruct Hr as [e [<- He]]. eauto. }
  assert (Haps : Forall (fun p => 0 < p /\ p <= 1) all_aps).
  { apply Forall_forall. intros p Hp. unfold all_aps in Hp. apply in_flat_map in Hp.
    destruct Hp as [r [Hr Hp]]. destruct (Hres r Hr) as [e [_ ->]].
    pose proof (average_precision_cases graph kv e) as H.
    destruct (get_hypernym_average_precision graph kv e) as [[ap ranks]|]; [|destruct Hp].
    destruct Hp as [<- | []]. tauto. }
  assert (Hranks : Forall (fun p => 1 <= p) (map inject_Z all_ranks)).
  { apply Forall_map, Forall_forall. intros r Hr. unfold all_ranks in Hr.
    apply in_flat_map in Hr. destruct Hr as [x [Hx Hr]]. destruct (Hres x Hx) as [e [_ ->]].
    pose proof (average_precision_cases graph kv e) as H.
    destruct (get_hypernym_average_precision graph kv e) as [[ap ranks]|]; [|destruct Hr].
    destruct H as [_ [-> _]]. apply in_map_iff in Hr. destruct Hr as [[h r'] [<- Hin]].
    pose proof (ranks_bounds graph kv e) as [_ Hb].
    destruct (Hb h r' Hin) as [H1 _]. simpl.
    change 1 with (inject_Z 1). now rewrite <- Zle_Qle. }
  assert (Hsome : forall e, In e (entities graph) -> get_hypernyms graph e <> [] ->
            all_aps <> [] /\ all_ranks <> []).
  { intros e He Hne.
    pose proof (average_precision_cases graph kv e) as H.
    destruct (get_hypernym_average_precision graph kv e) as [[ap ranks]|] eqn:Hap;
      [|contradiction].
    destruct H as [_ [Hr _]].
    assert (Hin : In (Some (ap, ranks)) results)
      by (unfold results; apply in_map_iff; eauto).
    split.
    - intros E. assert (Hp : In ap all_aps)
        by (unfold all_aps; apply in_flat_map; exists (Some (ap, ranks)); split;
            [assumption | now left]).
      rewrite E in Hp. destruct Hp.
    - pose proof (ranks_bounds graph kv e) as [Hkeys _].
      destruct ranks as [|r ranks'].
      + exfalso. apply Hne. rewrite <- Hkeys.
        destruct (get_hypernym_ranks graph kv e); [reflexivity | discriminate].
      + intros E. assert (Hp : In r all_ranks)
          by (unfold all_ranks; apply in_flat_map; exists (Some (ap, r :: ranks')); split;
              [assumption | now left]).
        rewrite E in Hp. destruct Hp. }
  assert (Hnone : all_aps = [] ->
            forall e, In e (entities graph) -> get_hypernyms graph e = []).
  { intros E e He. destruct (get_hypernyms graph e) as [|h hs] eqn:Hh; [reflexivity|].
    exfalso. destruct (Hsome e He) as [Hn _]; [rewrite Hh; discriminate | contradiction]. }
  assert (Hboth : all_aps = [] <-> all_ranks = []).
  { split; intros E.
    - destruct all_ranks as [|r rs] eqn:Er; [reflexivity|exfalso].
      assert (Hr : In r all_ranks) by (rewrite Er; now left).
      unfold all_ranks in Hr. apply in_flat_map in Hr. destruct Hr as [x [Hx Hr]].
      destruct x as [[ap ranks]|]; [|destruct Hr].
      assert (Hp : In ap all_aps)
        by (unfold all_aps; apply in_flat_map; exists (Some (ap, ranks)); split;
            [assumption | now left]).
      rewrite E in Hp. destruct Hp.
    - destruct all_aps as [|p ps] eqn:Ep; [reflexivity|exfalso].
      assert (Hp : In p all_aps) by (rewrite Ep; now left).
      unfold all_aps in Hp. apply in_flat_map in Hp. destruct Hp as [x [Hx Hp]].
      destruct (Hres x Hx) as [e [He ->]].
      destruct (get_hypernyms graph e) as [|h hs] eqn:Hh.
      + pose proof (average_precision_cases graph kv e) as H.
        destruct (get_hypernym_average_precision graph kv e) as [[ap ranks]|];
          [|destruct Hp]. destruct H as [H _]. contradiction.
      + destruct (Hsome e He) as [_ Hn]; [rewrite Hh; discriminate | contradiction]. }
  destruct (np_mean (map inject_Z all_ranks)) as [mr|] eqn:Hmr;
    destruct (np_mean all_aps) as [mp|] eqn:Hmp.
  - assert (Hne : all_aps <> []) by (intros E; rewrite E in Hmp; discriminate).
    destruct (np_mean_unit all_aps Hne Haps) as [m [Hm [H0 [H1 _]]]].
    rewrite Hmp in Hm. injection Hm as <-.
    split; [|split; [now apply (np_mean_ge_one _ _ Hranks) | split; assumption]].
    destruct all_aps as [|p ps] eqn:Ep; [congruence|].
    assert (Hp : In p all_aps) by (rewrite Ep; now left).
    unfold all_aps in Hp. apply in_flat_map in Hp. destruct Hp as [x [Hx Hp]].
    destruct (Hres x Hx) as [e [He ->]]. exists e. split; [assumption|].
    pose proof (average_precision_cases graph kv e) as H.
    destruct (get_hypernym_average_precision graph kv e) as [[ap ranks]|];
      [|destruct Hp]. tauto.
  - apply np_mean_nil in Hmp. apply Hboth in Hmp.
    rewrite Hmp in Hmr. discriminate.
  - apply np_mean_nil in Hmr. apply map_eq_nil in Hmr. apply Hboth in Hmr.
    rewrite Hmr in Hmp. discriminate.
  - apply np_mean_nil in Hmp. now apply Hnone.
Qed.

End ReconstructMore.

(** ** The example generator *)

Module UtilsFacts.
Import Utils.

Section Generator.

Variable name : string -> string.

Local Abbreviation sample_examples := (sample_examples name).
Local Abbreviation example_generator := (example_generator name).
Local Abbreviation negatives_of := (negatives_of name).

Lemma fold_left_app_flat_map {A B : Type} (f : A -> list B) (l : list A) : forall acc,
  fold_left (fun acc x => acc ++ f x) l acc = acc ++ flat_map f l.
Proof.
  induction l as [|x l IH]; intros acc; simpl.
  - now rewrite app_nil_r.
  - now rewrite IH, app_assoc.
Qed.

(** The examples are those of the samples, in the order of the dataset. *)
Lemma example_generator_flat_map (dataset : list sample) (hard trip : bool) :
  example_generator dataset hard trip = flat_map (sample_examples hard trip) dataset.
Proof. unfold Utils.example_generator. now rewrite fold_left_app_flat_map. Qed.

(** X22.  Every example of one call has the same number of texts, two for pairs
    and three for triplets, and only pairs carry the label 1. *)
Theorem examples_have_one_shape (dataset : list sample) (hard trip : bool) :
  Forall (fun ex => List.length (texts ex) = (if trip then 3 else 2)%nat /\
                    (label ex = 0%Z \/ (label ex = 1%Z /\ trip = false)))
         (example_generator dataset hard trip).
Proof.
  rewrite example_generator_flat_map. apply Forall_forall. intros ex Hin.
  apply in_flat_map in Hin. destruct Hin as [s [_ Hin]].
  unfold Utils.sample_examples in Hin. destruct trip; simpl in Hin.
  - apply in_map_iff in Hin. destruct Hin as [neg [<- _]]. simpl. auto.
  - destruct Hin as [<- | Hin]; [simpl; auto|].
    apply in_map_iff in Hin. destruct Hin as [neg [<- _]]. simpl. auto.
Qed.

Lemma filter_flat_map {A B : Type} (p : B -> bool) (f : A -> list B) (l : list A) :
  filter p (flat_map f l) = flat_map (fun x => filter p (f x)) l.
Proof.
  induction l as [|x l IH]; simpl; [reflexivity|]. now rewrite filter_app, IH.
Qed.

Lemma filter_map_none {A B : Type} (p : B -> bool) (f : A -> B) (l : list A) :
  (forall x, p (f x) = false) -> filter p (map f l) = [].
Proof.
  intros H. induction l as [|x l IH]; simpl; [reflexivity|]. now rewrite H.
Qed.

Lemma filter_map_all {A B : Type} (p : B -> bool) (f : A -> B) (l : list A) :
  (forall x, p (f x) = true) -> filter p (map f l) = map f l.
Proof.
  intros H. induction l as [|x l IH]; simpl; [reflexivity|]. now rewrite H, IH.
Qed.

Lemma flat_map_singleton {A B : Type} (f : A -> B) (l : list A) :
  flat_map (fun x => [f x]) l = map f l.
Proof. induction l as [|x l IH]; simpl; [reflexivity | now rewrite IH]. Qed.

(** X23.  In pair mode the examples with label 1 are the child-parent pairs of the
    samples, one per sample and in their order; the examples with label 0
    pair the child with each negative used. *)
Theorem positive_pairs_are_the_samples (dataset : list sample) (hard : bool) :
  filter (fun ex => (label ex =? 1)%Z) (example_generator dataset hard false)
  = map (fun s => mk_example [name (child s); name (parent s)] 1) dataset
  /\ filter (fun ex => (label ex =? 0)%Z) (example_generator dataset hard false)
     = flat_map (fun s => map (fun neg => mk_example [name (child s); neg] 0)
                              (negatives_of hard s)) dataset.
Proof.
  rewrite example_generator_flat_map, !filter_flat_map. split.
  - rewrite <- flat_map_singleton. apply flat_map_ext. intros s.
    unfold Utils.sample_examples. cbn [negb filter label Z.eqb Pos.eqb].
    now rewrite filter_map_none.
  - apply flat_map_ext. intros s.
    unfold Utils.sample_examples. cbn [negb filter label Z.eqb].
    now rewrite filter_map_all.
Qed.

(** X24.  With [hard_negative_first] a sample gives at most ten negatives, taken
    from the siblings first: the negatives are the first ten of the siblings
    followed by the negative parents, so with ten siblings or more no
    negative parent is used.  Without it the siblings are not used. *)
Theorem hard_negatives_are_capped (s : sample) :
  (List.length (negatives_of true s) <= 10)%nat
  /\ (exists rest, map name (siblings s) ++ map name (negative_parents s)
                   = negatives_of true s ++ rest)
  /\ ((10 <= List.length (siblings s))%nat ->
      negatives_of true s = firstn 10 (map name (siblings s)))
  /\ negatives_of false s = map name (negative_parents s).
Proof.
  unfold Utils.negatives_of. split; [apply firstn_le_length|]. split; [|split].
  - eexists. symmetry. apply firstn_skipn.
  - intros Hlen. rewrite firstn_app.
    replace (10 - List.length (map name (siblings s)))%nat with 0%nat
      by (rewrite length_map; lia).
    now rewrite firstn_O, app_nil_r.
  - reflexivity.
Qed.

(** X25.  In triplet mode with [hard_negative_first] and ten candidates or more
    (siblings and negative parents) in every sample, the examples come in
    blocks of exactly ten per sample: the block of the [i]-th sample is the
    slice from [10 i] to [10 (i + 1)], the child and the parent of the
    sample with each of its ten negatives. *)
Theorem triplets_come_in_tens (dataset : list sample) :
  (forall s, In s dataset ->
     (10 <= List.length (siblings s) + List.length (negative_parents s))%nat) ->
  List.length (example_generator dataset true true) = (10 * List.length dataset)%nat
  /\ forall i s, nth_error dataset i = Some s ->
       firstn 10 (skipn (10 * i) (example_generator dataset true true))
       = map (fun neg => mk_example [name (child s); name (parent s); neg] 0)
             (negatives_of true s)
       /\ List.length (negatives_of true s) = 10%nat.
Proof.
  intros Hten. rewrite example_generator_flat_map.
  assert (Hlen : forall s, In s dataset ->
            List.length (sample_examples true true s) = 10%nat).
  { intros s Hs. unfold Utils.sample_examples, Utils.negatives_of. cbn [negb].
    rewrite length_map, length_firstn, length_app, !length_map.
    specialize (Hten s Hs). lia. }
  split.
  - induction dataset as [|s ds IH]; [reflexivity|].
    cbn [flat_map List.length]. rewrite length_app, IH, Hlen; [lia | now left | |].
    + intros s' Hs'. apply Hten. now right.
    + intros s' Hs'. apply Hlen. now right.
  - revert Hlen. clear Hten. induction dataset as [|s0 ds IH]; intros Hlen i s Hnth.
    + destruct i; discriminate.
    + cbn [flat_map]. destruct i as [|i].
      * injection Hnth as <-. rewrite Nat.mul_0_r. cbn [skipn].
        rewrite firstn_app, Hlen by (now left).
        rewrite Nat.sub_diag, firstn_O, app_nil_r.
        rewrite <- (Hlen s0) at 1 by (now left). rewrite firstn_all.
        split; [reflexivity|].
        rewrite <- (Hlen s0) by (now left).
        unfold Utils.sample_examples. cbn [negb]. now rewrite length_map.
      * simpl in Hnth. rewrite skipn_app, Hlen by (now left).
        rewrite skipn_all2 by (rewrite Hlen by (now left); lia).
        replace (10 * S i - 10)%nat with (10 * i)%nat by lia. simpl app.
        apply IH; [|assumption]. intros s' Hs'. apply Hlen. now right.
Qed.

End Generator.

Lemma triplets_come_in_tens_witness :
  (forall s, In s example_dataset ->
     (10 <= List.length (siblings s) + List.length (negative_parents s))%nat) /\
  List.length (example_generator example_name example_dataset true true)
  = (10 * List.length example_dataset)%nat.
Proof.
  assert (H : forall s, In s example_dataset ->
            (10 <= List.length (siblings s) + List.length (negative_parents s))%nat).
  { intros s [<- | [<- | []]]; simpl; lia. }
  split; [exact H|].
  exact (proj1 (triplets_come_in_tens example_name example_dataset H)).
Defined.

End UtilsFacts.

(** ** The loss dictionary of the training script *)

Module TrialTripletFacts.
Import TrialTriplet.

Ltac qeq_cases :=
  repeat match goal with
         | H : Qeq_bool _ _ = true |- _ => apply Qeq_bool_eq in H
         | H : Qeq_bool _ _ = false |- _ => apply Qeq_bool_neq in H
         end.

(** X26.  The dictionary is keyed by the weights, so a loss survives only while no
    later loss has the same weight: the clustering loss is in the dictionary
    exactly when its weight is positive and differs from the positive
    weights of the centripetal and the cone loss. *)
Theorem clustering_loss_kept_iff (cluster centri cone : Q) :
  In ClusteringLoss (map snd (build_loss_dict cluster centri cone)) <->
  0 < cluster /\ ~ (0 < centri /\ cluster == centri) /\ ~ (0 < cone /\ cluster == cone).
Proof.
  unfold build_loss_dict.
  destruct (Qlt_le_dec 0 cluster) as [Hc | Hc],
           (Qlt_le_dec 0 centri) as [He | He],
           (Qlt_le_dec 0 cone) as [Ho | Ho];
    cbn [dict_set];
    repeat match goal with
           | |- context [Qeq_bool ?a ?b] => destruct (Qeq_bool a b) eqn:?; cbn [dict_set]
           end;
    qeq_cases; cbn [map snd In];
    (split;
     [ intros H; repeat destruct H as [H | H]; try discriminate; try contradiction;
       (split; [assumption|]); split; intros [H1 H2];
       try contradiction;
       try (apply (Qlt_irrefl 0); eapply Qlt_le_trans; eassumption)
     | intros [H1 [H2 H3]];
       try (exfalso; apply (Qlt_irrefl 0); eapply Qlt_le_trans; eassumption);
       try (exfalso; apply H2; split; assumption);
       try (exfalso; apply H3; split; assumption);
       auto ]).
Qed.

(** X27.  With the three weights equal and positive, only the cone loss is left. *)
Theorem equal_weights_keep_one_loss (w : Q) :
  0 < w -> build_loss_dict w w w = [(w, EntailmentConeLoss)].
Proof.
  intros Hw. unfold build_loss_dict.
  destruct (Qlt_le_dec 0 w) as [_ | Hle].
  - cbn [dict_set]. rewrite (Qeq_eq_bool w w (Qeq_refl w)). cbn [dict_set].
    now rewrite (Qeq_eq_bool w w (Qeq_refl w)).
  - exfalso. apply (Qlt_irrefl 0). now apply Qlt_le_trans with w.
Qed.

Lemma equal_weights_witness : 0 < 1 /\ build_loss_dict 1 1 1 = [(1, EntailmentConeLoss)].
Proof. split; [reflexivity|]. apply (equal_weights_keep_one_loss 1). reflexivity. Defined.

End TrialTripletFacts.

Module BinaryFacts.
Import Loss Binary.

Lemma two_nonzero : ~ 2 == 0.
Proof. discriminate. Qed.

Lemma pow2_pos (e : Z) : 0 < pow2 e.
Proof. apply Qpower_0_lt. reflexivity. Qed.

Lemma pow2_plus (a b : Z) : pow2 (a + b) == pow2 a * pow2 b.
Proof. apply Qpower_plus, two_nonzero. Qed.

Lemma pow2_minus (a b : Z) : pow2 (a - b) == pow2 a / pow2 b.
Proof. apply Qpower_minus, two_nonzero. Qed.

Lemma pow2_le (a b : Z) : (a <= b)%Z -> pow2 a <= pow2 b.
Proof. intros H. apply Qpower_le_compat_l; [exact H | discriminate]. Qed.

Lemma pow2_lt (a b : Z) : (a < b)%Z -> pow2 a < pow2 b.
Proof. intros H. apply Qpower_lt_compat_l; [exact H | reflexivity]. Qed.

Lemma pow2_lt_inv (a b : Z) : pow2 a < pow2 b -> (a < b)%Z.
Proof. intros H. eapply Qpower_lt_compat_l_inv; [exact H | reflexivity]. Qed.

Lemma pow2_inject (n : Z) : (0 <= n)%Z -> pow2 n == inject_Z (2 ^ n).
Proof. intros H. unfold pow2. now rewrite Zpower_Qpower. Qed.

Lemma pow2_succ (e : Z) : pow2 (e + 1) == 2 * pow2 e.
Proof. rewrite pow2_plus. change (pow2 1) with 2. ring. Qed.

(** *** The exponent of a positive number *)

Lemma Zfrac_lt (A B C D : Z) :
  (0 < B)%Z -> (0 < D)%Z -> (A * D < C * B)%Z ->
  inject_Z A / inject_Z B < inject_Z C / inject_Z D.
Proof.
  intros HB HD H.
  assert (HBq : 0 < inject_Z B) by (change 0 with (inject_Z 0); now rewrite <- Zlt_Qlt).
  assert (HDq : 0 < inject_Z D) by (change 0 with (inject_Z 0); now rewrite <- Zlt_Qlt).
  apply Qlt_shift_div_l; [exact HDq|].
  setoid_replace (inject_Z A / inject_Z B * inject_Z D)
    with (inject_Z (A * D) / inject_Z B)
    by (rewrite inject_Z_mult; field; intros E; rewrite E in HBq; discriminate).
  apply Qlt_shift_div_r; [exact HBq|].
  rewrite <- inject_Z_mult. now rewrite <- Zlt_Qlt.
Qed.

Lemma ilog2_spec (x : Q) :
  0 < x -> pow2 (ilog2 x) <= x /\ x < pow2 (ilog2 x + 1).
Proof.
  intros Hx. destruct x as [n d].
  assert (Hn : (0 < n)%Z).
  { unfold Qlt in Hx. simpl in Hx. lia. }
  unfold ilog2. cbn [Qnum Qden].
  set (a := Z.log2 n). set (b := Z.log2 (Zpos d)).
  assert (Ha : (2 ^ a <= n < 2 ^ (a + 1))%Z).
  { pose proof (Z.log2_spec n Hn) as H. unfold a. now rewrite <- Z.add_1_r in H. }
  assert (Hb : (2 ^ b <= Zpos d < 2 ^ (b + 1))%Z).
  { pose proof (Z.log2_spec (Zpos d) eq_refl) as H. unfold b. now rewrite <- Z.add_1_r in H. }
  assert (Ha0 : (0 <= a)%Z) by apply Z.log2_nonneg.
  assert (Hb0 : (0 <= b)%Z) by apply Z.log2_nonneg.
  assert (Hpa : (0 < 2 ^ a)%Z) by (apply Z.pow_pos_nonneg; lia).
  assert (Hpb : (0 < 2 ^ b)%Z) by (apply Z.pow_pos_nonneg; lia).
  assert (Hx' : n # d == inject_Z n / inject_Z (Zpos d)) by apply Qmake_Qdiv.
  assert (Hup : n # d < pow2 (a - b + 1)).
  { replace (a - b + 1)%Z with ((a + 1) - b)%Z by lia.
    rewrite pow2_minus, (pow2_inject (a + 1)), (pow2_inject b), Hx' by lia.
    apply Zfrac_lt; [reflexivity | exact Hpb | nia]. }
  assert (Hlow : pow2 (a - b - 1) < n # d).
  { replace (a - b - 1)%Z with (a - (b + 1))%Z by lia.
    rewrite pow2_minus, (pow2_inject a), (pow2_inject (b + 1)), Hx' by lia.
    apply Zfrac_lt; [apply Z.pow_pos_nonneg; lia | reflexivity | nia]. }
  destruct (Qle_bool (pow2 (a - b)) (n # d)) eqn:E.
  - apply Qle_bool_iff in E. split; assumption.
  - split.
    + apply Qlt_le_weak. exact Hlow.
    + replace (a - b - 1 + 1)%Z with (a - b)%Z by lia.
      apply Qnot_le_lt. intros H. apply Qle_bool_iff in H. congruence.
Qed.

(** *** The nearest integer *)

Lemma Qfloor_bounds (q : Q) :
  inject_Z (Qfloor q) <= q /\ q < inject_Z (Qfloor q) + 1.
Proof.
  split; [apply Qfloor_le|].
  pose proof (Qlt_floor q) as H. now rewrite inject_Z_plus in H.
Qed.

Lemma round_half_even_cases (q : Q) :
  (round_half_even q = Qfloor q /\ q - inject_Z (Qfloor q) <= 1 # 2)
  \/ (round_half_even q = (Qfloor q + 1)%Z /\ 1 # 2 <= q - inject_Z (Qfloor q)).
Proof.
  unfold round_half_even.
  destruct (Qcompare (q - inject_Z (Qfloor q)) (1 # 2)) eqn:E.
  - apply Qeq_alt in E. destruct (Z.even (Qfloor q)); [left | right];
      (split; [reflexivity | rewrite E; apply Qle_refl]).
  - apply Qlt_alt in E. left. split; [reflexivity | now apply Qlt_le_weak].
  - apply Qgt_alt in E. right. split; [reflexivity | now apply Qlt_le_weak].
Qed.

Lemma round_half_even_nearest (q : Q) (m : Z) :
  Qabs (q - inject_Z (round_half_even q)) <= Qabs (q - inject_Z m).
Proof.
  destruct (Qfloor_bounds q) as [H1 H2].
  assert (Hm : (m <= Qfloor q)%Z \/ (Qfloor q + 1 <= m)%Z) by lia.
  assert (Hm' : inject_Z m <= inject_Z (Qfloor q) \/ inject_Z (Qfloor q) + 1 <= inject_Z m).
  { destruct Hm as [Hm | Hm]; [left | right].
    - now rewrite <- Zle_Qle.
    - rewrite Zle_Qle, inject_Z_plus in Hm. exact Hm. }
  destruct (round_half_even_cases q) as [[-> Hr] | [-> Hr]];
    try (rewrite inject_Z_plus; change (inject_Z 1) with 1);
    apply Qabs_case; intros Ha; apply Qabs_case; intros Hb;
    destruct Hm' as [Hm' | Hm']; lra.
Qed.


Lemma round_half_even_le (q : Q) (k : Z) :
  q <= inject_Z k -> (round_half_even q <= k)%Z.
Proof.
  intros H. destruct (Qfloor_bounds q) as [H1 H2].
  assert (Hf : (Qfloor q <= k)%Z).
  { rewrite <- (Qfloor_Z k). now apply Qfloor_resp_le. }
  destruct (round_half_even_cases q) as [[-> Hr] | [-> Hr]]; [exact Hf|].
  assert (Hne : Qfloor q <> k).
  { intros E. rewrite E in Hr. lra. }
  lia.
Qed.

Lemma round_half_even_ge (q : Q) (k : Z) :
  inject_Z k <= q -> (k <= round_half_even q)%Z.
Proof.
  intros H.
  assert (Hf : (k <= Qfloor q)%Z).
  { rewrite <- (Qfloor_Z k). now apply Qfloor_resp_le. }
  destruct (round_half_even_cases q) as [[-> Hr] | [-> Hr]]; lia.
Qed.

Lemma round_half_even_comp (q q' : Q) :
  q == q' -> round_half_even q = round_half_even q'.
Proof.
  intros E. unfold round_half_even.
  rewrite (Qfloor_comp q q' E).
  assert (E' : q - inject_Z (Qfloor q') == q' - inject_Z (Qfloor q')) by (rewrite E; reflexivity).
  now rewrite (Qcompare_comp _ _ E' (1 # 2) (1 # 2) (Qeq_refl _)).
Qed.

Lemma round_half_even_Z (k : Z) : round_half_even (inject_Z k) = k.
Proof.
  apply Z.le_antisymm.
  - apply round_half_even_le, Qle_refl.
  - apply round_half_even_ge, Qle_refl.
Qed.

(** *** Rounding gives a nearest number of the format *)

Section Nearest.

Variable f : format.
Hypothesis Hf : well_formed f.

Lemma pos_nonzero (u : Q) : 0 < u -> ~ u == 0.
Proof. intros H E. rewrite E in H. discriminate. Qed.

Lemma round_finite_multiple (x : Q) (k : Z) :
  Qabs (x - round_finite f x)
  <= Qabs (x - inject_Z k * pow2 (ulp_exponent f x)).
Proof.
  unfold round_finite. set (u := pow2 (ulp_exponent f x)).
  assert (Hu : 0 < u) by apply pow2_pos.
  assert (E : forall n : Z, x - inject_Z n * u == (x / u - inject_Z n) * u).
  { intros n. field. now apply pos_nonzero. }
  rewrite (E (round_half_even (x / u))), (E k), !Qabs_Qmult.
  apply Qmult_le_compat_r; [apply round_half_even_nearest | apply Qabs_nonneg].
Qed.

Lemma round_finite_zero (x : Q) : x == 0 -> round_finite f x == 0.
Proof.
  intros E. unfold round_finite. generalize (pow2 (ulp_exponent f x)). intros u.
  rewrite (round_half_even_comp (x / u) 0).
  - change (round_half_even 0) with 0%Z. ring.
  - rewrite E. unfold Qdiv. ring.
Qed.

(** The leading bit and the last place of a number that is not zero. *)
Lemma ulp_exponent_spec (x : Q) :
  ~ x == 0 ->
  let e := ilog2 (Qabs x) in
  let q := ulp_exponent f x in
  (pow2 e <= Qabs x) /\ (Qabs x < pow2 (e + 1)%Z) /\
  ((emin f <= q)%Z) /\ ((e - prec f + 1 <= q)%Z) /\
  (q = (e - prec f + 1)%Z \/ q = emin f).
Proof.
  intros Hx e q.
  assert (Hpos : 0 < Qabs x).
  { apply Qabs_case; intros H.
    - destruct (Qlt_le_dec 0 x) as [H' | H']; [exact H'|].
      exfalso. apply Hx. now apply Qle_antisym.
    - destruct (Qlt_le_dec x 0) as [H' | H']; [lra|].
      exfalso. apply Hx. now apply Qle_antisym. }
  destruct (ilog2_spec _ Hpos) as [H1 H2].
  repeat split; try assumption; unfold q, ulp_exponent; fold e; lia.
Qed.

(** The significand has at most [prec] bits, or is [2 ^ prec]. *)
Lemma significand_bound (x : Q) :
  (Z.abs (round_half_even (x / pow2 (ulp_exponent f x))) <= 2 ^ prec f)%Z.
Proof.
  destruct Hf as [Hp _].
  destruct (Qeq_dec x 0) as [E | Hx].
  - rewrite (round_half_even_comp _ 0).
    + change (round_half_even 0) with 0%Z. simpl. apply Z.pow_nonneg. lia.
    + generalize (pow2 (ulp_exponent f x)). intros u. rewrite E. unfold Qdiv. ring.
  - destruct (ulp_exponent_spec x Hx) as [H1 [H2 [H3 [H4 H5]]]].
    set (e := ilog2 (Qabs x)) in *. set (q := ulp_exponent f x) in *.
    assert (Hu : 0 < pow2 q) by apply pow2_pos.
    assert (Hb : Qabs x < pow2 q * inject_Z (2 ^ prec f)).
    { rewrite <- pow2_inject, <- pow2_plus by lia.
      eapply Qlt_le_trans; [exact H2|]. apply pow2_le. lia. }
    assert (Hup : x / pow2 q <= inject_Z (2 ^ prec f)).
    { apply Qle_shift_div_r; [exact Hu|]. rewrite Qmult_comm.
      apply Qlt_le_weak. eapply Qle_lt_trans; [apply Qle_Qabs | exact Hb]. }
    assert (Hlo : inject_Z (- 2 ^ prec f) <= x / pow2 q).
    { apply Qle_shift_div_l; [exact Hu|]. rewrite inject_Z_opp.
      assert (Hx' : - x <= Qabs x) by (rewrite <- Qabs_opp; apply Qle_Qabs).
      lra. }
    apply round_half_even_le in Hup. apply round_half_even_ge in Hlo. lia.
Qed.

(** A normal number has a significand of full length. *)
Lemma significand_normal (x : Q) :
  ~ x == 0 ->
  ulp_exponent f x = (ilog2 (Qabs x) - prec f + 1)%Z ->
  (2 ^ (prec f - 1) <= Z.abs (round_half_even (x / pow2 (ulp_exponent f x))))%Z.
Proof.
  intros Hx Hq. destruct Hf as [Hp _].
  destruct (ulp_exponent_spec x Hx) as [H1 [H2 [H3 [H4 H5]]]].
  set (e := ilog2 (Qabs x)) in *. set (q := ulp_exponent f x) in *.
  assert (Hu : 0 < pow2 q) by apply pow2_pos.
  assert (Hb : pow2 q * inject_Z (2 ^ (prec f - 1)) <= Qabs x).
  { rewrite <- pow2_inject, <- pow2_plus by lia.
    eapply Qle_trans; [|exact H1]. apply pow2_le. lia. }
  destruct (Qlt_le_dec x 0) as [Hneg | Hpos].
  - assert (Hup : x / pow2 q <= inject_Z (- 2 ^ (prec f - 1))).
    { apply Qle_shift_div_r; [exact Hu|]. rewrite inject_Z_opp.
      rewrite (Qabs_neg x) in Hb by lra. lra. }
    apply round_half_even_le in Hup. lia.
  - assert (Hlo : inject_Z (2 ^ (prec f - 1)) <= x / pow2 q).
    { apply Qle_shift_div_l; [exact Hu|].
      rewrite (Qabs_pos x) in Hb by lra. lra. }
    apply round_half_even_ge in Hlo. lia.
Qed.

Lemma representable_comp (z z' : Q) : z == z' -> representable f z -> representable f z'.
Proof.
  intros E [m [e [H1 H2]]]. exists m, e. split; [|exact H2]. now rewrite <- E.
Qed.

Lemma representable_zero : representable f 0.
Proof.
  destruct Hf as [Hp Hr]. exists 0%Z, (emin f). split; [ring|]. split; [|lia].
  simpl. apply Z.pow_pos_nonneg; lia.
Qed.

Lemma Qabs_inject_Z (n : Z) : Qabs (inject_Z n) == inject_Z (Z.abs n).
Proof. unfold Qabs, inject_Z. simpl. reflexivity. Qed.

(** Below the overflow threshold the rounded value is a number of the
    format. *)
Lemma round_finite_representable (x : Q) :
  Qabs (round_finite f x) < pow2 (emax f) -> representable f (round_finite f x).
Proof.
  intros Hlt. destruct Hf as [Hp Hr].
  destruct (Qeq_dec x 0) as [E | Hx].
  { apply (representable_comp 0 _ (Qeq_sym _ _ (round_finite_zero x E))).
    apply representable_zero. }
  destruct (ulp_exponent_spec x Hx) as [H1 [H2 [H3 [H4 H5]]]].
  pose proof (significand_bound x) as Hn.
  unfold round_finite in *.
  set (e := ilog2 (Qabs x)) in *. set (q := ulp_exponent f x) in *.
  set (n := round_half_even (x / pow2 q)) in *.
  assert (Hu : 0 < pow2 q) by apply pow2_pos.
  assert (Habs : Qabs (inject_Z n * pow2 q) == inject_Z (Z.abs n) * pow2 q).
  { rewrite Qabs_Qmult, Qabs_inject_Z, (Qabs_pos (pow2 q)); [reflexivity | lra]. }
  rewrite Habs in Hlt.
  destruct (Z.eq_dec (Z.abs n) (2 ^ prec f)) as [Hmax | Hsmall].
  - (* the significand is 2 ^ prec: one exponent up *)
    assert (Hq : (prec f + q < emax f)%Z).
    { apply pow2_lt_inv. rewrite pow2_plus, pow2_inject by lia.
      rewrite <- Hmax. exact Hlt. }
    exists (Z.sgn n * 2 ^ (prec f - 1))%Z, (q + 1)%Z. split; [|split; [|lia]].
    + rewrite pow2_succ.
      assert (En : n = (Z.sgn n * 2 ^ prec f)%Z).
      { rewrite <- Hmax. symmetry. rewrite Z.mul_comm. apply Z.abs_sgn. }
      assert (Ep : (2 ^ prec f = 2 * 2 ^ (prec f - 1))%Z).
      { rewrite <- Z.pow_succ_r by lia. f_equal. lia. }
      rewrite En at 1. rewrite Ep, !inject_Z_mult. ring.
    + assert (Hs : (0 < 2 ^ (prec f - 1))%Z) by (apply Z.pow_pos_nonneg; lia).
      assert (Hlt' : (2 ^ (prec f - 1) < 2 ^ prec f)%Z) by (apply Z.pow_lt_mono_r; lia).
      rewrite Z.abs_mul. rewrite (Z.abs_eq (2 ^ (prec f - 1))) by lia.
      assert (Hsg : (Z.abs (Z.sgn n) <= 1)%Z) by lia. nia.
  - exists n, q. split; [reflexivity|]. split; [lia|]. split; [exact H3|].
    destruct H5 as [H5 | H5]; [|lia].
    pose proof (significand_normal x Hx H5) as Hnorm. fold q n in Hnorm.
    assert (Hq : (prec f - 1 + q < emax f)%Z).
    { apply pow2_lt_inv. eapply Qle_lt_trans; [|exact Hlt].
      rewrite pow2_plus, pow2_inject by lia.
      apply Qmult_le_compat_r; [|lra]. now rewrite <- Zle_Qle. }
    lia.
Qed.

(** No number of the format is closer to [x] than the rounded value. *)
Lemma round_finite_closest (x z : Q) :
  representable f z -> Qabs (x - round_finite f x) <= Qabs (x - z).
Proof.
  intros [m [c [Hz [Hm Hc]]]]. destruct Hf as [Hp Hr].
  destruct (Qeq_dec x 0) as [E | Hx].
  { rewrite (round_finite_zero x E).
    setoid_replace (x - 0) with 0 by (rewrite E; ring). apply Qabs_nonneg. }
  destruct (ulp_exponent_spec x Hx) as [H1 [H2 [H3 [H4 H5]]]].
  set (e := ilog2 (Qabs x)) in *. set (q := ulp_exponent f x) in *.
  destruct (Z_le_gt_dec q c) as [Hqc | Hqc].
  - (* [z] is a multiple of the last place of [x] *)
    assert (E : z == inject_Z (m * 2 ^ (c - q)) * pow2 q).
    { rewrite Hz, inject_Z_mult, <- pow2_inject by lia.
      rewrite <- Qmult_assoc, <- pow2_plus. now replace (c - q + q)%Z with c by lia. }
    rewrite E. apply round_finite_multiple.
  - (* [z] lies below the binade of [x] *)
    assert (Hq : q = (e - prec f + 1)%Z) by lia.
    assert (Hzlt : Qabs z < pow2 e).
    { rewrite Hz, Qabs_Qmult, Qabs_inject_Z, (Qabs_pos (pow2 c))
        by (apply Qlt_le_weak, pow2_pos).
      apply Qlt_le_trans with (inject_Z (2 ^ prec f) * pow2 c).
      - apply Qmult_lt_compat_r; [apply pow2_pos | now rewrite <- Zlt_Qlt].
      - rewrite <- pow2_inject, <- pow2_plus by lia. apply pow2_le. lia. }
    assert (Ee : forall s : Z,
               inject_Z (s * 2 ^ (prec f - 1)) * pow2 q == inject_Z s * pow2 e).
    { intros s. rewrite inject_Z_mult, <- pow2_inject by lia.
      rewrite <- Qmult_assoc, <- pow2_plus.
      now replace (prec f - 1 + q)%Z with e by lia. }
    assert (Hz1 : z <= Qabs z) by apply Qle_Qabs.
    assert (Hz2 : - z <= Qabs z) by (rewrite <- Qabs_opp; apply Qle_Qabs).
    destruct (Qlt_le_dec x 0) as [Hneg | Hpos].
    + pose proof (round_finite_multiple x (-1 * 2 ^ (prec f - 1))) as Hk.
      fold q in Hk. rewrite (Ee (-1)%Z) in Hk.
      rewrite (Qabs_neg x) in H1 by lra.
      eapply Qle_trans; [exact Hk|].
      change (inject_Z (-1)) with (-1).
      rewrite (Qabs_neg (x - -1 * pow2 e)) by lra.
      rewrite (Qabs_neg (x - z)) by lra. lra.
    + pose proof (round_finite_multiple x (1 * 2 ^ (prec f - 1))) as Hk.
      fold q in Hk. rewrite (Ee 1%Z) in Hk.
      rewrite (Qabs_pos x) in H1 by lra.
      eapply Qle_trans; [exact Hk|].
      change (inject_Z 1) with 1.
      rewrite (Qabs_pos (x - 1 * pow2 e)) by lra.
      rewrite (Qabs_pos (x - z)) by lra. lra.
Qed.

(** A finite result of [round] is a nearest number of the format. *)
Lemma round_nearest (x y : Q) : round f x = Fin y -> nearest f x y.
Proof.
  unfold round. set (x' := Qred x). intros H.
  assert (Ex : x' == x) by apply Qred_correct.
  destruct (Qle_bool (pow2 (emax f)) (Qabs (Qred (round_finite f x')))) eqn:Hov.
  { destruct (Qle_bool 0 x); discriminate. }
  injection H as <-.
  assert (Hlt : Qabs (round_finite f x') < pow2 (emax f)).
  { apply Qnot_le_lt. intros Hle. rewrite <- (Qred_correct (round_finite f x')) in Hle.
    apply Qle_bool_iff in Hle. congruence. }
  split.
  - apply (representable_comp (round_finite f x') _
             (Qeq_sym _ _ (Qred_correct (round_finite f x')))).
    now apply round_finite_representable.
  - intros z Hz. rewrite (Qred_correct (round_finite f x')), <- Ex.
    now apply round_finite_closest.
Qed.

(** The result is never not-a-number. *)
Lemma round_not_nan (x : Q) : round f x <> NaN.
Proof.
  unfold round.
  destruct (Qle_bool _ _); [destruct (Qle_bool 0 x)|]; discriminate.
Qed.

Lemma representable_lt (z : Q) : representable f z -> Qabs z < pow2 (emax f).
Proof.
  intros [m [c [Hz [Hm Hc]]]]. destruct Hf as [Hp Hr].
  rewrite Hz, Qabs_Qmult, Qabs_inject_Z, (Qabs_pos (pow2 c))
    by (apply Qlt_le_weak, pow2_pos).
  apply Qlt_le_trans with (inject_Z (2 ^ prec f) * pow2 c).
  - apply Qmult_lt_compat_r; [apply pow2_pos | now rewrite <- Zlt_Qlt].
  - rewrite <- pow2_inject, <- pow2_plus by lia. apply pow2_le. lia.
Qed.

Lemma Qabs_zero_eq (a b : Q) : Qabs (a - b) <= 0 -> b == a.
Proof.
  intros H. pose proof (Qabs_nonneg (a - b)) as H0.
  assert (E : Qabs (a - b) == 0) by now apply Qle_antisym.
  revert E. apply Qabs_case; intros; lra.
Qed.

(** A number of the format is its own nearest number. *)
Lemma nearest_exact (x y : Q) : representable f x -> nearest f x y -> y == x.
Proof.
  intros Hx [_ Hy]. specialize (Hy x Hx).
  setoid_replace (x - x) with 0 in Hy by ring. now apply Qabs_zero_eq.
Qed.

(** The result stays finite below half of the overflow threshold. *)
Lemma round_is_finite (x : Q) :
  2 * Qabs x < pow2 (emax f) -> exists y, round f x = Fin y.
Proof.
  intros Hb. unfold round. set (x' := Qred x).
  assert (Ex : x' == x) by apply Qred_correct.
  assert (Hlt : Qabs (round_finite f x') < pow2 (emax f)).
  { pose proof (round_finite_closest x' 0 representable_zero) as H.
    assert (Hb' : 2 * Qabs x' < pow2 (emax f)) by (rewrite Ex; exact Hb).
    eapply Qle_lt_trans; [|exact Hb'].
    revert H. generalize (round_finite f x'). intros r.
    repeat (apply Qabs_case; intros ?); lra. }
  destruct (Qle_bool (pow2 (emax f)) (Qabs (Qred (round_finite f x')))) eqn:Hov.
  - apply Qle_bool_iff in Hov. rewrite (Qred_correct (round_finite f x')) in Hov. lra.
  - eauto.
Qed.

(** Rounding leaves the numbers of the format as they are. *)
Lemma round_exact (x : Q) : representable f x -> round f x = Fin (Qred x).
Proof.
  intros Hx. unfold round. set (x' := Qred x).
  assert (Ex : x' == x) by apply Qred_correct.
  assert (Hx' : representable f x') by (apply (representable_comp x); [now symmetry | exact Hx]).
  assert (E : round_finite f x' == x').
  { apply Qabs_zero_eq.
    setoid_replace 0 with (Qabs (x' - x'))
      by (setoid_replace (x' - x') with 0 by ring; reflexivity).
    now apply round_finite_closest. }
  assert (Hlt : Qabs (round_finite f x') < pow2 (emax f)).
  { rewrite E. now apply representable_lt. }
  destruct (Qle_bool (pow2 (emax f)) (Qabs (Qred (round_finite f x')))) eqn:Hov.
  - apply Qle_bool_iff in Hov. rewrite (Qred_correct (round_finite f x')) in Hov. lra.
  - f_equal. apply Qred_complete. now rewrite E.
Qed.

(** Rounding does not cross a number of the format. *)
Lemma nearest_le (x y z : Q) :
  nearest f x y -> representable f z -> x <= z -> y <= z.
Proof.
  intros [_ Hy] Hz Hxz. specialize (Hy z Hz).
  destruct (Qlt_le_dec z y) as [Hlt | Hle]; [|exact Hle].
  rewrite (Qabs_neg (x - y)), (Qabs_neg (x - z)) in Hy by lra. lra.
Qed.

Lemma nearest_ge (x y z : Q) :
  nearest f x y -> representable f z -> z <= x -> z <= y.
Proof.
  intros [_ Hy] Hz Hzx. specialize (Hy z Hz).
  destruct (Qlt_le_dec y z) as [Hlt | Hle]; [|exact Hle].
  rewrite (Qabs_pos (x - y)), (Qabs_pos (x - z)) in Hy by lra. lra.
Qed.

(** The integers of up to [prec] bits, and [2 ^ prec], are numbers of the
    format. *)
Lemma representable_Z (k : Z) :
  (emin f <= 0)%Z -> (1 <= emax f - prec f)%Z ->
  (Z.abs k <= 2 ^ prec f)%Z -> representable f (inject_Z k).
Proof.
  intros He1 He2 Hk. destruct Hf as [Hp Hr].
  destruct (Z.eq_dec (Z.abs k) (2 ^ prec f)) as [Hmax | Hsmall].
  - exists (Z.sgn k * 2 ^ (prec f - 1))%Z, 1%Z. split; [|split; [|lia]].
    + change (pow2 1) with 2.
      assert (En : k = (Z.sgn k * 2 ^ prec f)%Z).
      { rewrite <- Hmax. symmetry. rewrite Z.mul_comm. apply Z.abs_sgn. }
      assert (Ep : (2 ^ prec f = 2 * 2 ^ (prec f - 1))%Z).
      { rewrite <- Z.pow_succ_r by lia. f_equal. lia. }
      rewrite En at 1. rewrite Ep, !inject_Z_mult. ring.
    + assert (Hs : (0 < 2 ^ (prec f - 1))%Z) by (apply Z.pow_pos_nonneg; lia).
      assert (Hlt' : (2 ^ (prec f - 1) < 2 ^ prec f)%Z) by (apply Z.pow_lt_mono_r; lia).
      rewrite Z.abs_mul. rewrite (Z.abs_eq (2 ^ (prec f - 1))) by lia.
      assert (Hsg : (Z.abs (Z.sgn k) <= 1)%Z) by lia. nia.
  - exists k, 0%Z. split; [|split; lia].
    change (pow2 0) with 1. ring.
Qed.

End Nearest.

(** *** The square root *)

Section Root.

Variable f : format.
Hypothesis Hf : well_formed f.
Hypothesis Hrange : (emin f < emax f - prec f)%Z.
Hypothesis Hemax : (2 <= emax f)%Z.

Lemma pow2_double (q : Z) : pow2 (2 * q) == pow2 q * pow2 q.
Proof. replace (2 * q)%Z with (q + q)%Z by lia. apply pow2_plus. Qed.

(** The integer square root of the floor brackets the root. *)
Lemma sqrt_floor_spec (t : Q) :
  0 <= t ->
  let k := inject_Z (Z.sqrt (Qfloor t)) in
  0 <= k /\ k * k <= t /\ t < (k + 1) * (k + 1).
Proof.
  intros Ht k.
  assert (H0 : (0 <= Qfloor t)%Z).
  { rewrite <- (Qfloor_Z 0). now apply Qfloor_resp_le. }
  destruct (Qfloor_bounds t) as [H1 H2].
  pose proof (Z.sqrt_spec _ H0) as [Hs1 Hs2].
  pose proof (Z.sqrt_nonneg (Qfloor t)) as Hk.
  set (s := Z.sqrt (Qfloor t)) in *.
  assert (Hk0 : 0 <= k).
  { unfold k. change 0 with (inject_Z 0). now rewrite <- Zle_Qle. }
  split; [exact Hk0|]. split.
  - eapply Qle_trans; [|exact H1]. unfold k. rewrite <- inject_Z_mult, <- Zle_Qle. exact Hs1.
  - eapply Qlt_le_trans; [exact H2|].
    assert (H : (Qfloor t + 1 <= (s + 1) * (s + 1))%Z) by lia.
    rewrite Zle_Qle, inject_Z_plus, inject_Z_mult, inject_Z_plus in H. exact H.
Qed.

Lemma root_half_even_cases (t : Q) :
  let k := Z.sqrt (Qfloor t) in
  let half := inject_Z k + (1 # 2) in
  (root_half_even t = k /\ t <= half * half)
  \/ (root_half_even t = (k + 1)%Z /\ half * half <= t).
Proof.
  intros k half. unfold root_half_even. fold k. fold half.
  destruct (Qcompare t (half * half)) eqn:E.
  - apply Qeq_alt in E. destruct (Z.even k); [left | right];
      (split; [reflexivity | rewrite E; apply Qle_refl]).
  - apply Qlt_alt in E. left. split; [reflexivity | now apply Qlt_le_weak].
  - apply Qgt_alt in E. right. split; [reflexivity | now apply Qlt_le_weak].
Qed.

Lemma square_le (a b : Q) : 0 <= a -> a <= b -> a * a <= b * b.
Proof.
  intros Ha Hab. apply Qle_trans with (b * a).
  - apply Qmult_le_compat_r; assumption.
  - rewrite (Qmult_comm b a). apply Qmult_le_compat_r; lra.
Qed.

Lemma root_below (K M t : Q) :
  0 <= K -> 0 <= M -> K * K <= t -> t <= (K + (1 # 2)) * (K + (1 # 2)) ->
  (M < K -> (K + M) * (K + M) <= 4 * t)
  /\ (K + 1 <= M -> 4 * t <= (K + M) * (K + M)).
Proof.
  intros HK HM H1 H2. split; intros H.
  - pose proof (square_le (K + M) (2 * K)) as Hs. lra.
  - pose proof (square_le (2 * K + 1) (K + M)) as Hs. lra.
Qed.

Lemma root_above (K M t : Q) :
  0 <= K -> 0 <= M -> (K + (1 # 2)) * (K + (1 # 2)) <= t -> t < (K + 1) * (K + 1) ->
  (M <= K -> (K + 1 + M) * (K + 1 + M) <= 4 * t)
  /\ (K + 2 <= M -> 4 * t <= (K + 1 + M) * (K + 1 + M)).
Proof.
  intros HK HM H1 H2. split; intros H.
  - pose proof (square_le (K + 1 + M) (2 * K + 1)) as Hs. lra.
  - pose proof (square_le (2 * K + 2) (K + 1 + M)) as Hs. lra.
Qed.

(** No integer is closer to the root of [t] than [root_half_even t]. *)
Lemma root_half_even_nearest (t : Q) (m : Z) :
  0 <= t -> (0 <= m)%Z ->
  (inject_Z m < inject_Z (root_half_even t) ->
   (inject_Z (root_half_even t) + inject_Z m) * (inject_Z (root_half_even t) + inject_Z m)
   <= 4 * t)
  /\ (inject_Z (root_half_even t) < inject_Z m ->
      4 * t
      <= (inject_Z (root_half_even t) + inject_Z m)
         * (inject_Z (root_half_even t) + inject_Z m)).
Proof.
  intros Ht Hm.
  destruct (sqrt_floor_spec t Ht) as [Hk0 [Hk1 Hk2]].
  assert (HM0 : 0 <= inject_Z m).
  { change 0 with (inject_Z 0). now rewrite <- Zle_Qle. }
  destruct (root_half_even_cases t) as [[E Hc] | [E Hc]]; rewrite E.
  - destruct (root_below _ _ _ Hk0 HM0 Hk1 Hc) as [Ha Hb]. split; [exact Ha|].
    intros H. apply Hb. rewrite <- Zlt_Qlt in H.
    change 1 with (inject_Z 1). rewrite <- inject_Z_plus, <- Zle_Qle. lia.
  - rewrite inject_Z_plus. change (inject_Z 1) with 1.
    destruct (root_above _ _ _ Hk0 HM0 Hc Hk2) as [Ha Hb]. split; intros H.
    + apply Ha. change 1 with (inject_Z 1) in H.
      rewrite <- inject_Z_plus, <- Zlt_Qlt in H. rewrite <- Zle_Qle. lia.
    + apply Hb. change 1 with (inject_Z 1) in H.
      rewrite <- inject_Z_plus, <- Zlt_Qlt in H.
      change 2 with (inject_Z 2). rewrite <- inject_Z_plus, <- Zle_Qle. lia.
Qed.

Lemma root_half_even_ge (t : Q) (j : Z) :
  (0 <= j)%Z -> inject_Z j * inject_Z j <= t -> (j <= root_half_even t)%Z.
Proof.
  intros Hj H.
  assert (Ht : 0 <= t).
  { eapply Qle_trans; [|exact H]. rewrite <- inject_Z_mult.
    change 0 with (inject_Z 0). rewrite <- Zle_Qle. nia. }
  assert (Hfl : (j * j <= Qfloor t)%Z).
  { rewrite <- (Qfloor_Z (j * j)). apply Qfloor_resp_le. now rewrite inject_Z_mult. }
  assert (Hk : (j <= Z.sqrt (Qfloor t))%Z).
  { apply Z.sqrt_le_square; lia. }
  destruct (root_half_even_cases t) as [[-> _] | [-> _]]; lia.
Qed.

Lemma root_half_even_le (t : Q) (j : Z) :
  0 <= t -> (0 <= j)%Z -> t < inject_Z j * inject_Z j -> (root_half_even t <= j)%Z.
Proof.
  intros Ht Hj H.
  assert (H0 : (0 <= Qfloor t)%Z).
  { rewrite <- (Qfloor_Z 0). now apply Qfloor_resp_le. }
  assert (Hfl : (Qfloor t < j * j)%Z).
  { rewrite Zlt_Qlt, inject_Z_mult. eapply Qle_lt_trans; [apply Qfloor_le | exact H]. }
  assert (Hk : (Z.sqrt (Qfloor t) < j)%Z).
  { apply Z.sqrt_lt_square; lia. }
  destruct (root_half_even_cases t) as [[-> _] | [-> _]]; lia.
Qed.

Lemma root_half_even_nonneg (t : Q) : (0 <= root_half_even t)%Z.
Proof.
  pose proof (Z.sqrt_nonneg (Qfloor t)).
  destruct (root_half_even_cases t) as [[-> _] | [-> _]]; lia.
Qed.

Lemma root_half_even_comp (t t' : Q) : t == t' -> root_half_even t = root_half_even t'.
Proof.
  intros E. unfold root_half_even. rewrite (Qfloor_comp t t' E).
  now rewrite (Qcompare_comp _ _ E _ _ (Qeq_refl _)).
Qed.

(** The property of [root_half_even], in units of [U]. *)
Lemma root_scaled (N M t U : Q) :
  0 < U ->
  (M < N -> (N + M) * (N + M) <= 4 * t) /\ (N < M -> 4 * t <= (N + M) * (N + M)) ->
  (M * U < N * U -> (N * U + M * U) * (N * U + M * U) <= 4 * (t * (U * U)))
  /\ (N * U < M * U -> 4 * (t * (U * U)) <= (N * U + M * U) * (N * U + M * U)).
Proof.
  intros HU [H1 H2].
  assert (HUU : 0 <= U * U) by (apply Qmult_le_0_compat; lra).
  setoid_replace ((N * U + M * U) * (N * U + M * U)) with ((N + M) * (N + M) * (U * U))
    by ring.
  setoid_replace (4 * (t * (U * U))) with (4 * t * (U * U)) by ring.
  split; intros H; apply Qmult_lt_r in H; try exact HU;
    apply Qmult_le_compat_r; auto.
Qed.

(** [sqrt_finite] gives a number of the format nearest to the root. *)
Lemma sqrt_finite_nearest_root (x : Q) :
  0 < x -> x < pow2 (emax f) -> nearest_root f x (sqrt_finite f x).
Proof.
  intros Hx Hmax. destruct Hf as [Hp Hr].
  destruct (ilog2_spec x Hx) as [He1 He2].
  unfold sqrt_finite.
  set (e := ilog2 x) in *. set (e' := (e / 2)%Z).
  set (q := Z.max (e' - prec f + 1) (emin f)).
  set (U := pow2 q). set (t := x / pow2 (2 * q)).
  set (n := root_half_even t).
  assert (He' : (2 * e' <= e <= 2 * e' + 1)%Z).
  { unfold e'. pose proof (Z.div_mod e 2 ltac:(lia)).
    pose proof (Z.mod_pos_bound e 2 ltac:(lia)). lia. }
  assert (Hemax' : (e < emax f)%Z).
  { apply pow2_lt_inv. eapply Qle_lt_trans; [exact He1 | exact Hmax]. }
  assert (HU : 0 < U) by apply pow2_pos.
  assert (HUU : 0 < U * U) by (apply Qmult_lt_0_compat; exact HU).
  assert (Ex : x == t * (U * U)).
  { unfold t. rewrite pow2_double. fold U. field. lra. }
  assert (Ht : 0 <= t).
  { unfold t. apply Qle_shift_div_l; [apply pow2_pos | lra]. }
  assert (Hn0 : (0 <= n)%Z) by apply root_half_even_nonneg.
  assert (HN0 : 0 <= inject_Z n) by (change 0 with (inject_Z 0); now rewrite <- Zle_Qle).
  (* the significand has at most [prec] bits, or is 2 ^ prec *)
  assert (Hn_up : (n <= 2 ^ prec f)%Z).
  { apply root_half_even_le; [exact Ht | apply Z.pow_nonneg; lia|].
    unfold t. apply Qlt_shift_div_r; [apply pow2_pos|].
    rewrite <- inject_Z_mult, <- Z.pow_add_r, <- pow2_inject, <- pow2_plus by lia.
    eapply Qlt_le_trans; [exact He2|]. apply pow2_le. lia. }
  (* a root with a normal exponent has a leading bit *)
  assert (Hn_low : q = (e' - prec f + 1)%Z -> (2 ^ (prec f - 1) <= n)%Z).
  { intros Hq. apply root_half_even_ge; [apply Z.pow_nonneg; lia|].
    unfold t. apply Qle_shift_div_l; [apply pow2_pos|].
    rewrite <- inject_Z_mult, <- Z.pow_add_r, <- pow2_inject, <- pow2_plus by lia.
    eapply Qle_trans; [|exact He1]. apply pow2_le. lia. }
  split; [|split].
  - (* a number of the format *)
    destruct (Z.eq_dec n (2 ^ prec f)) as [Hmaxn | Hsmall].
    + exists (2 ^ (prec f - 1))%Z, (q + 1)%Z. split; [|split].
      * rewrite pow2_succ. fold U. rewrite Hmaxn.
        replace (2 ^ prec f)%Z with (2 * 2 ^ (prec f - 1))%Z
          by (rewrite <- Z.pow_succ_r by lia; f_equal; lia).
        rewrite inject_Z_mult. ring.
      * rewrite Z.abs_eq by (apply Z.pow_nonneg; lia). apply Z.pow_lt_mono_r; lia.
      * unfold q. lia.
    + exists n, q. split; [reflexivity|]. split; [lia|]. unfold q. lia.
  - apply Qmult_le_0_compat; lra.
  - intros z [m [c [Hz [Hm Hc]]]] Hz0.
    assert (Hm0 : (0 <= m)%Z).
    { destruct (Z_lt_le_dec m 0) as [Hneg | Hpos]; [|exact Hpos]. exfalso.
      assert (H : inject_Z m * pow2 c < 0).
      { setoid_replace 0 with (0 * pow2 c) by ring.
        apply Qmult_lt_compat_r; [apply pow2_pos|].
        change 0 with (inject_Z 0). now rewrite <- Zlt_Qlt. }
      rewrite <- Hz in H. lra. }
    destruct (Z_le_gt_dec q c) as [Hqc | Hqc].
    + (* [z] is a multiple of the last place of the root *)
      assert (Ez : z == inject_Z (m * 2 ^ (c - q)) * U).
      { rewrite Hz, inject_Z_mult, <- pow2_inject by lia. unfold U.
        rewrite <- Qmult_assoc, <- pow2_plus. now replace (c - q + q)%Z with c by lia. }
      rewrite Ez, Ex.
      apply root_scaled; [exact HU|].
      apply root_half_even_nearest; [exact Ht|].
      apply Z.mul_nonneg_nonneg; [exact Hm0 | apply Z.pow_nonneg; lia].
    + (* [z] lies below the binade of the root *)
      assert (Hq : q = (e' - prec f + 1)%Z) by (unfold q in *; lia).
      specialize (Hn_low Hq).
      assert (Hzlt : z < pow2 e').
      { rewrite Hz. apply Qlt_le_trans with (inject_Z (2 ^ prec f) * pow2 c).
        - apply Qmult_lt_compat_r; [apply pow2_pos | rewrite <- Zlt_Qlt; lia].
        - rewrite <- pow2_inject, <- pow2_plus by lia. apply pow2_le. lia. }
      assert (Ee : pow2 e' == inject_Z (2 ^ (prec f - 1)) * U).
      { rewrite <- pow2_inject by lia. unfold U. rewrite <- pow2_plus.
        now replace (prec f - 1 + q)%Z with e' by lia. }
      assert (Hlow : pow2 e' <= inject_Z n * U).
      { rewrite Ee. apply Qmult_le_compat_r; [now rewrite <- Zle_Qle | lra]. }
      assert (Hsq : pow2 e' * pow2 e' <= x).
      { rewrite <- pow2_plus. eapply Qle_trans; [|exact He1]. apply pow2_le. lia. }
      split; [intros _ | intros H; lra].
      destruct (Z.eq_dec n (2 ^ (prec f - 1))) as [Hn | Hn].
      * assert (Ey : inject_Z n * U == pow2 e') by (rewrite Hn; now symmetry).
        rewrite Ey.
        pose proof (square_le (pow2 e' + z) (2 * pow2 e')) as Hs.
        pose proof (pow2_pos e'). lra.
      * destruct (root_scaled (inject_Z n) (inject_Z (2 ^ (prec f - 1))) t U HU) as [H1 _].
        { apply root_half_even_nearest; [exact Ht | apply Z.pow_nonneg; lia]. }
        rewrite <- Ee, <- Ex in H1.
        assert (Hlt : pow2 e' < inject_Z n * U).
        { rewrite Ee. apply Qmult_lt_compat_r; [exact HU | rewrite <- Zlt_Qlt; lia]. }
        specialize (H1 Hlt).
        pose proof (square_le (inject_Z n * U + z) (inject_Z n * U + pow2 e')) as Hs.
        lra.
Qed.

End Root.

Lemma nearest_root_comp (f : format) (x x' y y' : Q) :
  x == x' -> y == y' -> nearest_root f x y -> nearest_root f x' y'.
Proof.
  intros Ex Ey [Hr [H0 Hz]]. split; [|split].
  - now apply (representable_comp f y).
  - now rewrite <- Ey.
  - intros z Hrz Hz0. rewrite <- Ex, <- Ey. now apply Hz.
Qed.

Lemma binary32_well_formed : well_formed binary32.
Proof. unfold well_formed. simpl. lia. Qed.

Lemma binary64_well_formed : well_formed binary64.
Proof. unfold well_formed. simpl. lia. Qed.

End BinaryFacts.

(** ** The composite scores and the threshold range in float32 *)

Module HitEvalFloatFacts.
Import Loss Binary HitEval HitEvalFloat BinaryFacts.

Lemma Qred_inject_Z (k : Z) : Qred (inject_Z k) = inject_Z k.
Proof.
  unfold Qred, inject_Z.
  pose proof (Z.ggcd_gcd k 1) as Hg. pose proof (Z.ggcd_correct_divisors k 1) as Hd.
  destruct (Z.ggcd k 1) as [g [aa bb]]. simpl in Hg, Hd |- *.
  rewrite Z.gcd_1_r in Hg. subst g. destruct Hd as [Ha Hb].
  replace aa with k by lia. replace bb with 1%Z by lia. reflexivity.
Qed.

Lemma binary32_Z (k : Z) : (Z.abs k <= 2 ^ 24)%Z -> representable binary32 (inject_Z k).
Proof.
  intros H. apply representable_Z; [apply binary32_well_formed | | | exact H]; simpl; lia.
Qed.

(** An integer of up to 24 bits enters a float32 operation unchanged. *)
Lemma scalar_Z (k : Z) : (Z.abs k <= 2 ^ 24)%Z -> Float32.scalar (inject_Z k) = Fin (inject_Z k).
Proof.
  intros H. unfold Float32.scalar.
  rewrite (round_exact binary32 binary32_well_formed) by now apply binary32_Z.
  now rewrite Qred_inject_Z.
Qed.

Lemma pow2_128_large (x : Q) : Qabs x <= inject_Z (2 ^ 24) -> 2 * Qabs x < pow2 (emax binary32).
Proof.
  intros H. apply Qle_lt_trans with (2 * inject_Z (2 ^ 24)); [lra|]. reflexivity.
Qed.

(** The truncated float32 product [int(x * g)] lies between the floor and
    the ceiling of the exact product, when that is within 24 bits. *)
Lemma scaled_int_bounds (x : Q) (g : Z) :
  (0 < g <= 2 ^ 24)%Z ->
  Qabs (x * inject_Z g) <= inject_Z (2 ^ 24) ->
  exists p, Float32.mul (Fin x) (Float32.scalar (inject_Z g)) = Fin p /\
            nearest binary32 (x * inject_Z g) p /\
            scaled_int (Fin x) g = inr (HitEval.py_int p) /\
            (forall k : Z, x * inject_Z g <= inject_Z k -> (HitEval.py_int p <= k)%Z) /\
            (forall k : Z, inject_Z k <= x * inject_Z g -> (k <= HitEval.py_int p)%Z).
Proof.
  intros Hg Hb. unfold scaled_int.
  rewrite scalar_Z by lia. unfold Float32.mul. cbn [fmul round_value].
  destruct (round_is_finite binary32 binary32_well_formed _ (pow2_128_large _ Hb)) as [p Hp].
  exists p. rewrite Hp. cbn [py_int].
  pose proof (round_nearest binary32 binary32_well_formed _ _ Hp) as Hn.
  assert (Hup : x * inject_Z g <= inject_Z (2 ^ 24)).
  { eapply Qle_trans; [apply Qle_Qabs | exact Hb]. }
  assert (Hlo : inject_Z (- 2 ^ 24) <= x * inject_Z g).
  { rewrite inject_Z_opp.
    assert (H : - (x * inject_Z g) <= Qabs (x * inject_Z g))
      by (rewrite <- Qabs_opp; apply Qle_Qabs).
    lra. }
  assert (Hp_up : p <= inject_Z (2 ^ 24)).
  { apply (nearest_le binary32 _ _ _ Hn); [apply binary32_Z; simpl; lia | exact Hup]. }
  assert (Hp_lo : inject_Z (- 2 ^ 24) <= p).
  { apply (nearest_ge binary32 _ _ _ Hn); [apply binary32_Z; simpl; lia | exact Hlo]. }
  split; [reflexivity|]. split; [exact Hn|]. split; [reflexivity|]. split.
  - intros k Hxk. apply HitEvalFacts.py_int_le.
    destruct (Z_le_gt_dec k (2 ^ 24)) as [Hk1 | Hk1].
    + assert (Hk2 : (- 2 ^ 24 <= k)%Z).
      { rewrite Zle_Qle. eapply Qle_trans; [exact Hlo | exact Hxk]. }
      apply (nearest_le binary32 _ _ _ Hn); [apply binary32_Z; lia | exact Hxk].
    + eapply Qle_trans; [exact Hp_up|]. rewrite <- Zle_Qle. lia.
  - intros k Hkx. apply HitEvalFacts.py_int_ge.
    destruct (Z_le_gt_dec (- 2 ^ 24) k) as [Hk1 | Hk1].
    + assert (Hk2 : (k <= 2 ^ 24)%Z).
      { rewrite Zle_Qle. eapply Qle_trans; [exact Hkx | exact Hup]. }
      apply (nearest_ge binary32 _ _ _ Hn); [apply binary32_Z; lia | exact Hkx].
    + eapply Qle_trans; [|exact Hp_lo]. rewrite <- Zle_Qle. lia.
Qed.

(** The quotients [k / g] of a range within 24 bits all round to Python
    floats. *)
Lemma thresholds_of_nearest (g : Z) (ks : list Z) :
  (0 < g)%Z ->
  (forall k, In k ks -> (Z.abs k <= 2 ^ 24)%Z) ->
  exists ts, thresholds_of g ks = inr ts /\
             Forall2 (fun k t => nearest binary64 (inject_Z k / inject_Z g) t) ks ts.
Proof.
  intros Hg. induction ks as [|k ks IH]; intros Hks.
  - exists []. split; [reflexivity | constructor].
  - destruct IH as [ts [Hts Hall]]; [intros k' Hk'; apply Hks; now right|].
    assert (Hgq : 1 <= inject_Z g) by (change 1 with (inject_Z 1); rewrite <- Zle_Qle; lia).
    assert (Hb : 2 * Qabs (inject_Z k / inject_Z g) < pow2 (emax binary64)).
    { apply Qle_lt_trans with (2 * inject_Z (2 ^ 24)); [|reflexivity].
      apply Qmult_le_l; [reflexivity|].
      unfold Qdiv. rewrite Qabs_Qmult, Qabs_inject_Z, (Qabs_pos (/ inject_Z g))
        by (apply Qlt_le_weak, Qinv_lt_0_compat; lra).
      assert (Hk : inject_Z (Z.abs k) <= inject_Z (2 ^ 24))
        by (rewrite <- Zle_Qle; apply Hks; now left).
      assert (Hk0 : 0 <= inject_Z (Z.abs k))
        by (change 0 with (inject_Z 0); rewrite <- Zle_Qle; lia).
      eapply Qle_trans; [|exact Hk].
      apply Qle_shift_div_r; [lra | nra]. }
    destruct (round_is_finite binary64 binary64_well_formed _ Hb) as [t Ht].
    exists (t :: ts). split.
    + cbn [thresholds_of]. unfold threshold_of.
      replace (g =? 0)%Z with false by (symmetry; apply Z.eqb_neq; lia).
      rewrite Ht. cbn [and_then]. rewrite Hts. reflexivity.
    + constructor; [|exact Hall].
      now apply (round_nearest binary64 binary64_well_formed).
Qed.

Lemma le_div_mult (a b c : Q) : 0 < c -> a <= b / c -> a * c <= b.
Proof.
  intros Hc H. apply Qmult_le_compat_r with (z := c) in H; [|lra].
  setoid_replace (b / c * c) with b in H by (field; lra). exact H.
Qed.

Lemma div_le_mult (a b c : Q) : 0 < c -> a / c <= b -> a <= b * c.
Proof.
  intros Hc H. apply Qmult_le_compat_r with (z := c) in H; [|lra].
  setoid_replace (a / c * c) with a in H by (field; lra). exact H.
Qed.

Lemma Qceiling_bounds (q : Q) :
  q <= inject_Z (Qceiling q) /\ inject_Z (Qceiling q) - 1 < q.
Proof.
  split; [apply Qle_ceiling|].
  pose proof (Qceiling_lt q) as H.
  replace (Qceiling q - 1)%Z with (Qceiling q + -1)%Z in H by lia.
  rewrite inject_Z_plus in H. change (inject_Z (-1)) with (-1) in H. lra.
Qed.

(** The start and the end of the scan, for scores within 24 bits of the
    granularity. *)
Lemma threshold_range_bounds (scores : list tfloat) (g : Z) (lo hi : Q) :
  (0 < g <= 2 ^ 24)%Z ->
  tensor_min scores = Returned (Fin lo) ->
  tensor_max scores = Returned (Fin hi) ->
  Qabs (lo * inject_Z g) <= inject_Z (2 ^ 24) ->
  Qabs (hi * inject_Z g) <= inject_Z (2 ^ 24) ->
  exists plo phi,
    nearest binary32 (lo * inject_Z g) plo /\
    nearest binary32 (hi * inject_Z g) phi /\
    threshold_range scores g = inr (HitEval.py_int plo, HitEval.py_int phi) /\
    (forall k : Z,
       lo <= inject_Z k / inject_Z g -> (inject_Z k + 1) / inject_Z g <= hi ->
       (HitEval.py_int plo <= k < HitEval.py_int phi)%Z) /\
    (forall k : Z,
       (HitEval.py_int plo <= k < HitEval.py_int phi)%Z ->
       (- 2 ^ 24 <= k < 2 ^ 24)%Z /\
       lo - 1 / inject_Z g < inject_Z k / inject_Z g /\ inject_Z k / inject_Z g < hi).
Proof.
  intros Hg Hmin Hmax Hblo Hbhi.
  destruct (scaled_int_bounds lo g Hg Hblo) as [plo [_ [Hnlo [Hslo [Hlo_le Hlo_ge]]]]].
  destruct (scaled_int_bounds hi g Hg Hbhi) as [phi [_ [Hnhi [Hshi [Hhi_le Hhi_ge]]]]].
  exists plo, phi. split; [exact Hnlo|]. split; [exact Hnhi|]. split.
  { unfold threshold_range. rewrite Hmin, Hmax. cbn [of_outcome and_then].
    rewrite Hslo. cbn [and_then]. rewrite Hshi. reflexivity. }
  assert (Hgq : 0 < inject_Z g) by (change 0 with (inject_Z 0); rewrite <- Zlt_Qlt; lia).
  assert (Hup : hi * inject_Z g <= inject_Z (2 ^ 24)).
  { eapply Qle_trans; [apply Qle_Qabs | exact Hbhi]. }
  assert (Hdown : inject_Z (- 2 ^ 24) <= lo * inject_Z g).
  { rewrite inject_Z_opp.
    assert (H : - (lo * inject_Z g) <= Qabs (lo * inject_Z g))
      by (rewrite <- Qabs_opp; apply Qle_Qabs).
    lra. }
  split.
  - intros k Hk1 Hk2. split.
    + apply Hlo_le. now apply le_div_mult.
    + assert (H : (k + 1 <= HitEval.py_int phi)%Z); [|lia].
      apply Hhi_ge. rewrite inject_Z_plus. change (inject_Z 1) with 1.
      now apply div_le_mult.
  - intros k [Hk1 Hk2].
    destruct (Qfloor_bounds (lo * inject_Z g)) as [Hf1 Hf2].
    destruct (Qceiling_bounds (hi * inject_Z g)) as [Hc1 Hc2].
    pose proof (Hlo_ge _ Hf1) as Hstart. pose proof (Hhi_le _ Hc1) as Hstop.
    pose proof (Hlo_ge _ Hdown) as Hstart'. pose proof (Hhi_le _ Hup) as Hstop'.
    assert (Hk1q : inject_Z (Qfloor (lo * inject_Z g)) <= inject_Z k)
      by (rewrite <- Zle_Qle; lia).
    assert (Hk2q : inject_Z k + 1 <= inject_Z (Qceiling (hi * inject_Z g))).
    { change 1 with (inject_Z 1). rewrite <- inject_Z_plus, <- Zle_Qle. lia. }
    split; [lia|]. split.
    + apply Qlt_shift_div_l; [exact Hgq|].
      setoid_replace ((lo - 1 / inject_Z g) * inject_Z g) with (lo * inject_Z g - 1)
        by (field; lra).
      lra.
    + apply Qlt_shift_div_r; [exact Hgq|]. lra.
Qed.

(** *** Claims about the values *)

(** The entries of the example are the float32 numbers nearest to the
    decimals, as [torch.tensor] makes them. *)
Lemma example_entries :
  round_value binary32 (round binary64 (9 # 10)) = Fin Float32.nine_tenths /\
  round_value binary32 (round binary64 (3 # 10)) = Fin Float32.three_tenths /\
  round_value binary32 (round binary64 (29 # 100)) = Fin Float32.twenty_nine_hundredths /\
  round_value binary32 (round binary64 (1 # 2)) = Fin (1 # 2).
Proof. repeat split; vm_compute; reflexivity. Qed.


(** In double precision the first score of the example is not -0.1 either:
    the three operations on the doubles nearest to 0.5, 0.9 and 0.3 give
    -225179981368525 / 2^51 = -0.10000000000000009, where the double
    nearest to -0.1 is -3602879701896397 / 2^55. *)
Lemma example_score_in_double_precision :
  round binary64 (9 # 10) = Fin (8106479329266893 # 9007199254740992) /\
  round binary64 (3 # 10) = Fin (5404319552844595 # 18014398509481984) /\
  round binary64 ((5404319552844595 # 18014398509481984)
                  - (8106479329266893 # 9007199254740992))
  = Fin (- (1351079888211149 # 2251799813685248)) /\
  round binary64 ((1 # 2) + 1 * - (1351079888211149 # 2251799813685248))
  = Fin (- (225179981368525 # 2251799813685248)) /\
  round binary64 (- (1 # 10)) = Fin (- (3602879701896397 # 36028797018963968)).
Proof. repeat split; vm_compute; reflexivity. Qed.







(** The float32 product decides where the scan starts: for a smallest score
    of float32 0.29 and granularity 100 the product 28.99999917 rounds to
    29.0, and the scan starts at 29, where truncating the exact product
    gives 28. *)
Lemma scan_starts_at_the_rounded_product :
  threshold_range (composite_scores boundary_mat 1) 100 = inr (29, 100)%Z /\
  HitEval.py_int (Float32.twenty_nine_hundredths * inject_Z 100) = 28%Z.
Proof. split; vm_compute; reflexivity. Qed.

(** C8, as stated, fails: for the end-to-end example with weight 1 and
    granularity 100 the scores have minimum -0.09999996 and maximum 3; the
    maximum is the multiple 300/100 of 1/100, it lies between the minimum
    and the maximum, and it is not among the 309 thresholds scanned, which
    run from -0.09 to 2.99. *)
Lemma C8_maximum_is_not_scanned :
  tensor_min (composite_scores example_mat 1) = Returned (Fin (-1677721 # 16777216)) /\
  tensor_max (composite_scores example_mat 1) = Returned (Fin 3) /\
  (-1677721 # 16777216) <= inject_Z 300 / inject_Z 100 <= 3 /\
  exists ts,
    scanned_thresholds example_mat 100 1 = inr ts /\
    List.length ts = 309%nat /\
    threshold_of 100 (-9) = inr (hd 0 ts) /\
    threshold_of 100 299 = inr (last ts 0) /\
    forall t, In t ts -> ~ t == inject_Z 300 / inject_Z 100.
Proof.
  split; [vm_compute; reflexivity|]. split; [vm_compute; reflexivity|].
  split; [split; discriminate|].
  destruct (scanned_thresholds example_mat 100 1) as [e | ts] eqn:E;
    [vm_compute in E; discriminate|].
  exists ts. split; [reflexivity|].
  assert (Ets : inr ts = scanned_thresholds example_mat 100 1) by now rewrite E.
  assert (Hlen : List.length ts = 309%nat).
  { apply (f_equal (fun r => match r with inr l => List.length l | inl _ => 0%nat end)) in Ets.
    rewrite Ets. vm_compute. reflexivity. }
  assert (Hhd : threshold_of 100 (-9) = inr (hd 0 ts)).
  { apply (f_equal (fun r : failure + list Q =>
                      match r with inr l => inr (hd 0 l) | inl e => inl e end)) in Ets.
    rewrite Ets. vm_compute. reflexivity. }
  assert (Hlast : threshold_of 100 299 = inr (last ts 0)).
  { apply (f_equal (fun r : failure + list Q =>
                      match r with inr l => inr (last l 0) | inl e => inl e end)) in Ets.
    rewrite Ets. vm_compute. reflexivity. }
  set (other := fun t => negb (Qeq_bool t (inject_Z 300 / inject_Z 100))).
  assert (Hall : forallb other ts = true).
  { apply (f_equal (fun r : failure + list Q =>
                      match r with
                      | inr l => forallb other l
                      | inl _ => false
                      end)) in Ets.
    rewrite Ets. vm_compute. reflexivity. }
  repeat split; try assumption.
  intros t Hin Heq. rewrite forallb_forall in Hall. specialize (Hall t Hin).
  unfold other in Hall. apply Qeq_eq_bool in Heq. rewrite Heq in Hall. discriminate.
Qed.

(** C8, amended.  For a granularity [g] of 1 to 2^24 and finite scores
    with minimum [lo] and maximum [hi] such that [lo * g] and [hi * g] are
    within 2^24: the scan runs over the integers k from int(fl(lo * g)) up
    to, but not including, int(fl(hi * g)), where fl rounds the product to
    float32 and int truncates toward zero, and the threshold handed on for
    k is k / g rounded to a Python float.  Every k with lo <= k/g and
    (k + 1)/g <= hi is scanned, and every scanned k has
    lo - 1/g < k/g < hi: the multiples of 1/g from the minimum up to the
    maximum less 1/g are tried, and the maximum itself never is. *)
Theorem C8_scanned_thresholds (mat : matrix) (g : Z) (w lo hi : Q) :
  (0 < g <= 2 ^ 24)%Z ->
  tensor_min (composite_scores mat w) = Returned (Fin lo) ->
  tensor_max (composite_scores mat w) = Returned (Fin hi) ->
  Qabs (lo * inject_Z g) <= inject_Z (2 ^ 24) ->
  Qabs (hi * inject_Z g) <= inject_Z (2 ^ 24) ->
  exists plo phi ts,
    nearest binary32 (lo * inject_Z g) plo /\
    nearest binary32 (hi * inject_Z g) phi /\
    threshold_range (composite_scores mat w) g = inr (HitEval.py_int plo, HitEval.py_int phi) /\
    scanned_thresholds mat g w = inr ts /\
    Forall2 (fun k t => nearest binary64 (inject_Z k / inject_Z g) t)
            (py_range (HitEval.py_int plo) (HitEval.py_int phi)) ts /\
    (forall k : Z,
       lo <= inject_Z k / inject_Z g -> (inject_Z k + 1) / inject_Z g <= hi ->
       In k (py_range (HitEval.py_int plo) (HitEval.py_int phi))) /\
    (forall k : Z,
       In k (py_range (HitEval.py_int plo) (HitEval.py_int phi)) ->
       lo - 1 / inject_Z g < inject_Z k / inject_Z g /\ inject_Z k / inject_Z g < hi).
Proof.
  intros Hg Hmin Hmax Hblo Hbhi.
  destruct (threshold_range_bounds _ g lo hi Hg Hmin Hmax Hblo Hbhi)
    as [plo [phi [Hnlo [Hnhi [Hrange [Hin Hout]]]]]].
  destruct (thresholds_of_nearest g (py_range (HitEval.py_int plo) (HitEval.py_int phi)))
    as [ts [Hts Hall]]; [lia | |].
  { intros k Hk. apply HitEvalFacts.py_range_In in Hk.
    destruct (Hout k Hk) as [Hk' _]. lia. }
  exists plo, phi, ts. split; [exact Hnlo|]. split; [exact Hnhi|].
  split; [exact Hrange|]. split.
  { unfold scanned_thresholds. rewrite Hrange. cbn [and_then]. exact Hts. }
  split; [exact Hall|]. split.
  - intros k Hk1 Hk2. apply HitEvalFacts.py_range_In. now apply Hin.
  - intros k Hk. apply HitEvalFacts.py_range_In in Hk. now apply Hout.
Qed.

Lemma C8_scanned_thresholds_witness :
  ((0 < 100 <= 2 ^ 24)%Z /\
   tensor_min (composite_scores example_mat 1) = Returned (Fin (-1677721 # 16777216)) /\
   tensor_max (composite_scores example_mat 1) = Returned (Fin 3) /\
   Qabs ((-1677721 # 16777216) * inject_Z 100) <= inject_Z (2 ^ 24) /\
   Qabs (3 * inject_Z 100) <= inject_Z (2 ^ 24)) /\
  exists plo phi ts,
    nearest binary32 ((-1677721 # 16777216) * inject_Z 100) plo /\
    nearest binary32 (3 * inject_Z 100) phi /\
    threshold_range (composite_scores example_mat 1) 100
    = inr (HitEval.py_int plo, HitEval.py_int phi) /\
    scanned_thresholds example_mat 100 1 = inr ts /\
    Forall2 (fun k t => nearest binary64 (inject_Z k / inject_Z 100) t)
            (py_range (HitEval.py_int plo) (HitEval.py_int phi)) ts /\
    (forall k : Z,
       (-1677721 # 16777216) <= inject_Z k / inject_Z 100 ->
       (inject_Z k + 1) / inject_Z 100 <= 3 ->
       In k (py_range (HitEval.py_int plo) (HitEval.py_int phi))) /\
    (forall k : Z,
       In k (py_range (HitEval.py_int plo) (HitEval.py_int phi)) ->
       (-1677721 # 16777216) - 1 / inject_Z 100 < inject_Z k / inject_Z 100 /\
       inject_Z k / inject_Z 100 < 3).
Proof.
  assert (H1 : (0 < 100 <= 2 ^ 24)%Z) by (simpl; lia).
  assert (H2 : tensor_min (composite_scores example_mat 1)
               = Returned (Fin (-1677721 # 16777216))) by (vm_compute; reflexivity).
  assert (H3 : tensor_max (composite_scores example_mat 1) = Returned (Fin 3))
    by (vm_compute; reflexivity).
  assert (H4 : Qabs ((-1677721 # 16777216) * inject_Z 100) <= inject_Z (2 ^ 24))
    by (vm_compute; discriminate).
  assert (H5 : Qabs (3 * inject_Z 100) <= inject_Z (2 ^ 24)) by (vm_compute; discriminate).
  split; [repeat split; assumption|].
  exact (C8_scanned_thresholds example_mat 100 1 (-1677721 # 16777216) 3 H1 H2 H3 H4 H5).
Defined.

End HitEvalFloatFacts.

(** ** The cone angle in float32 *)

Module LossFloatFacts.
Import Loss Binary LossFloat BinaryFacts.

Lemma float32_math_laws : TorchMathLaws float32_math.
Proof.
  constructor.
  - intros q. simpl. destruct (Qle_bool 0 q); intros [H | H]; discriminate.
  - intros q Hq. simpl.
    assert (H0 : Qle_bool 0 q = true) by (apply Qle_bool_iff; rewrite Hq; apply Qle_refl).
    rewrite H0, (Qred_complete q 0 Hq). reflexivity.
  - intros x Hx. simpl. unfold coarse_arccos.
    destruct x as [q| | |]; try reflexivity. now rewrite Hx.
Qed.

(** [Float32.sqrt] is correctly rounded: on a float32 number that is not
    negative it returns a float32 number nearest to the root. *)
Lemma sqrt_is_correctly_rounded (x y : Q) :
  x < pow2 128 -> Float32.sqrt (Fin x) = Fin y -> 0 <= x /\ nearest_root binary32 x y.
Proof.
  intros Hmax. unfold Float32.sqrt.
  destruct (Qle_bool 0 x) eqn:E; [|discriminate]. apply Qle_bool_iff in E.
  intros H.
  assert (Hy : y = Qred (sqrt_finite binary32 (Qred x))) by congruence.
  clear H. subst y. split; [exact E|].
  destruct (Qeq_dec x 0) as [E0 | Hne].
  - rewrite (Qred_complete x 0 E0).
    assert (Ey : Qred (sqrt_finite binary32 (Qred 0)) = 0) by (vm_compute; reflexivity).
    rewrite Ey.
    split; [apply (representable_zero binary32 binary32_well_formed)|].
    split; [apply Qle_refl|]. intros z _ Hz. split; intros H; [lra|].
    rewrite E0. setoid_replace (4 * 0) with 0 by ring.
    apply Qmult_le_0_compat; lra.
  - assert (Hpos : 0 < Qred x).
    { rewrite Qred_correct. destruct (Qlt_le_dec 0 x) as [H | H]; [exact H|].
      exfalso. apply Hne. now apply Qle_antisym. }
    apply (nearest_root_comp binary32 (Qred x) x (sqrt_finite binary32 (Qred x)));
      [apply Qred_correct | symmetry; apply Qred_correct|].
    apply (sqrt_finite_nearest_root binary32 binary32_well_formed);
      [simpl; lia | simpl; lia | exact Hpos | now rewrite Qred_correct].
Qed.

(** The coarse inverse cosine is a number on all of [-1, 1]. *)
Lemma float32_arccos_defined (x : tfloat) :
  in_unit_interval x = true -> @farccos float32_math x <> NaN.
Proof.
  intros Hx. simpl. unfold coarse_arccos.
  destruct x as [q| | |]; try discriminate. rewrite Hx. discriminate.
Qed.

Lemma clamp_unit_in_domain (x : tfloat) :
  x <> NaN -> in_unit_interval (clamp_unit x) = true.
Proof.
  destruct x as [q| | |]; intros Hx; try reflexivity; [|congruence].
  simpl. apply andb_true_iff. split; apply Qle_bool_iff.
  - apply Q.min_glb; [apply Q.le_max_r | discriminate].
  - apply Q.le_min_r.
Qed.

(** *** Claims about the cone angle *)

(** C9, as stated, fails: the two float32 points nearest to (0.3, 0) and
    (0.9, 0) lie in the unit ball, at norms 0.3 and 0.9.  In exact
    arithmetic the quotient handed to arccos is 1 for them; in float32 it
    is 1 + 2^-23 = 1.0000001, and [cone_angle_at_u] returns not-a-number.
    With the quotient clamped into [-1, 1] the angle would be
    arccos 1 = 0. *)
Lemma C9_angle_undefined_by_rounding :
  @vnorm float32_math near_point = Fin Float32.three_tenths /\
  @vnorm float32_math far_point = Fin Float32.nine_tenths /\
  Float32.nine_tenths < 1 /\
  (exists q, @Loss.cone_angle_argument coarse_math near_point far_point = Fin q /\ q == 1) /\
  @cone_angle_argument float32_math near_point far_point = Fin (8388609 # 8388608) /\
  @cone_angle_at_u float32_math near_point far_point = NaN /\
  (exists a, @cone_angle_clamped float32_math near_point far_point = Fin a /\ a == 0).
Proof.
  split; [vm_compute; reflexivity|]. split; [vm_compute; reflexivity|].
  split; [reflexivity|]. split.
  { eexists. split; [vm_compute; reflexivity | reflexivity]. }
  split; [vm_compute; reflexivity|]. split; [vm_compute; reflexivity|].
  eexists. split; [vm_compute; reflexivity | reflexivity].
Qed.

(** C9, amended.  [cone_angle_at_u] hands the quotient to arccos as it is:
    with an inverse cosine that is a number exactly on [-1, 1], the angle
    is not-a-number exactly when the quotient is not-a-number, infinite or
    outside [-1, 1], also by a rounding error; with the quotient clamped
    first, as the specification has it, the angle would be not-a-number
    only for a quotient that is not-a-number. *)
Theorem C9_cone_angle_is_not_clamped (M : TorchMath) (cone_tip u : vec) :
  TorchMathLaws M ->
  (forall x, in_unit_interval x = true -> farccos x <> NaN) ->
  (cone_angle_at_u cone_tip u = NaN
   <-> in_unit_interval (cone_angle_argument cone_tip u) = false)
  /\ (cone_angle_clamped cone_tip u = NaN <-> cone_angle_argument cone_tip u = NaN).
Proof.
  intros Hlaws Hdef. unfold cone_angle_at_u, cone_angle_clamped.
  generalize (cone_angle_argument cone_tip u). intros x. split; split.
  - intros H. destruct (in_unit_interval x) eqn:E; [|reflexivity].
    exfalso. now apply (Hdef x E).
  - apply (farccos_domain M Hlaws).
  - intros H. destruct x as [q| | |]; try reflexivity; exfalso;
      refine (Hdef _ (clamp_unit_in_domain _ _) H); discriminate.
  - intros ->. simpl. now apply (farccos_domain M Hlaws).
Qed.

Lemma C9_cone_angle_witness :
  (TorchMathLaws float32_math /\
   (forall x, in_unit_interval x = true -> @farccos float32_math x <> NaN)) /\
  (@cone_angle_at_u float32_math near_point far_point = NaN
   <-> in_unit_interval (@cone_angle_argument float32_math near_point far_point) = false)
  /\ (@cone_angle_clamped float32_math near_point far_point = NaN
      <-> @cone_angle_argument float32_math near_point far_point = NaN).
Proof.
  split; [split; [exact float32_math_laws | exact float32_arccos_defined]|].
  exact (C9_cone_angle_is_not_clamped float32_math near_point far_point
           float32_math_laws float32_arccos_defined).
Defined.

End LossFloatFacts.

(** ** The training flags across the passes *)

Module HitEvalModesFacts.
Import HitEval HitEvalLoader HitEvalModes.

Section Passes.

Variable S : Type.
Variable V : Type.
Variable dist : V -> V -> Q.
Variable dist0 : V -> Q.
Variable model : mode -> S -> V.
Variable loss_module : mode -> batch S -> Loss.tfloat.
Variable triplet : bool.
Variable threshold_evaluate : tensor -> tensor -> Q -> metrics.
Variable shared_encoder : bool.

Local Abbreviation pass :=
  (pass S V dist dist0 model loss_module triplet threshold_evaluate).
Local Abbreviation call :=
  (call S V dist dist0 model loss_module triplet threshold_evaluate shared_encoder).

Local Abbreviation later_flags := (later_flags shared_encoder).

Lemma flags_at_start (fl : flags) :
  loss_module_set shared_encoder Evaluating (model_eval shared_encoder fl) = first_flags.
Proof. unfold loss_module_set, model_eval, first_flags. now destruct shared_encoder. Qed.

Lemma flags_after_a_pass (fl : flags) :
  fl = first_flags \/ fl = later_flags ->
  loss_module_set shared_encoder Training fl = later_flags.
Proof.
  unfold loss_module_set, later_flags, first_flags.
  intros [-> | ->]; now destruct shared_encoder.
Qed.

(** Without a train loader the validation pass runs in evaluation mode, and
    the test pass runs in the mode the validation pass left behind. *)
Lemma call_without_train (fl : flags) (val : list (batch S))
    (test : option (list (batch S))) :
  call fl None val test
  = match pass first_flags val None None with
    | Raised e => ([], inl (PassError e))
    | Returned val_out =>
        match loader_given S test, out_scores val_out with
        | Some batches, Some val_scores =>
            match pass later_flags batches
                    (Some (centri_score_weight val_scores))
                    (Some (threshold (scores_at val_scores))) with
            | Returned o =>
                ([("val"%string, val_out); ("test"%string, o)],
                 inr (F1 (scores_at val_scores)))
            | Raised e => ([("val"%string, val_out)], inl (PassError e))
            end
        | None, Some val_scores =>
            ([("val"%string, val_out)], inr (F1 (scores_at val_scores)))
        | _, None => ([("val"%string, val_out)], inl TypeError)
        end
    end.
Proof.
  unfold HitEvalModes.call, evaluate_dataloader. cbn [loader_given fst].
  rewrite flags_at_start, (flags_after_a_pass first_flags) by now left.
  destruct (pass first_flags val None None) as [val_out | e]; [|reflexivity].
  destruct (loader_given S test) as [batches|], (out_scores val_out) as [val_scores|];
    try reflexivity.
  destruct (pass later_flags batches _ _); reflexivity.
Qed.

(** The pass reads the loss module through its values on the batches
    only. *)
Lemma batch_loop_ext (W : Type) (d : W -> W -> Q) (d0 : W -> Q)
    (l1 l2 : batch W -> Loss.tfloat) :
  (forall b, l1 b = l2 b) ->
  forall batches results acc,
    batch_loop W d d0 l1 triplet batches results acc
    = batch_loop W d d0 l2 triplet batches results acc.
Proof.
  intros Hl. induction batches as [|b rest IH]; intros results acc; [reflexivity|].
  cbn [batch_loop]. destruct (batch_results W d d0 triplet b) as [rows|e]; [|reflexivity].
  cbn [bind]. rewrite (Hl b). apply IH.
Qed.

Lemma encode_batch_ext (m m' : mode) (b : batch S) :
  (forall s, model m s = model m' s) ->
  encode_batch S V model m b = encode_batch S V model m' b.
Proof.
  intros Hm. destruct b as [examples | examples]; cbn [encode_batch]; f_equal;
    apply map_ext; intros [[x y] z]; unfold encode; now rewrite !Hm.
Qed.

(** With an encoder and a loss module that do not depend on the training
    flag, a pass does not depend on the flags. *)
Lemma pass_without_flags (fl fl' : flags) (batches : list (batch S)) (w t : option Q) :
  (forall s, model Training s = model Evaluating s) ->
  (forall b, loss_module Training b = loss_module Evaluating b) ->
  pass fl batches w t = pass fl' batches w t.
Proof.
  intros Hmodel Hloss.
  assert (Hm : forall m m' s, model m s = model m' s).
  { intros [|] [|] s; congruence. }
  assert (Hl : forall m m' b, loss_module m b = loss_module m' b).
  { intros [|] [|] b; congruence. }
  unfold HitEvalModes.pass, HitEvalLoader.evaluate_dataloader.
  rewrite (map_ext _ _ (fun b => encode_batch_ext (model_flag fl) (model_flag fl') b
                                   (Hm _ _))).
  rewrite (batch_loop_ext _ _ _
             (fun b => loss_module (loss_flag fl) (features S V b))
             (fun b => loss_module (loss_flag fl') (features S V b))
             (fun b => Hl _ _ _)).
  now rewrite !length_map.
Qed.

(** X11.  With the validation loader given again as the test loader, the test
    pass encodes the texts again, and it does so after line 173 has put the
    loss module, and with it a shared encoder, in training mode: its output
    is that of a pass under those flags with the hyperparameters found on
    the validation pass.  It reproduces the validation output when the
    encoder and the loss module do not depend on the training flag (no
    dropout), [threshold_evaluate] records the threshold it was given, and
    the threshold found is not 0.0. *)
Theorem call_test_on_validation_data
    (fl : flags) (val : list (batch S)) (o : loader_output) (r : eval_results) :
  pass first_flags val None None = Returned o ->
  out_scores o = Some r ->
  call fl None val (Some val)
  = match pass later_flags val (Some (centri_score_weight r))
            (Some (threshold (scores_at r))) with
    | Returned o' =>
        ([("val"%string, o); ("test"%string, o')], inr (F1 (scores_at r)))
    | Raised e => ([("val"%string, o)], inl (PassError e))
    end
  /\ ((forall s l t, threshold (threshold_evaluate s l t) = t) ->
      (forall s, model Training s = model Evaluating s) ->
      (forall b, loss_module Training b = loss_module Evaluating b) ->
      ~ threshold (scores_at r) == 0 ->
      call fl None val (Some val)
      = ([("val"%string, o); ("test"%string, o)], inr (F1 (scores_at r)))).
Proof.
  intros Hval Hr.
  assert (Hcall : call fl None val (Some val)
                  = match pass later_flags val (Some (centri_score_weight r))
                            (Some (threshold (scores_at r))) with
                    | Returned o' =>
                        ([("val"%string, o); ("test"%string, o')], inr (F1 (scores_at r)))
                    | Raised e => ([("val"%string, o)], inl (PassError e))
                    end).
  { rewrite call_without_train, Hval, Hr.
    destruct val as [|b bs]; [discriminate | reflexivity]. }
  split; [exact Hcall|].
  intros Hte Hmodel Hloss Hnz. rewrite Hcall.
  rewrite (pass_without_flags later_flags first_flags _ _ _ Hmodel Hloss).
  destruct (HitEvalLoaderFacts.pass_then_evaluate _ _ _ _ _ _ _ _ _ _ Hval)
    as [Hsearch Happly].
  rewrite Hr in Hsearch.
  pose proof (HitEvalMore.apply_after_search threshold_evaluate
                (out_mat o) 100 r Hte Hsearch Hnz) as Hround.
  apply Happly in Hround. unfold HitEvalModes.pass. rewrite Hround.
  destruct o as [m l s]. simpl in Hr. subst s. reflexivity.
Qed.

End Passes.

Local Abbreviation example_flag_pass :=
  (pass Q Q line_dist line_dist0 line_model example_flag_loss false
     threshold_evaluate_model).
Local Abbreviation example_flag_call :=
  (call Q Q line_dist line_dist0 line_model example_flag_loss false
     threshold_evaluate_model true).

Lemma call_test_on_validation_data_witness :
  (example_flag_pass first_flags example_pair_batches None None
   = Returned example_pair_output /\
   out_scores example_pair_output = Some example_pair_scores /\
   (forall s l t, threshold (threshold_evaluate_model s l t) = t) /\
   (forall s, line_model Training s = line_model Evaluating s) /\
   (forall b, example_flag_loss Training b = example_flag_loss Evaluating b) /\
   ~ threshold (scores_at example_pair_scores) == 0) /\
  example_flag_call first_flags None example_pair_batches (Some example_pair_batches)
  = match example_flag_pass (later_flags true) example_pair_batches
            (Some (centri_score_weight example_pair_scores))
            (Some (threshold (scores_at example_pair_scores))) with
    | Returned o' =>
        ([("val"%string, example_pair_output); ("test"%string, o')],
         inr (F1 (scores_at example_pair_scores)))
    | Raised e => ([("val"%string, example_pair_output)], inl (PassError e))
    end
  /\ example_flag_call first_flags None example_pair_batches (Some example_pair_batches)
     = ([("val"%string, example_pair_output); ("test"%string, example_pair_output)],
        inr (F1 (scores_at example_pair_scores))).
Proof.
  assert (Hpass : example_flag_pass first_flags example_pair_batches None None
                  = Returned example_pair_output) by (vm_compute; reflexivity).
  assert (Hnz : ~ threshold (scores_at example_pair_scores) == 0) by discriminate.
  split.
  { split; [exact Hpass|]. split; [reflexivity|]. split; [reflexivity|].
    split; [reflexivity|]. split; [reflexivity | exact Hnz]. }
  destruct (call_test_on_validation_data Q Q line_dist line_dist0 line_model
              example_flag_loss false threshold_evaluate_model true first_flags
              example_pair_batches example_pair_output example_pair_scores
              Hpass eq_refl) as [Ha Hb].
  split; [exact Ha|].
  exact (Hb (fun _ _ _ => eq_refl) (fun _ => eq_refl) (fun _ => eq_refl) Hnz).
Defined.

End HitEvalModesFacts.
